(** * SoftVideoCompositor: a shallow embedding and its properties

    Source: source/agent/video/videoMixer/SoftVideoCompositor.cpp

    The embedding follows the C++ classes one module per class:
    [AvatarManager], [SoftInput], [SoftVideoCompositor] (the hooks the
    generator calls) and [SoftFrameGenerator].  Mutable members become
    record fields and every method takes the object and returns the
    updated object next to its result.  A mutex-protected method is one
    atomic step; interleavings of threads are not modelled.

    What the source obtains from collaborators defined elsewhere (the
    buffer pool, the frame converter, the file system, the result of
    composing a canvas) enters the model as an explicit argument of the
    method that asks for it. *)

From Stdlib Require Import ZArith List Bool Lia String Ascii.
From stdpp Require Import base option list gmap strings sorting.

Local Open Scope Z_scope.

(* ================================================================== *)
(** ** Outcomes of a call *)

(** A call either returns, trips an [assert], runs into behaviour the
    language leaves undefined (indexing a vector out of range, reading
    past the end of an array, dividing by zero), or has not finished
    within the fuel given to a loop. *)
Inductive outcome (A : Type) : Type :=
| Returns (a : A)
| AssertionFailed
| Undefined
| OutOfFuel.

Arguments Returns {A} a.
Arguments AssertionFailed {A}.
Arguments Undefined {A}.
Arguments OutOfFuel {A}.

(** Sequencing: the first call that does not return ends the run.
    Written [x ← c; k] below. *)
#[global] Instance outcome_bind : MBind outcome := fun A B k o =>
  match o with
  | Returns a => k a
  | AssertionFailed => AssertionFailed
  | Undefined => Undefined
  | OutOfFuel => OutOfFuel
  end.

#[global] Instance outcome_ret : MRet outcome := fun A a => Returns a.

(** [c_assert NDEBUG b]: the C macro [assert(b)]; compiled out when
    [NDEBUG] is defined. *)
Definition c_assert (NDEBUG : bool) (b : bool) : outcome unit :=
  if NDEBUG then Returns tt else if b then Returns tt else AssertionFailed.

(* ================================================================== *)
(** ** Frames and buffers *)

(** A planar I420 image: its dimensions and its bytes, the Y plane
    followed by the U and the V plane. *)
Record I420Buffer : Type := mkI420Buffer {
  buf_width : Z;
  buf_height : Z;
  buf_data : list Byte.byte
}.

(** [webrtc::VideoFrame(buffer, kVideoRotation_0, 0)]. *)
Record VideoFrame : Type := mkVideoFrame {
  video_frame_buffer : I420Buffer
}.

Inductive FrameFormat : Type :=
| FRAME_FORMAT_I420
| FRAME_FORMAT_other (code : nat).

Definition is_I420 (f : FrameFormat) : bool :=
  match f with FRAME_FORMAT_I420 => true | FRAME_FORMAT_other _ => false end.

(** [owt_base::Frame], the fields [pushInput] reads. *)
Module Frame.
Record t : Type := mk {
  format : FrameFormat;
  payload : VideoFrame;
  timeStamp : Z;
  sync_enabled : bool;
  sync_timeStamp : Z
}.
End Frame.

(* ================================================================== *)
(** ** SoftInput *)

Module SoftInput.

Record SoftInputFrame : Type := mkSoftInputFrame {
  buffer : I420Buffer;
  timeStamp : Z;
  sync_enabled : bool;
  sync_timeStamp : Z
}.

(** The members of [SoftInput].  [m_frame_queue] has its front at the
    head of the list; [push_back] appends. *)
Record t : Type := mk {
  m_active : bool;
  m_sync_enabled : bool;
  m_frame_sync_enabled : bool;
  m_frame_queue : list SoftInputFrame
}.

(** [SoftInput::SoftInput()] *)
Definition create : t :=
  {| m_active := false; m_sync_enabled := true;
     m_frame_sync_enabled := false; m_frame_queue := [] |}.

Definition setActive (active : bool) (s : t) : t :=
  {| m_active := active;
     m_sync_enabled := m_sync_enabled s;
     m_frame_sync_enabled := m_frame_sync_enabled s;
     m_frame_queue := if negb active then [] else m_frame_queue s |}.

Definition isActive (s : t) : bool := m_active s.

(** What [pushInput] gets from its two collaborators:
    [m_bufferManager->getFreeBuffer(w, h)] (no buffer: [None]) and
    [m_converter->convert(src, dst)]. *)
Record Collaborators : Type := mkCollaborators {
  getFreeBuffer : option I420Buffer;
  convert : bool
}.

Section Build.
(** [NDEBUG]: whether assertions are compiled out.
    [kMaxQueueSize]: the constant of the header. *)
Variable NDEBUG : bool.
Variable kMaxQueueSize : nat.

(** First critical section of [pushInput]: a full queue is cleared
    and sync is switched off. *)
Definition overflow (s : t) : t :=
  if Nat.eqb (length (m_frame_queue s)) kMaxQueueSize then
    {| m_active := m_active s; m_sync_enabled := false;
       m_frame_sync_enabled := m_frame_sync_enabled s;
       m_frame_queue := [] |}
  else s.

(** Second critical section of [pushInput]. *)
Definition enqueue (dstBuffer : I420Buffer) (frame : Frame.t) (s : t) : t :=
  if m_active s then
    let inputFrame :=
      {| buffer := dstBuffer;
         timeStamp := Frame.timeStamp frame;
         sync_enabled := Frame.sync_enabled frame;
         sync_timeStamp := Frame.sync_timeStamp frame |} in
    let frame_sync := Frame.sync_enabled frame in
    let queue :=
      if negb (m_sync_enabled s) || negb frame_sync then [] else m_frame_queue s in
    {| m_active := m_active s; m_sync_enabled := m_sync_enabled s;
       m_frame_sync_enabled := frame_sync;
       m_frame_queue := queue ++ [inputFrame] |}
  else s.

Definition pushInput (env : Collaborators) (frame : Frame.t) (s : t) : outcome t :=
  _ ← c_assert NDEBUG (is_I420 (Frame.format frame));
  if negb (m_active s) then Returns s
  else
    let s1 := overflow s in
    match getFreeBuffer env with
    | None => Returns s1
    | Some dstBuffer =>
        if negb (convert env) then Returns s1
        else Returns (enqueue dstBuffer frame s1)
    end.
End Build.

Definition set_queue (q : list SoftInputFrame) (s : t) : t :=
  {| m_active := m_active s; m_sync_enabled := m_sync_enabled s;
     m_frame_sync_enabled := m_frame_sync_enabled s; m_frame_queue := q |}.

Definition popInput (s : t) : option VideoFrame * t :=
  if negb (m_active s) then (None, s)
  else
    match m_frame_queue s with
    | [] => (None, s)
    | inputFrame :: rest =>
        let s' := if Nat.ltb 1 (length (m_frame_queue s)) then set_queue rest s else s in
        (Some (mkVideoFrame (buffer inputFrame)), s')
    end.

Definition front (s : t) : option SoftInputFrame :=
  if negb (m_active s) then None else head (m_frame_queue s).

Definition back (s : t) : option SoftInputFrame :=
  if negb (m_active s) then None else last (m_frame_queue s).

(** The [while (true)] loop of [get_sync_frame] on a non-empty queue:
    leave when the front has reached the target or is the only frame,
    else [pop_front] and go round again.  Each round shortens the
    queue, so the recursion is on the queue itself. *)
Fixpoint advance (target : Z) (q : list SoftInputFrame) : list SoftInputFrame :=
  match q with
  | [] => []
  | f :: rest =>
      if sync_timeStamp f >=? target then q
      else
        match rest with
        | [] => q
        | _ :: _ => advance target rest
        end
  end.

Definition get_sync_frame (target : Z) (s : t) : option SoftInputFrame * t :=
  if negb (m_active s) then (None, s)
  else
    match m_frame_queue s with
    | [] => (None, s)
    | f :: _ =>
        if target =? -1 then (Some f, s)
        else
          let q := advance target (m_frame_queue s) in
          (head q, set_queue q s)
    end.

Definition isSyncEnabled (s : t) : bool :=
  m_sync_enabled s && m_frame_sync_enabled s.

(** *** Sequences of calls on one input *)

Inductive call : Type :=
| SetActive (active : bool)
| IsActive
| PushInput (env : Collaborators) (frame : Frame.t)
| PopInput
| Front
| Back
| GetSyncFrame (target : Z)
| IsSyncEnabled.

Section Calls.
Variable NDEBUG : bool.
Variable kMaxQueueSize : nat.

(** The input after one call; the value the call returns is dropped. *)
Definition step (c : call) (s : t) : outcome t :=
  match c with
  | SetActive active => Returns (setActive active s)
  | PushInput env frame => pushInput NDEBUG kMaxQueueSize env frame s
  | PopInput => Returns (snd (popInput s))
  | GetSyncFrame target => Returns (snd (get_sync_frame target s))
  | IsActive | Front | Back | IsSyncEnabled => Returns s
  end.

Fixpoint steps (calls : list call) (s : t) : outcome t :=
  match calls with
  | [] => Returns s
  | c :: rest => s' ← step c s; steps rest s'
  end.

(** The call does not trip the assertion of [pushInput]. *)
Definition admissible (c : call) : Prop :=
  match c with
  | PushInput _ frame => NDEBUG = true \/ Frame.format frame = FRAME_FORMAT_I420
  | _ => True
  end.
End Calls.

(** An inactive input holds no frame. *)
Definition wf (s : t) : Prop := m_active s = false -> m_frame_queue s = [].

End SoftInput.

(* ================================================================== *)
(** ** Unsigned 32-bit arithmetic *)

Definition wrap32 (z : Z) : Z := z mod 2 ^ 32.

(* ================================================================== *)
(** ** AvatarManager *)

Module AvatarManager.

(** [std::string::find(c, from)]: position of the first [c] at or
    after [from]; [None] is [npos]. *)
Fixpoint find (c : ascii) (from : nat) (s : string) : option nat :=
  match s with
  | EmptyString => None
  | String a rest =>
      match from with
      | O => if Ascii.eqb a c then Some O else S <$> find c O rest
      | S from' => S <$> find c from' rest
      end
  end.

Fixpoint drop_chars (n : nat) (s : string) : string :=
  match n, s with
  | O, _ => s
  | S n', String _ rest => drop_chars n' rest
  | S _, EmptyString => EmptyString
  end.

Definition isspace (a : ascii) : bool :=
  let n := nat_of_ascii a in
  Nat.eqb n 32 || (Nat.leb 9 n && Nat.leb n 13).

Definition digit (a : ascii) : option Z :=
  let n := nat_of_ascii a in
  if Nat.leb 48 n && Nat.leb n 57 then Some (Z.of_nat n - 48) else None.

Fixpoint skip_spaces (s : string) : nat * string :=
  match s with
  | String a rest =>
      if isspace a then let '(n, s') := skip_spaces rest in (S n, s') else (O, s)
  | EmptyString => (O, s)
  end.

(** The digits at the head of [s]: their value after [acc] and how
    many there are. *)
Fixpoint digits (acc : Z) (s : string) : Z * nat :=
  match s with
  | String a rest =>
      match digit a with
      | Some d => let '(v, n) := digits (acc * 10 + d) rest in (v, S n)
      | None => (acc, O)
      end
  | EmptyString => (acc, O)
  end.

Definition LONG_MAX : Z := 2 ^ 63 - 1.
Definition LONG_MIN : Z := - 2 ^ 63.

(** [strtol(s, &str_end, 10)] with a 64-bit [long]: the value and
    the offset of [str_end] from [s].  White space is skipped, one
    sign is accepted, the result saturates; without a digit nothing
    is consumed. *)
Definition strtol (s : string) : Z * nat :=
  let '(nsp, s1) := skip_spaces s in
  let '(negative, nsign, s2) :=
    match s1 with
    | String "-"%char rest => (true, 1%nat, rest)
    | String "+"%char rest => (false, 1%nat, rest)
    | _ => (false, O, s1)
    end in
  let '(v, nd) := digits 0 s2 in
  match nd with
  | O => (0, O)
  | S _ =>
      let value := if negative then Z.max LONG_MIN (- v) else Z.min LONG_MAX v in
      (value, (nsp + nsign + nd)%nat)
  end.

(** [getImageSize]: width and height as stored in the two [uint32_t]
    outputs, [None] when the function returns [false]. *)
Definition getImageSize (url : string) : option (Z * Z) :=
  match find "."%char 0 url with
  | None => None
  | Some begin =>
      match find "x"%char begin url with
      | None => None
      | Some end_ =>
          let '(w, used) := strtol (drop_chars (begin + 1) url) in
          if negb (Nat.eqb (begin + 1 + used) end_) then None
          else
            let begin2 := end_ in
            match find "."%char begin2 url with
            | None => None
            | Some end2 =>
                let '(h, used2) := strtol (drop_chars (begin2 + 1) url) in
                if negb (Nat.eqb (begin2 + 1 + used2) end2) then None
                else Some (wrap32 w, wrap32 h)
            end
      end
  end.

(** The files [loadImage] may open: the bytes of the file at a path,
    [None] when it cannot be opened. *)
Definition FileSystem : Type := string -> option (list Byte.byte).

(** [uint32_t size = in.tellg()] after seeking to the end; [tellg]
    answers -1 on a stream that failed to open. *)
Definition tell_size (fs : FileSystem) (url : string) : Z :=
  match fs url with
  | None => wrap32 (-1)
  | Some bytes => wrap32 (Z.of_nat (length bytes))
  end.

(** [height] rows of [width] bytes, the first of them [offset] bytes
    into [image] and each [stride] bytes after the one before; [None]
    when a row reaches beyond the end of [image]. *)
Fixpoint read_plane (image : list Byte.byte) (offset stride width height : nat)
    : option (list Byte.byte) :=
  match height with
  | O => Some []
  | S height' =>
      if (offset + width <=? length image)%nat then
        rows ← read_plane image (offset + stride) stride width height';
        Some (take width (drop offset image) ++ rows)
      else None
  end.

(** A [uint32_t] passed where an [int] is taken. *)
Definition to_int (z : Z) : Z := if z <? 2 ^ 31 then z else z - 2 ^ 32.

(** Modelled from the library: [I420Buffer::Copy(width, height,
    data_y, stride_y, data_u, stride_u, data_v, stride_v)] of webrtc
    takes [int]s and needs a positive width and height.  It returns a
    buffer of [width] by [height] whose Y plane is [height] rows of
    [width] bytes read from [data_y], and whose U and V planes are
    [(height + 1) / 2] rows of [(width + 1) / 2] bytes read from
    [data_u] and [data_v], the rows of a plane one stride apart.  The
    three pointers are given as offsets into the one array [image];
    reading a row that is not wholly inside the array is undefined. *)
Definition Copy (image : list Byte.byte) (width height : Z)
    (data_y stride_y data_u stride_u data_v stride_v : Z) : outcome I420Buffer :=
  if (width <=? 0) || (height <=? 0) then Undefined
  else
    match read_plane image (Z.to_nat data_y) (Z.to_nat stride_y)
                     (Z.to_nat width) (Z.to_nat height),
          read_plane image (Z.to_nat data_u) (Z.to_nat stride_u)
                     (Z.to_nat ((width + 1) / 2)) (Z.to_nat ((height + 1) / 2)),
          read_plane image (Z.to_nat data_v) (Z.to_nat stride_v)
                     (Z.to_nat ((width + 1) / 2)) (Z.to_nat ((height + 1) / 2)) with
    | Some y, Some u, Some v => Returns (mkI420Buffer width height (y ++ u ++ v))
    | _, _, _ => Undefined
    end.

(** [loadImage]: [Returns None] is the null pointer.  [image] is the
    array of [size] bytes read from the file. *)
Definition loadImage (fs : FileSystem) (url : string) : outcome (option VideoFrame) :=
  match getImageSize url with
  | None => Returns None
  | Some (width, height) =>
      let size := tell_size fs url in
      if (size <=? 0) || negb (wrap32 (width * height * 3 + 1) / 2 =? size) then Returns None
      else
        let image := take (Z.to_nat size) (default [] (fs url)) in
        i420Buffer ← Copy image (to_int width) (to_int height)
                          0 (to_int width)
                          (wrap32 (width * height)) (to_int (width / 2))
                          (wrap32 (width * height * 5) / 4) (to_int (width / 2));
        Returns (Some (mkVideoFrame i420Buffer))
  end.

(** [m_inputs]: index to url; [m_frames]: url to the frame loaded for
    it, where a stored null pointer is [Some None]. *)
Record t : Type := mk {
  m_inputs : gmap nat string;
  m_frames : gmap string (option VideoFrame)
}.

Definition create : t := {| m_inputs := ∅; m_frames := ∅ |}.

(** The loop [for (auto& it2 : m_inputs) if (url == it2.second)]. *)
Definition referenced (url : string) (inputs : gmap nat string) : bool :=
  existsb (fun it2 => String.eqb url (snd it2)) (map_to_list inputs).

Definition setAvatar (index : nat) (url : string) (s : t) : bool * t :=
  match m_inputs s !! index with
  | None => (true, {| m_inputs := <[index := url]> (m_inputs s); m_frames := m_frames s |})
  | Some old_url =>
      if String.eqb old_url url then (true, s)
      else
        let inputs := <[index := url]> (m_inputs s) in
        if referenced old_url inputs
        then (true, {| m_inputs := inputs; m_frames := m_frames s |})
        else (true, {| m_inputs := inputs; m_frames := delete old_url (m_frames s) |})
  end.

Definition unsetAvatar (index : nat) (s : t) : bool * t :=
  match m_inputs s !! index with
  | None => (true, s)
  | Some url =>
      let inputs := delete index (m_inputs s) in
      if referenced url inputs
      then (true, {| m_inputs := inputs; m_frames := m_frames s |})
      else (true, {| m_inputs := inputs; m_frames := delete url (m_frames s) |})
  end.

Definition getAvatarFrame (fs : FileSystem) (index : nat) (s : t)
    : outcome (option VideoFrame * t) :=
  match m_inputs s !! index with
  | None => Returns (None, s)
  | Some url =>
      match m_frames s !! url with
      | Some cached => Returns (cached, s)
      | None =>
          frame ← loadImage fs url;
          Returns (frame, {| m_inputs := m_inputs s; m_frames := <[url := frame]> (m_frames s) |})
      end
  end.

(** *** Sequences of calls on the avatar manager *)

Inductive call : Type :=
| SetAvatar (index : nat) (url : string)
| UnsetAvatar (index : nat)
| GetAvatarFrame (fs : FileSystem) (index : nat).

(** The manager after one call; each call of [getAvatarFrame] comes
    with the files as they are when it is made. *)
Definition step (c : call) (s : t) : outcome t :=
  match c with
  | SetAvatar index url => Returns (setAvatar index url s).2
  | UnsetAvatar index => Returns (unsetAvatar index s).2
  | GetAvatarFrame fs index => '(_, s') ← getAvatarFrame fs index s; Returns s'
  end.

Fixpoint steps (calls : list call) (s : t) : outcome t :=
  match calls with
  | [] => Returns s
  | c :: rest => s' ← step c s; steps rest s'
  end.

(** Some index is bound to [url]. *)
Definition bound (url : string) (s : t) : Prop :=
  exists index, m_inputs s !! index = Some url.

(** [url] is bound after each of the calls, as far as they return. *)
Fixpoint stays_bound (url : string) (calls : list call) (s : t) : Prop :=
  match calls with
  | [] => True
  | c :: rest =>
      match step c s with
      | Returns s' => bound url s' /\ stays_bound url rest s'
      | _ => True
      end
  end.

End AvatarManager.

(* ================================================================== *)
(** ** SoftVideoCompositor: the hooks of the generator *)

Module SoftVideoCompositor.

Record t : Type := mk {
  m_inputs : list SoftInput.t;
  m_avatarManager : AvatarManager.t
}.

Definition create (maxInput : nat) : t :=
  {| m_inputs := replicate maxInput SoftInput.create;
     m_avatarManager := AvatarManager.create |}.

(** [m_inputs[index]]; out of range is undefined. *)
Definition getInput (index : nat) (c : t) : outcome SoftInput.t :=
  match m_inputs c !! index with
  | Some input => Returns input
  | None => Undefined
  end.

Definition set_input (index : nat) (input : SoftInput.t) (c : t) : t :=
  {| m_inputs := <[index := input]> (m_inputs c);
     m_avatarManager := m_avatarManager c |}.

Definition set_avatars (a : AvatarManager.t) (c : t) : t :=
  {| m_inputs := m_inputs c; m_avatarManager := a |}.

(** The avatar manager takes its index as [uint8_t]. *)
Definition to_uint8 (index : nat) : nat := (index mod 256)%nat.

Definition activateInput (input : nat) (c : t) : outcome t :=
  i ← getInput input c; Returns (set_input input (SoftInput.setActive true i) c).

Definition deActivateInput (input : nat) (c : t) : outcome t :=
  i ← getInput input c; Returns (set_input input (SoftInput.setActive false i) c).

Definition setAvatar (input : nat) (avatar : string) (c : t) : bool * t :=
  let '(r, a) := AvatarManager.setAvatar (to_uint8 input) avatar (m_avatarManager c) in
  (r, set_avatars a c).

Definition unsetAvatar (input : nat) (c : t) : bool * t :=
  let '(r, a) := AvatarManager.unsetAvatar (to_uint8 input) (m_avatarManager c) in
  (r, set_avatars a c).

Definition pushInput (NDEBUG : bool) (kMaxQueueSize : nat)
    (env : SoftInput.Collaborators) (input : nat) (frame : Frame.t) (c : t) : outcome t :=
  i ← getInput input c;
  i' ← SoftInput.pushInput NDEBUG kMaxQueueSize env frame i;
  Returns (set_input input i' c).

Definition avatar_frame (fs : AvatarManager.FileSystem) (index : nat) (c : t)
    : outcome (option VideoFrame * t) :=
  '(src, a) ← AvatarManager.getAvatarFrame fs (to_uint8 index) (m_avatarManager c);
  Returns (src, set_avatars a c).

Definition getInputFrame (fs : AvatarManager.FileSystem) (index : nat) (c : t)
    : outcome (option VideoFrame * t) :=
  input ← getInput index c;
  if SoftInput.isActive input then
    let '(src, input') := SoftInput.popInput input in
    Returns (src, set_input index input' c)
  else avatar_frame fs index c.

Definition getSyncInputFrame (fs : AvatarManager.FileSystem) (index : nat)
    (sync_timeStamp : Z) (c : t) : outcome (option VideoFrame * t) :=
  input ← getInput index c;
  if negb (SoftInput.isActive input) then avatar_frame fs index c
  else if negb (SoftInput.isSyncEnabled input) then
    let '(src, input') := SoftInput.popInput input in
    Returns (src, set_input index input' c)
  else
    let '(input_frame, input') := SoftInput.get_sync_frame sync_timeStamp input in
    Returns (mkVideoFrame ∘ SoftInput.buffer <$> input_frame, set_input index input' c).

End SoftVideoCompositor.

(* ================================================================== *)
(** ** SoftFrameGenerator *)

Module SoftFrameGenerator.

(** Layout data.  The rectangle of a region decides where its frame
    is painted; which frame is painted does not depend on it. *)
Record Rational : Type := mkRational { numerator : Z; denominator : Z }.
Record Rect : Type := mkRect { left : Rational; top : Rational; width : Rational; height : Rational }.
Record Region : Type := mkRegion { rect : Rect }.
Record LayoutEntry : Type := mkLayoutEntry { input : nat; region : Region }.

Record Output_t : Type := mkOutput {
  out_width : Z;
  out_height : Z;
  fps : Z;
  dest : nat
}.

Record t : Type := mk {
  m_maxSupportedFps : Z;
  m_minSupportedFps : Z;
  m_counter : Z;
  m_counterMax : Z;
  m_outputs : list (list Output_t)
}.

(** The loop of the constructor, entered with [fps = minFps]:
    [while (fps <= max) { if (fps == max) break; fps *= 2; }]. *)
Fixpoint quantize (fuel : nat) (fps maxFps : Z) : outcome Z :=
  match fuel with
  | O => OutOfFuel
  | S fuel' =>
      if fps <=? maxFps then
        if fps =? maxFps then Returns fps
        else quantize fuel' (wrap32 (fps * 2)) maxFps
      else Returns fps
  end.

(** [SoftFrameGenerator::SoftFrameGenerator], the fps members. *)
Definition create (fuel : nat) (maxFps minFps : Z) : outcome t :=
  fps ← quantize fuel minFps maxFps;
  let maxSupported := if fps >? maxFps then minFps else maxFps in
  if minFps =? 0 then Undefined
  else
    Returns {| m_maxSupportedFps := maxSupported;
               m_minSupportedFps := minFps;
               m_counter := 0;
               m_counterMax := maxSupported / minFps;
               m_outputs := replicate (Z.to_nat (maxSupported / minFps)) [] |}.

(** The loop of [isSupported], entered with [n = m_minSupportedFps]. *)
Fixpoint doubling (fuel : nat) (n fps maxFps : Z) : outcome bool :=
  match fuel with
  | O => OutOfFuel
  | S fuel' =>
      if n <=? maxFps then
        if n =? fps then Returns true
        else doubling fuel' (wrap32 (n * 2)) fps maxFps
      else Returns false
  end.

Definition isSupported (fuel : nat) (width height fps : Z) (g : t) : outcome bool :=
  if (fps >? m_maxSupportedFps g) || (fps <? m_minSupportedFps g) then Returns false
  else doubling fuel (m_minSupportedFps g) fps (m_maxSupportedFps g).

Definition set_outputs (outputs : list (list Output_t)) (g : t) : t :=
  {| m_maxSupportedFps := m_maxSupportedFps g;
     m_minSupportedFps := m_minSupportedFps g;
     m_counter := m_counter g;
     m_counterMax := m_counterMax g;
     m_outputs := outputs |}.

(** [int index = m_maxSupportedFps / fps - 1]. *)
Definition bucket_index (g : t) (fps : Z) : Z := m_maxSupportedFps g / fps - 1.

Definition addOutput (NDEBUG : bool) (fuel : nat) (width height fps : Z) (dst : nat) (g : t)
    : outcome (bool * t) :=
  _ ← (if NDEBUG then Returns tt
        else ok ← isSupported fuel width height fps g; c_assert NDEBUG ok);
  if fps =? 0 then Undefined
  else
    let index := bucket_index g fps in
    if (index <? 0) || (Z.of_nat (length (m_outputs g)) <=? index) then Undefined
    else
      let output := {| out_width := width; out_height := height; fps := fps; dest := dst |} in
      Returns (true, set_outputs (alter (fun bucket => bucket ++ [output])
                                        (Z.to_nat index) (m_outputs g)) g).

(** [std::list::erase] of the first output with this destination. *)
Fixpoint erase_dest (dst : nat) (bucket : list Output_t) : option (list Output_t) :=
  match bucket with
  | [] => None
  | o :: rest =>
      if Nat.eqb (dest o) dst then Some rest
      else cons o <$> erase_dest dst rest
  end.

Fixpoint remove_first (dst : nat) (outputs : list (list Output_t))
    : option (list (list Output_t)) :=
  match outputs with
  | [] => None
  | bucket :: rest =>
      match erase_dest dst bucket with
      | Some bucket' => Some (bucket' :: rest)
      | None => cons bucket <$> remove_first dst rest
      end
  end.

Definition removeOutput (dst : nat) (g : t) : bool * t :=
  match remove_first dst (m_outputs g) with
  | Some outputs => (true, set_outputs outputs g)
  | None => (false, g)
  end.

(** Bucket [i] is due when [m_counter % (i + 1)] is zero. *)
Definition due (counter : Z) (i : nat) : bool := counter mod (Z.of_nat i + 1) =? 0.

Definition hasValidOutput (g : t) : bool :=
  existsb id (imap (fun i bucket => due (m_counter g) i && Nat.ltb 0 (length bucket))
                   (m_outputs g)).

(** The calls [it->dest->onFrame(frame)] of one tick, in order. *)
Definition deliveries (g : t) (frame : VideoFrame) : list (Output_t * VideoFrame) :=
  concat (imap (fun i bucket =>
                  if due (m_counter g) i then (fun o => (o, frame)) <$> bucket else [])
               (m_outputs g)).

Definition tick_counter (g : t) : outcome t :=
  if m_counterMax g =? 0 then Undefined
  else
    Returns {| m_maxSupportedFps := m_maxSupportedFps g;
               m_minSupportedFps := m_minSupportedFps g;
               m_counter := wrap32 (m_counter g + 1) mod m_counterMax g;
               m_counterMax := m_counterMax g;
               m_outputs := m_outputs g |}.

(** [onTimeout].  [generateFrame] is what composing the canvas gives
    on this tick ([None]: no composite buffer); it is asked for only
    when some due bucket has an output. *)
Definition onTimeout (generateFrame : option VideoFrame) (g : t)
    : outcome (list (Output_t * VideoFrame) * t) :=
  let delivered :=
    if hasValidOutput g then
      match generateFrame with
      | Some compositeFrame => deliveries g compositeFrame
      | None => []
      end
    else [] in
  g' ← tick_counter g;
  Returns (delivered, g').

(** A run of ticks; the list gives the composite of each tick. *)
Fixpoint run (frames : list (option VideoFrame)) (g : t)
    : outcome (list (list (Output_t * VideoFrame)) * t) :=
  match frames with
  | [] => Returns ([], g)
  | frame :: rest =>
      '(delivered, g') ← onTimeout frame g;
      '(later, g'') ← run rest g';
      Returns (delivered :: later, g'')
  end.

(** *** Where a frame is painted *)

(** The rectangles [layout_regions] hands to the scaler: the part of
    the input frame that is taken and the part of the canvas it is
    scaled into.  All of it is [uint32_t] arithmetic.  The numerator
    and the denominator of a [Rational] are taken as unsigned 32-bit
    values, and the width and height of a buffer as the unsigned
    values the arithmetic converts them to. *)
Module Placement.

Definition wrap64 (z : Z) : Z := z mod 2 ^ 64.

(** [(uint64_t)extent * r.numerator / r.denominator], stored in a
    [uint32_t]. *)
Definition scaled (extent : Z) (r : Rational) : outcome Z :=
  if denominator r =? 0 then Undefined
  else Returns (wrap32 (wrap64 (extent * numerator r)
                        / denominator r)).

(** Unsigned division. *)
Definition udiv (a b : Z) : outcome Z := if b =? 0 then Undefined else Returns (a / b).

(** [x &= ~1]. *)
Definition even_down (x : Z) : Z := Z.land x (wrap32 (Z.lnot 1)).

(** The rectangle of the region in pixels of the canvas, clipped at
    the right and at the bottom: [(dst_x, dst_y, dst_width, dst_height)]. *)
Definition clipped (composite_width composite_height : Z) (region : Region)
    : outcome (Z * Z * Z * Z) :=
  let rect := rect region in
  dst_x ← scaled composite_width (left rect);
  dst_y ← scaled composite_height (top rect);
  dst_width ← scaled composite_width (width rect);
  dst_height ← scaled composite_height (height rect);
  Returns (dst_x, dst_y,
           if wrap32 (dst_x + dst_width) >? composite_width
           then wrap32 (composite_width - dst_x) else dst_width,
           if wrap32 (dst_y + dst_height) >? composite_height
           then wrap32 (composite_height - dst_y) else dst_height).

(** The arguments of [I420Scale]. *)
Record t : Type := mk {
  src_x : Z;
  src_y : Z;
  src_width : Z;
  src_height : Z;
  dst_x : Z;
  dst_y : Z;
  cropped_dst_width : Z;
  cropped_dst_height : Z
}.

Definition geometry (m_crop : bool) (composite_width composite_height : Z)
    (region : Region) (input_width input_height : Z) : outcome t :=
  '(dst_x, dst_y, dst_width, dst_height) ← clipped composite_width composite_height region;
  '(src_x, src_y, src_width, src_height, cropped_dst_width, cropped_dst_height) ←
    (if m_crop then
       across ← udiv (wrap32 (dst_width * input_height)) dst_height;
       down ← udiv (wrap32 (dst_height * input_width)) dst_width;
       let src_width := Z.min input_width across in
       let src_height := Z.min input_height down in
       Returns (wrap32 (input_width - src_width) / 2, wrap32 (input_height - src_height) / 2,
                src_width, src_height, dst_width, dst_height)
     else
       across ← udiv (wrap32 (input_width * dst_height)) input_height;
       down ← udiv (wrap32 (input_height * dst_width)) input_width;
       Returns (0, 0, input_width, input_height, Z.min dst_width across, Z.min dst_height down));
  let dst_x := wrap32 (dst_x + wrap32 (dst_width - cropped_dst_width) / 2) in
  let dst_y := wrap32 (dst_y + wrap32 (dst_height - cropped_dst_height) / 2) in
  Returns {| src_x := even_down src_x;
             src_y := even_down src_y;
             src_width := even_down src_width;
             src_height := even_down src_height;
             dst_x := even_down dst_x;
             dst_y := even_down dst_y;
             cropped_dst_width := even_down cropped_dst_width;
             cropped_dst_height := even_down cropped_dst_height |}.

(** A fraction between zero and one. *)
Definition proper (r : Rational) : Prop :=
  0 <= numerator r <= denominator r /\
  0 < denominator r < 2 ^ 32.

(** A region given by four such fractions. *)
Definition fractions (region : Region) : Prop :=
  proper (left (rect region)) /\
  proper (top (rect region)) /\
  proper (width (rect region)) /\
  proper (height (rect region)).

(** The right half of the canvas. *)
Definition right_half : Region :=
  mkRegion
    (mkRect (mkRational 1 2)
                               (mkRational 0 1)
                               (mkRational 1 2)
                               (mkRational 1 1)).

End Placement.

(** *** Composition: choosing a frame for every region *)

(** One round of the first loop of [layout_regions] on the input of
    the region: the pair is (min_sync_timeStamp, max_sync_timeStamp). *)
Definition observe (range : Z * Z) (input : SoftInput.t) : Z * Z :=
  if negb (SoftInput.isSyncEnabled input) then range
  else
    match SoftInput.front input, SoftInput.back input with
    | Some front_frame, Some back_frame =>
        let '(min_sync_timeStamp, max_sync_timeStamp) := range in
        (if (min_sync_timeStamp =? -1)
            || (min_sync_timeStamp <? SoftInput.sync_timeStamp front_frame)
         then SoftInput.sync_timeStamp front_frame else min_sync_timeStamp,
         if (max_sync_timeStamp =? -1)
            || (max_sync_timeStamp >? SoftInput.sync_timeStamp back_frame)
         then SoftInput.sync_timeStamp back_frame else max_sync_timeStamp)
    | _, _ => range
    end.

Fixpoint sync_range (regions : list LayoutEntry) (range : Z * Z)
    (c : SoftVideoCompositor.t) : outcome (Z * Z) :=
  match regions with
  | [] => Returns range
  | it :: rest =>
      i ← SoftVideoCompositor.getInput (input it) c;
      sync_range rest (observe range i) c
  end.

(** The frame of one region in the second loop. *)
Definition inputFrame (fs : AvatarManager.FileSystem) (range : Z * Z) (index : nat)
    (c : SoftVideoCompositor.t) : outcome (option VideoFrame * SoftVideoCompositor.t) :=
  let '(min_sync_timeStamp, max_sync_timeStamp) := range in
  if max_sync_timeStamp =? -1 then
    SoftVideoCompositor.getInputFrame fs index c
  else if min_sync_timeStamp >? max_sync_timeStamp then
    SoftVideoCompositor.getSyncInputFrame fs index (-1) c
  else
    SoftVideoCompositor.getSyncInputFrame fs index max_sync_timeStamp c.

(** What the second loop hands to [I420Scale] for a region: the frame
    of its input and the rectangles. *)
Record Painted : Type := mkPainted {
  picture : VideoFrame;
  rectangles : Placement.t
}.

(** Lines 587 to 635 for one region: nothing for a null frame, else
    the rectangles computed from the size of the canvas and of the
    buffer of the frame. *)
Definition paint (m_crop : bool) (composite_width composite_height : Z) (it : LayoutEntry)
    (inputFrame : option VideoFrame) : outcome (option Painted) :=
  match inputFrame with
  | None => Returns None
  | Some frame =>
      let inputBuffer := video_frame_buffer frame in
      r ← Placement.geometry m_crop composite_width composite_height (region it)
                             (wrap32 (buf_width inputBuffer)) (wrap32 (buf_height inputBuffer));
      Returns (Some (mkPainted frame r))
  end.

(** The second loop: [fetch] is asked for the frame of each region in
    turn, every call seeing the compositor the previous one left, and
    the frame is painted before the next region is turned to. *)
Fixpoint place (m_crop : bool) (composite_width composite_height : Z)
    (fetch : nat -> SoftVideoCompositor.t -> outcome (option VideoFrame * SoftVideoCompositor.t))
    (regions : list LayoutEntry) (c : SoftVideoCompositor.t)
    : outcome (list (option Painted) * SoftVideoCompositor.t) :=
  match regions with
  | [] => Returns ([], c)
  | it :: rest =>
      '(inputFrame, c') ← fetch (input it) c;
      painted ← paint m_crop composite_width composite_height it inputFrame;
      '(frames, c'') ← place m_crop composite_width composite_height fetch rest c';
      Returns (painted :: frames, c'')
  end.

(** [layout_regions]: what is handed to [I420Scale] for each region,
    in layout order ([None]: the region is skipped), and the compositor
    after the pass.  What [I420Scale] writes into the canvas is not
    modelled. *)
Definition layout_regions (m_crop : bool) (fs : AvatarManager.FileSystem)
    (compositeBuffer : I420Buffer) (regions : list LayoutEntry) (c : SoftVideoCompositor.t)
    : outcome (list (option Painted) * SoftVideoCompositor.t) :=
  let composite_width := wrap32 (buf_width compositeBuffer) in
  let composite_height := wrap32 (buf_height compositeBuffer) in
  range ← sync_range regions (-1, -1) c;
  place m_crop composite_width composite_height (inputFrame fs range) regions c.

(** The frames of a pass, without the rectangles. *)
Definition pictures (frames : list (option Painted)) : list (option VideoFrame) :=
  fmap (M := list) (fmap (M := option) picture) frames.

End SoftFrameGenerator.

Module Placement := SoftFrameGenerator.Placement.

(* ================================================================== *)
(** ** The sync target as the specification words it *)

Module SyncTarget.

(** "For each region whose input has [isSyncEnabled()] and non-empty
    queue": the sync timestamps of the front and of the back of the
    queue of such a region. *)
Definition observed (c : SoftVideoCompositor.t) (it : SoftFrameGenerator.LayoutEntry)
    : option (Z * Z) :=
  match SoftVideoCompositor.m_inputs c !! SoftFrameGenerator.input it with
  | Some i =>
      if SoftInput.isSyncEnabled i then
        match SoftInput.m_frame_queue i with
        | [] => None
        | f :: rest =>
            Some (SoftInput.sync_timeStamp f, SoftInput.sync_timeStamp (List.last rest f))
        end
      else None
  | None => None
  end.

Definition observations (c : SoftVideoCompositor.t)
    (regions : list SoftFrameGenerator.LayoutEntry) : list (Z * Z) :=
  omap (observed c) regions.

(** "[min_sync := max(min_sync, front.sync_timeStamp)] ... treating
    the sentinel -1 as unset": an accumulator that is -1 takes the
    observed value. *)
Definition unset_or (pick : Z -> Z -> Z) (acc x : Z) : Z :=
  if acc =? -1 then x else pick acc x.

Definition min_sync (c : SoftVideoCompositor.t)
    (regions : list SoftFrameGenerator.LayoutEntry) : Z :=
  foldl (unset_or Z.max) (-1) (fst <$> observations c regions).

Definition max_sync (c : SoftVideoCompositor.t)
    (regions : list SoftFrameGenerator.LayoutEntry) : Z :=
  foldl (unset_or Z.min) (-1) (snd <$> observations c regions).

(** The greatest and the least element of a list; -1 for none. *)
Definition greatest (l : list Z) : Z :=
  match l with [] => -1 | x :: rest => foldl Z.max x rest end.

Definition least (l : list Z) : Z :=
  match l with [] => -1 | x :: rest => foldl Z.min x rest end.

(** The three modes of a pass and the hook each one uses. *)
Inductive mode : Type := Unsynced | Hold | Sync (target : Z).

Definition mode_of (min_sync max_sync : Z) : mode :=
  if max_sync =? -1 then Unsynced
  else if min_sync >? max_sync then Hold
  else Sync max_sync.

Definition hook (fs : AvatarManager.FileSystem) (m : mode) (index : nat)
    (c : SoftVideoCompositor.t) : outcome (option VideoFrame * SoftVideoCompositor.t) :=
  match m with
  | Unsynced => SoftVideoCompositor.getInputFrame fs index c
  | Hold => SoftVideoCompositor.getSyncInputFrame fs index (-1) c
  | Sync target => SoftVideoCompositor.getSyncInputFrame fs index target c
  end.

(** A sync-capable input: active, sync enabled, a frame queued. *)
Definition capable (i : SoftInput.t) : Prop :=
  SoftInput.m_active i = true /\
  SoftInput.isSyncEnabled i = true /\
  SoftInput.m_frame_queue i <> [].

(** [later i0 i]: input [i] is a later state of the sync-capable
    input [i0] within a pass; its queue is what is left of the old. *)
Definition later (i0 i : SoftInput.t) : Prop :=
  capable i /\ SoftInput.m_frame_queue i `suffix_of` SoftInput.m_frame_queue i0.

(** Every region names an input of the compositor. *)
Definition in_range (c : SoftVideoCompositor.t)
    (regions : list SoftFrameGenerator.LayoutEntry) : Prop :=
  Forall (fun it => (SoftFrameGenerator.input it < length (SoftVideoCompositor.m_inputs c))%nat)
         regions.

End SyncTarget.

(* ================================================================== *)
(** ** The frame-rate band as the specification words it *)

Module FpsBand.

(** "[maxFps / minFps] be a power of two", read exactly. *)
Definition exact_power_of_two (maxFps minFps : Z) : Prop :=
  exists k : nat, maxFps = minFps * 2 ^ Z.of_nat k.

(** The set [{minFps * 2^k : 0 <= k, minFps * 2^k <= maxFps}]. *)
Definition member (maxFps minFps fps : Z) : Prop :=
  exists k : nat, fps = minFps * 2 ^ Z.of_nat k /\ fps <= maxFps.

(** A generator as the constructor leaves it for such a band, with
    every output in the bucket of its rate. *)
Record valid (g : SoftFrameGenerator.t) : Prop := mkValid {
  valid_min : 0 < SoftFrameGenerator.m_minSupportedFps g;
  valid_max : SoftFrameGenerator.m_maxSupportedFps g < 2 ^ 31;
  valid_band : exact_power_of_two (SoftFrameGenerator.m_maxSupportedFps g)
                                  (SoftFrameGenerator.m_minSupportedFps g);
  valid_counterMax :
    SoftFrameGenerator.m_counterMax g
    = SoftFrameGenerator.m_maxSupportedFps g / SoftFrameGenerator.m_minSupportedFps g;
  valid_counter :
    0 <= SoftFrameGenerator.m_counter g < SoftFrameGenerator.m_counterMax g;
  valid_size :
    length (SoftFrameGenerator.m_outputs g) = Z.to_nat (SoftFrameGenerator.m_counterMax g);
  valid_buckets :
    forall (i : nat) bucket o,
      SoftFrameGenerator.m_outputs g !! i = Some bucket -> o ∈ bucket ->
      member (SoftFrameGenerator.m_maxSupportedFps g)
             (SoftFrameGenerator.m_minSupportedFps g) (SoftFrameGenerator.fps o) /\
      Z.of_nat i = SoftFrameGenerator.bucket_index g (SoftFrameGenerator.fps o)
}.

(** The outputs served on each tick of a run. *)
Definition served (log : list (list (SoftFrameGenerator.Output_t * VideoFrame))) (t : nat)
    (o : SoftFrameGenerator.Output_t) : Prop :=
  exists delivered, log !! t = Some delivered /\ o ∈ delivered.*1.

End FpsBand.

(* ================================================================== *)
(** ** Scenario S3: two inputs with sync enabled *)

Module S3.

(** A 2x2 picture for each sync timestamp, told apart by its luma. *)
Definition luma (sync : Z) : Byte.byte :=
  default Byte.x00 (Byte.of_N (Z.to_N (sync / 2))).

Definition image (sync : Z) : I420Buffer :=
  mkI420Buffer 2 2 (replicate 4 (luma sync) ++ [Byte.x80; Byte.x80]).

Definition frame_at (sync : Z) : SoftInput.SoftInputFrame :=
  SoftInput.mkSoftInputFrame (image sync) sync true sync.

(** The frame a decoder pushes for that picture. *)
Definition pushed (format : FrameFormat) (sync : Z) : Frame.t :=
  Frame.mk format (mkVideoFrame (image sync)) sync true sync.

Definition pool_ok (sync : Z) : SoftInput.Collaborators :=
  SoftInput.mkCollaborators (Some (image sync)) true.

Definition pool_empty : SoftInput.Collaborators :=
  SoftInput.mkCollaborators None true.

Definition copy_fails (sync : Z) : SoftInput.Collaborators :=
  SoftInput.mkCollaborators (Some (image sync)) false.

Definition input_with (stamps : list Z) : SoftInput.t :=
  SoftInput.mk true true true (frame_at <$> stamps).

Definition compositor : SoftVideoCompositor.t :=
  SoftVideoCompositor.mk
    [input_with [100; 200; 300; 400]; input_with [250; 350; 450]]
    AvatarManager.create.

Definition full : SoftFrameGenerator.Region :=
  let r n := SoftFrameGenerator.mkRational n 1 in
  SoftFrameGenerator.mkRegion (SoftFrameGenerator.mkRect (r 0) (r 0) (r 1) (r 1)).

Definition layout : list SoftFrameGenerator.LayoutEntry :=
  [SoftFrameGenerator.mkLayoutEntry 0 full; SoftFrameGenerator.mkLayoutEntry 1 full].

Definition no_files : AvatarManager.FileSystem := fun _ => None.

(** The buffer a pass paints into: 4 by 4. *)
Definition canvas : I420Buffer := mkI420Buffer 4 4 (replicate 24 Byte.x00).

(** A disk on which every path holds a 2x2 I420 picture of six bytes. *)
Definition pictures : AvatarManager.FileSystem :=
  fun _ => Some (replicate 6 Byte.x80).

(** The sync timestamps left in each queue. *)
Definition stamps (c : SoftVideoCompositor.t) : list (list Z) :=
  (fun i => SoftInput.sync_timeStamp <$> SoftInput.m_frame_queue i)
    <$> SoftVideoCompositor.m_inputs c.

End S3.

(* ================================================================== *)
(** ** Scenario: a sync timestamp that is the sentinel *)

Module Sentinel.

(** Input 0 holds one frame whose sync timestamp is -1, input 1 holds
    the frames stamped 5 and 10. *)
Definition compositor : SoftVideoCompositor.t :=
  SoftVideoCompositor.mk [S3.input_with [-1]; S3.input_with [5; 10]] AvatarManager.create.

End Sentinel.

(* ================================================================== *)
(** ** Scenario: an avatar whose file is missing at first *)

Module Avatars.

Definition url : string := "face.2x2.i420".

(** Index 2 bound to the url, nothing loaded yet. *)
Definition bound_once : AvatarManager.t :=
  (AvatarManager.setAvatar 2 url AvatarManager.create).2.

(** After the first [getAvatarFrame], made while the file is missing. *)
Definition after_failure : AvatarManager.t :=
  AvatarManager.mk (<[2%nat := url]> ∅) (<[url := None]> ∅).

(** The url is set again for index 2, set for index 3, and index 2 is
    unbound; the file has appeared meanwhile. *)
Definition calls : list AvatarManager.call :=
  [AvatarManager.SetAvatar 2 url;
   AvatarManager.GetAvatarFrame S3.pictures 2;
   AvatarManager.SetAvatar 3 url;
   AvatarManager.UnsetAvatar 2].

(** Index 2 is unbound and bound to the url again. *)
Definition rebinding : list AvatarManager.call :=
  [AvatarManager.UnsetAvatar 2; AvatarManager.SetAvatar 2 url].

(** A picture three wide and one high, of five bytes. *)
Definition odd_url : string := "face.3x1.i420".

Definition odd_files : AvatarManager.FileSystem :=
  fun _ => Some [Byte.x01; Byte.x02; Byte.x03; Byte.x04; Byte.x05].

End Avatars.

(* ================================================================== *)
(** ** Scenario: the 60/15 generator with one output at 30 fps *)

Module Band60.

(** What [SoftFrameGenerator(…, 60, 15)] constructs. *)
Definition generator : SoftFrameGenerator.t :=
  SoftFrameGenerator.mk 60 15 0 4 [[]; []; []; []].

Definition output30 : SoftFrameGenerator.Output_t :=
  SoftFrameGenerator.mkOutput 640 480 30 7.

Definition canvas : VideoFrame := mkVideoFrame (S3.image 0).

(** Five ticks that all compose the canvas. *)
Definition steady : list (option VideoFrame) := replicate 5 (Some canvas).

(** Five ticks; on the third no composite buffer is to be had. *)
Definition ticks : list (option VideoFrame) :=
  [Some canvas; Some canvas; None; Some canvas; Some canvas].

End Band60.

(* ================================================================== *)
(** ** Runs of pushes and reads on one input *)

Module InputRuns.

(** Successive reads of one input by [popInput], one a tick. *)
Fixpoint pop_many (n : nat) (s : SoftInput.t) : list (option VideoFrame) * SoftInput.t :=
  match n with
  | O => ([], s)
  | S n' =>
      let '(frame, s1) := SoftInput.popInput s in
      let '(frames, s2) := pop_many n' s1 in
      (frame :: frames, s2)
  end.

(** A frame to push together with the pool buffer it is copied into. *)
Definition push_of (bf : I420Buffer * Frame.t) : SoftInput.call :=
  SoftInput.PushInput (SoftInput.mkCollaborators (Some bf.1) true) bf.2.

(** The queue entry such a push makes. *)
Definition queued (bf : I420Buffer * Frame.t) : SoftInput.SoftInputFrame :=
  SoftInput.mkSoftInputFrame bf.1 (Frame.timeStamp bf.2) (Frame.sync_enabled bf.2)
                             (Frame.sync_timeStamp bf.2).

(** What [popInput] hands out for a queue entry. *)
Definition shown (f : SoftInput.SoftInputFrame) : option VideoFrame :=
  Some (mkVideoFrame (SoftInput.buffer f)).


(** The sync timestamps of the pushed frames never go down, starting
    from [lo]. *)
Fixpoint rising (lo : Z) (calls : list SoftInput.call) : Prop :=
  match calls with
  | [] => True
  | SoftInput.PushInput _ frame :: rest =>
      lo <= Frame.sync_timeStamp frame /\ rising (Frame.sync_timeStamp frame) rest
  | _ :: rest => rising lo rest
  end.

(** The last sync timestamp pushed by the calls, [lo] if none. *)
Fixpoint last_pushed (lo : Z) (calls : list SoftInput.call) : Z :=
  match calls with
  | [] => lo
  | SoftInput.PushInput _ frame :: rest => last_pushed (Frame.sync_timeStamp frame) rest
  | _ :: rest => last_pushed lo rest
  end.

(** The queue is in ascending order of sync timestamp and holds
    nothing stamped above [hi]. *)
Definition ascending (hi : Z) (s : SoftInput.t) : Prop :=
  StronglySorted Z.le (SoftInput.sync_timeStamp <$> SoftInput.m_frame_queue s) /\
  Forall (fun f => SoftInput.sync_timeStamp f <= hi) (SoftInput.m_frame_queue s).

End InputRuns.

(* ================================================================== *)
(** ** Avatar urls and the state of the cache *)

Module AvatarUrls.

(** Every url that has an entry in [m_frames] is bound to some index. *)
Definition cached_are_bound (s : AvatarManager.t) : Prop :=
  forall url, is_Some (AvatarManager.m_frames s !! url) -> AvatarManager.bound url s.

(** The character of a decimal digit. *)
Definition digit_char (d : nat) : ascii := ascii_of_nat (48 + d).

(** A run of decimal digits in front of [rest]. *)
Fixpoint digits_string (ds : list nat) (rest : string) : string :=
  match ds with
  | [] => rest
  | d :: ds' => String (digit_char d) (digits_string ds' rest)
  end.

(** The number a run of decimal digits stands for, after [acc]. *)
Fixpoint digits_value (acc : Z) (ds : list nat) : Z :=
  match ds with
  | [] => acc
  | d :: ds' => digits_value (acc * 10 + Z.of_nat d) ds'
  end.

(** The url [<prefix>.<W>x<H>.<ext>]. *)
Definition avatar_url (prefix : string) (w h : list nat) (ext : string) : string :=
  String.append prefix
    (String "."%char (digits_string w (String "x"%char (digits_string h (String "."%char ext))))).

End AvatarUrls.

(* ================================================================== *)
(** ** What a composition pass leaves of an input *)

Module PassFacts.

(** [kept i i']: the input [i'] has the flags of [i]; its queue is
    what is left of the queue of [i] after frames were taken from the
    front, and is not empty unless that of [i] was. *)
Definition kept (i i' : SoftInput.t) : Prop :=
  SoftInput.m_active i' = SoftInput.m_active i /\
  SoftInput.m_sync_enabled i' = SoftInput.m_sync_enabled i /\
  SoftInput.m_frame_sync_enabled i' = SoftInput.m_frame_sync_enabled i /\
  SoftInput.m_frame_queue i' `suffix_of` SoftInput.m_frame_queue i /\
  (SoftInput.m_frame_queue i <> [] -> SoftInput.m_frame_queue i' <> []).

(** The index-to-url bindings of the avatar manager of a compositor. *)
Definition bindings (c : SoftVideoCompositor.t) : gmap nat string :=
  AvatarManager.m_inputs (SoftVideoCompositor.m_avatarManager c).

End PassFacts.

(* ================================================================== *)
(** ** The outputs of a generator over a run of ticks *)

Module Outputs.

#[global] Instance Output_eq_dec : EqDecision SoftFrameGenerator.Output_t.
Proof. solve_decision. Defined.

(** Some bucket holds an output with this destination. *)
Definition registered (dst : nat) (g : SoftFrameGenerator.t) : Prop :=
  exists bucket o,
    bucket ∈ SoftFrameGenerator.m_outputs g /\ o ∈ bucket /\ SoftFrameGenerator.dest o = dst.

(** The output [addOutput] makes. *)
Definition made (width height fps : Z) (dst : nat) : SoftFrameGenerator.Output_t :=
  SoftFrameGenerator.mkOutput width height fps dst.

(** The number of ticks of a run on which [o] was handed a frame. *)
Definition ticks_served (log : list (list (SoftFrameGenerator.Output_t * VideoFrame)))
    (o : SoftFrameGenerator.Output_t) : nat :=
  length (filter (fun delivered : list (SoftFrameGenerator.Output_t * VideoFrame) =>
                    o ∈ delivered.*1) log).

End Outputs.

(* ================================================================== *)
(** ** The generators of a compositor *)

(** [m_generators] of [SoftVideoCompositor] and the two methods that
    go through it. *)
Module Generators.

(** [SoftVideoCompositor::SoftVideoCompositor], the generators. *)
Definition create (fuel : nat) : outcome (list SoftFrameGenerator.t) :=
  g0 ← SoftFrameGenerator.create fuel 60 15;
  g1 ← SoftFrameGenerator.create fuel 48 6;
  Returns [g0; g1].

(** [SoftVideoCompositor::addOutput]: the first generator that
    supports the rate takes the output. *)
Fixpoint addOutput (NDEBUG : bool) (fuel : nat) (width height framerateFPS : Z) (dst : nat)
    (generators : list SoftFrameGenerator.t) : outcome (bool * list SoftFrameGenerator.t) :=
  match generators with
  | [] => Returns (false, [])
  | generator :: rest =>
      ok ← SoftFrameGenerator.isSupported fuel width height framerateFPS generator;
      if ok : bool then
        '(r, generator') ←
          SoftFrameGenerator.addOutput NDEBUG fuel width height framerateFPS dst generator;
        Returns (r, generator' :: rest)
      else
        '(r, rest') ← addOutput NDEBUG fuel width height framerateFPS dst rest;
        Returns (r, generator :: rest')
  end.

(** [SoftVideoCompositor::removeOutput]: the first generator that
    holds the destination gives it up. *)
Fixpoint removeOutput (dst : nat) (generators : list SoftFrameGenerator.t)
    : bool * list SoftFrameGenerator.t :=
  match generators with
  | [] => (false, [])
  | generator :: rest =>
      let '(r, generator') := SoftFrameGenerator.removeOutput dst generator in
      if r : bool then (true, generator' :: rest)
      else
        let '(r', rest') := removeOutput dst rest in
        (r', generator' :: rest')
  end.

End Generators.

(* ================================================================== *)
(** ** A generator with its layout, tick by tick *)

(** [SoftFrameGenerator] with the members the composition of a frame
    goes through: the layout in use, the layout handed in last, and
    the flag that says it is still to be taken. *)
Module Composer.

Record t : Type := mk {
  generator : SoftFrameGenerator.t;
  m_crop : bool;
  m_layout : list SoftFrameGenerator.LayoutEntry;
  m_newLayout : list SoftFrameGenerator.LayoutEntry;
  m_configureChanged : bool
}.

(** What a tick is given by what the generator does not own: the
    buffer the buffer manager hands out ([None]: it has no free
    buffer), the files of the avatars, and the frame that painting the
    background and scaling the frames of the regions into that buffer
    gives, stamped by the clock. *)
Record Collaborators : Type := mkCollaborators {
  free_buffer : option I420Buffer;
  files : AvatarManager.FileSystem;
  composite : I420Buffer -> list (option SoftFrameGenerator.Painted) -> VideoFrame
}.

Definition create (fuel : nat) (crop : bool) (maxFps minFps : Z) : outcome t :=
  g ← SoftFrameGenerator.create fuel maxFps minFps;
  Returns {| generator := g; m_crop := crop; m_layout := []; m_newLayout := [];
             m_configureChanged := false |}.

Definition set_generator (g : SoftFrameGenerator.t) (s : t) : t :=
  {| generator := g; m_crop := m_crop s; m_layout := m_layout s; m_newLayout := m_newLayout s;
     m_configureChanged := m_configureChanged s |}.

Definition updateLayoutSolution (solution : list SoftFrameGenerator.LayoutEntry) (s : t) : t :=
  {| generator := generator s; m_crop := m_crop s; m_layout := m_layout s;
     m_newLayout := solution; m_configureChanged := true |}.

Definition reconfigureIfNeeded (s : t) : t :=
  if negb (m_configureChanged s) then s
  else {| generator := generator s; m_crop := m_crop s; m_layout := m_newLayout s;
          m_newLayout := m_newLayout s; m_configureChanged := false |}.

(** [layout]; [m_parallelNum] is zero, so the regions are laid out in
    one pass. *)
Definition layout (env : Collaborators) (s : t) (c : SoftVideoCompositor.t)
    : outcome (option VideoFrame * SoftVideoCompositor.t) :=
  match free_buffer env with
  | None => Returns (None, c)
  | Some compositeBuffer =>
      '(frames, c') ←
        SoftFrameGenerator.layout_regions (m_crop s) (files env) compositeBuffer (m_layout s) c;
      Returns (Some (composite env compositeBuffer frames), c')
  end.

Definition generateFrame (env : Collaborators) (s : t) (c : SoftVideoCompositor.t)
    : outcome (option VideoFrame * t * SoftVideoCompositor.t) :=
  let s' := reconfigureIfNeeded s in
  '(frame, c') ← layout env s' c;
  Returns (frame, s', c').

(** [onTimeout], with the frame composed when some due bucket has an
    output. *)
Definition onTimeout (env : Collaborators) (s : t) (c : SoftVideoCompositor.t)
    : outcome (list (SoftFrameGenerator.Output_t * VideoFrame) * t * SoftVideoCompositor.t) :=
  '(compositeFrame, s1, c1) ←
    (if SoftFrameGenerator.hasValidOutput (generator s) then generateFrame env s c
     else Returns (None, s, c));
  '(delivered, g') ← SoftFrameGenerator.onTimeout compositeFrame (generator s1);
  Returns (delivered, set_generator g' s1, c1).

(** What happens to a generator between two pushes of frames. *)
Inductive call : Type :=
  | UpdateLayoutSolution (solution : list SoftFrameGenerator.LayoutEntry)
  | Tick (env : Collaborators).

Fixpoint steps (calls : list call) (s : t) (c : SoftVideoCompositor.t)
    : outcome (list (list (SoftFrameGenerator.Output_t * VideoFrame)) * t * SoftVideoCompositor.t) :=
  match calls with
  | [] => Returns ([], s, c)
  | UpdateLayoutSolution solution :: rest => steps rest (updateLayoutSolution solution s) c
  | Tick env :: rest =>
      '(delivered, s', c') ← onTimeout env s c;
      '(log, s'', c'') ← steps rest s' c';
      Returns (delivered :: log, s'', c'')
  end.

(** The solution handed in last by the calls, [solution] if none. *)
Fixpoint latest (solution : list SoftFrameGenerator.LayoutEntry) (calls : list call)
    : list SoftFrameGenerator.LayoutEntry :=
  match calls with
  | [] => solution
  | UpdateLayoutSolution solution' :: rest => latest solution' rest
  | Tick _ :: rest => latest solution rest
  end.

(** A tick for which the buffer manager has no free buffer. *)
Definition no_buffer (c : call) : Prop :=
  match c with Tick env => free_buffer env = None | UpdateLayoutSolution _ => True end.

(** The layout in use is the one handed in last, unless that one is
    still to be taken. *)
Definition settled (s : t) : Prop :=
  m_configureChanged s = false -> m_layout s = m_newLayout s.

End Composer.

(* ================================================================== *)
(** ** Ticks of the 60/15 generator over the three inputs *)

Module Ticks.

(** A tick with a free buffer and no avatar files. *)
Definition env : Composer.Collaborators :=
  Composer.mkCollaborators (Some S3.canvas) S3.no_files (fun _ _ => Band60.canvas).

(** The generator as constructed, without outputs. *)
Definition idle : Composer.t := Composer.mk Band60.generator true [] [] false.

(** The generator with one output at 30 frames a second. *)
Definition serving : Composer.t :=
  Composer.mk (SoftFrameGenerator.mk 60 15 0 4 [[]; [Band60.output30]; []; []])
              true [] [] false.

Definition calls : list Composer.call :=
  [Composer.Tick env; Composer.UpdateLayoutSolution S3.layout; Composer.Tick env].

End Ticks.

(* ================================================================== *)
(** ** One picture on a new compositor *)

Module Still.

(** What a layout shows when input [k] alone has a picture [b]. *)
Definition shown (k : nat) (b : I420Buffer) (regions : list SoftFrameGenerator.LayoutEntry)
    : list (option VideoFrame) :=
  (fun it => if decide (SoftFrameGenerator.input it = k) then Some (mkVideoFrame b) else None)
    <$> regions.

(** Every region names an input of the compositor. *)
Definition in_range (maxInput : nat) (regions : list SoftFrameGenerator.LayoutEntry) : Prop :=
  Forall (fun it => (SoftFrameGenerator.input it < maxInput)%nat) regions.








End Still.

(* ================================================================== *)
(** * Properties *)

Import SoftInput.

Lemma wrap32_small z : 0 <= z < 2 ^ 32 -> wrap32 z = z.
Proof. intros Hz. unfold wrap32. by apply Z.mod_small. Qed.

Lemma wrap32_range z : 0 <= wrap32 z < 2 ^ 32.
Proof. unfold wrap32. apply Z.mod_pos_bound. lia. Qed.

(** A sequence of two calls returns when both do. *)
Lemma outcome_bind_inv {A B} (o : outcome A) (k : A -> outcome B) (b : B) :
  o ≫= k = Returns b -> exists a, o = Returns a /\ k a = Returns b.
Proof. destruct o as [a| | |]; simpl; [|done..]. intros Hk. by exists a. Qed.

(** ** SoftInput: the sync-driven advance *)

Lemma advance_single target f : advance target [f] = [f].
Proof. simpl. by destruct (sync_timeStamp f >=? target). Qed.

Lemma advance_cons target f g rest :
  advance target (f :: g :: rest) =
  if sync_timeStamp f >=? target then f :: g :: rest else advance target (g :: rest).
Proof. reflexivity. Qed.

Lemma advance_nonempty target q : q <> [] -> advance target q <> [].
Proof.
  induction q as [|f rest IH]; [done|]. intros _.
  destruct rest as [|g rest']; [by rewrite advance_single|].
  rewrite advance_cons. destruct (sync_timeStamp f >=? target); [done|].
  by apply IH.
Qed.

(** The queue left by the loop is a suffix of the old one; every frame
    removed was older than the target; the loop stopped for one of its
    two reasons. *)
Lemma advance_spec target q :
  q <> [] ->
  exists dropped f rest,
    q = dropped ++ f :: rest /\
    advance target q = f :: rest /\
    Forall (fun g => sync_timeStamp g < target) dropped /\
    (target <= sync_timeStamp f \/ rest = []).
Proof.
  induction q as [|f rest IH]; [done|]. intros _.
  destruct rest as [|g rest'].
  { exists [], f, []. rewrite advance_single. repeat split; [constructor | by right]. }
  rewrite advance_cons. destruct (sync_timeStamp f >=? target) eqn:Hge.
  - exists [], f, (g :: rest'). repeat split; [constructor | left; lia].
  - destruct IH as (dropped & f' & rest'' & Hq & Hadv & Hall & Hstop); [done|].
    exists (f :: dropped), f', rest''. repeat split.
    + simpl. by rewrite <- Hq.
    + exact Hadv.
    + constructor; [lia | exact Hall].
    + exact Hstop.
Qed.

(** ** SoftInput: [get_sync_frame] and [popInput] *)

(** C2. On an active input with a non-empty queue, [get_sync_frame]
    with target -1 returns the front and leaves the input as it is.
    With any other target it removes a prefix of the queue, all of whose
    frames have a sync timestamp strictly below the target, and stops at
    the first frame that has reached the target or at the last frame of
    the queue; that frame is returned, and the input is left with its
    three flags as they were and with the queue that starts at that
    frame, so at least one frame stays in the queue. *)
Theorem get_sync_frame_spec (s : SoftInput.t) (target : Z) :
  m_active s = true ->
  m_frame_queue s <> [] ->
  (target = -1 ->
     get_sync_frame target s = (head (m_frame_queue s), s) /\
     is_Some (head (m_frame_queue s))) /\
  (target <> -1 ->
     exists dropped f rest,
       m_frame_queue s = dropped ++ f :: rest /\
       Forall (fun g => sync_timeStamp g < target) dropped /\
       (target <= sync_timeStamp f \/ rest = []) /\
       get_sync_frame target s
       = (Some f,
          SoftInput.mk (m_active s) (m_sync_enabled s) (m_frame_sync_enabled s) (f :: rest))) /\
  (1 <= length (m_frame_queue (snd (get_sync_frame target s))))%nat.
Proof.
  intros Hactive Hq. unfold get_sync_frame. rewrite Hactive. simpl.
  destruct (m_frame_queue s) as [|f0 q0] eqn:Eq; [done|].
  split; [|split].
  - intros ->. simpl. split; [done | by eexists].
  - intros Hne. destruct (Z.eqb_spec target (-1)) as [->|_]; [done|].
    destruct (advance_spec target (f0 :: q0)) as (dropped & f & rest & Hsplit & Hadv & Hall & Hstop);
      [done|].
    exists dropped, f, rest. rewrite Hadv. unfold set_queue. by rewrite Hactive.
  - pose proof (advance_nonempty target (f0 :: q0)) as Hn.
    destruct (Z.eqb_spec target (-1)) as [->|_].
    + simpl. rewrite Eq. simpl. lia.
    + destruct (advance target (f0 :: q0)) as [|a l]; [by exfalso; apply Hn | simpl; lia].
Qed.

Lemma get_sync_frame_spec_witness :
  get_sync_frame (-1) (S3.input_with [100; 200; 300; 400])
  = (Some (S3.frame_at 100), S3.input_with [100; 200; 300; 400]) /\
  get_sync_frame 300 (S3.input_with [100; 200; 300; 400])
  = (Some (S3.frame_at 300), S3.input_with [300; 400]) /\
  m_frame_queue (S3.input_with [300; 400]) = [S3.frame_at 300; S3.frame_at 400].
Proof.
  split; [|split; [|reflexivity]].
  - destruct (get_sync_frame_spec (S3.input_with [100; 200; 300; 400]) (-1))
      as (Hhold & _ & _); [reflexivity | discriminate |].
    destruct (Hhold eq_refl) as [Hget _]. exact Hget.
  - destruct (get_sync_frame_spec (S3.input_with [100; 200; 300; 400]) 300)
      as (_ & Hadv & _); [reflexivity | discriminate |].
    destruct (Hadv ltac:(discriminate)) as (dropped & f & rest & Hq & Hall & Hstop & Hget).
    rewrite Hget. clear Hget.
    destruct dropped as [|d1 [|d2 [|d3 [|d4 dropped]]]]; simpl in Hq.
    + injection Hq as <- <-. destruct Hstop as [Hreached|Hlast]; [simpl in Hreached; lia | done].
    + injection Hq as <- <- <-.
      destruct Hstop as [Hreached|Hlast]; [simpl in Hreached; lia | done].
    + injection Hq as <- <- <- <-. reflexivity.
    + injection Hq as <- <- <- <- <-. exfalso.
      apply Forall_inv_tail, Forall_inv_tail, Forall_inv in Hall. simpl in Hall. lia.
    + injection Hq as _ _ _ _ Hq. by destruct dropped.
Defined.

(** C6. On an active input with a non-empty queue, [popInput] returns
    the front frame; the front is removed exactly when the queue holds
    more than one frame, so a frame always stays behind. *)
Theorem popInput_spec (s : SoftInput.t) (f : SoftInputFrame) (rest : list SoftInputFrame) :
  m_active s = true ->
  m_frame_queue s = f :: rest ->
  fst (popInput s) = Some (mkVideoFrame (buffer f)) /\
  ((1 < length (m_frame_queue s))%nat -> snd (popInput s) = set_queue rest s) /\
  (~ (1 < length (m_frame_queue s))%nat -> snd (popInput s) = s) /\
  (1 <= length (m_frame_queue (snd (popInput s))))%nat.
Proof.
  intros Hactive Hq. unfold popInput. rewrite Hactive, Hq. simpl.
  destruct rest as [|g rest']; simpl.
  - rewrite Hq. repeat split; simpl; lia || done.
  - repeat split; simpl; lia || done.
Qed.

Lemma popInput_spec_witness :
  (fst (popInput (S3.input_with [100; 200])) = Some (mkVideoFrame (S3.image 100)) /\
   snd (popInput (S3.input_with [100; 200])) = S3.input_with [200]) /\
  (fst (popInput (S3.input_with [200])) = Some (mkVideoFrame (S3.image 200)) /\
   snd (popInput (S3.input_with [200])) = S3.input_with [200]).
Proof.
  split.
  - destruct (popInput_spec (S3.input_with [100; 200]) (S3.frame_at 100) [S3.frame_at 200])
      as (Hfront & Hpop & _); [reflexivity | reflexivity |].
    split; [exact Hfront | apply Hpop; simpl; lia].
  - destruct (popInput_spec (S3.input_with [200]) (S3.frame_at 200) [])
      as (Hfront & _ & Hkeep & _); [reflexivity | reflexivity |].
    split; [exact Hfront | apply Hkeep; simpl; lia].
Defined.

(** ** SoftInput: [pushInput] *)

Lemma c_assert_admissible NDEBUG (frame : Frame.t) :
  NDEBUG = true \/ Frame.format frame = FRAME_FORMAT_I420 ->
  c_assert NDEBUG (is_I420 (Frame.format frame)) = Returns tt.
Proof. intros [-> | ->]; [done | by destruct NDEBUG]. Qed.

(** What [pushInput] does once the assertion is behind it. *)
Lemma pushInput_admissible NDEBUG k env frame s :
  NDEBUG = true \/ Frame.format frame = FRAME_FORMAT_I420 ->
  pushInput NDEBUG k env frame s =
  Returns (if negb (m_active s) then s
           else match getFreeBuffer env with
                | None => overflow k s
                | Some dstBuffer =>
                    if negb (convert env) then overflow k s
                    else enqueue dstBuffer frame (overflow k s)
                end).
Proof.
  intros Hok. unfold pushInput. rewrite (c_assert_admissible _ _ Hok). simpl.
  destruct (negb (m_active s)); [done|].
  destruct (getFreeBuffer env); [|done]. by destruct (negb (convert env)).
Qed.

(** Nothing switches [m_sync_enabled] back on. *)
Lemma step_sync_stays_off NDEBUG k c s s' :
  m_sync_enabled s = false -> step NDEBUG k c s = Returns s' -> m_sync_enabled s' = false.
Proof.
  intros Hoff. destruct c; simpl; try (intros [= <-]; done).
  - unfold pushInput. destruct (c_assert _ _); simpl; try done.
    assert (Hov : m_sync_enabled (overflow k s) = false).
    { unfold overflow. by destruct (Nat.eqb _ _). }
    destruct (negb (m_active s)); [by intros [= <-]|].
    destruct (getFreeBuffer env); [|by intros [= <-]].
    destruct (negb (convert env)); [by intros [= <-]|].
    intros [= <-]. unfold enqueue. by destruct (m_active (overflow k s)).
  - intros [= <-]. unfold popInput. destruct (negb (m_active s)); [done|].
    destruct (m_frame_queue s); [done|]. simpl. by destruct (Nat.ltb _ _).
  - intros [= <-]. unfold get_sync_frame. destruct (negb (m_active s)); [done|].
    destruct (m_frame_queue s); [done|]. by destruct (target =? -1).
Qed.

Lemma step_admissible_returns NDEBUG k c s :
  admissible NDEBUG c -> exists s', step NDEBUG k c s = Returns s'.
Proof.
  destruct c; simpl; intros Hok; try by eexists.
  rewrite pushInput_admissible by done. by eexists.
Qed.

Lemma steps_sync_stays_off NDEBUG k calls s :
  m_sync_enabled s = false ->
  Forall (admissible NDEBUG) calls ->
  exists s', steps NDEBUG k calls s = Returns s' /\ isSyncEnabled s' = false.
Proof.
  intros Hoff Hall. revert s Hoff.
  induction Hall as [|c calls Hc _ IH]; intros s Hoff.
  - exists s. split; [done|]. unfold isSyncEnabled. by rewrite Hoff.
  - destruct (step_admissible_returns NDEBUG k c s Hc) as [s1 Hs1].
    simpl. rewrite Hs1. simpl. apply IH. by eapply step_sync_stays_off.
Qed.

Lemma steps_sync_off_returned NDEBUG k calls s s' :
  m_sync_enabled s = false ->
  steps NDEBUG k calls s = Returns s' ->
  isSyncEnabled s' = false.
Proof.
  revert s. induction calls as [|c calls IH]; intros s Hoff; simpl.
  - intros [= <-]. unfold isSyncEnabled. by rewrite Hoff.
  - destruct (step NDEBUG k c s) as [s1| | |] eqn:Hs1; simpl; try done.
    apply IH. by eapply step_sync_stays_off.
Qed.

(** C3, as stated, fails: with five frames queued and [kMaxQueueSize]
    five, a push for which the pool has no free buffer, or for which
    the copy into the buffer fails, clears the queue and returns before
    anything is enqueued; the queue is left empty. *)
Lemma pushInput_full_queue_no_buffer :
  m_active (S3.input_with [100; 200; 300; 400; 500]) = true /\
  length (m_frame_queue (S3.input_with [100; 200; 300; 400; 500])) = 5%nat /\
  pushInput false 5 S3.pool_empty (S3.pushed FRAME_FORMAT_I420 600)
            (S3.input_with [100; 200; 300; 400; 500])
  = Returns (SoftInput.mk true false true []) /\
  pushInput false 5 (S3.copy_fails 600) (S3.pushed FRAME_FORMAT_I420 600)
            (S3.input_with [100; 200; 300; 400; 500])
  = Returns (SoftInput.mk true false true []) /\
  length (m_frame_queue (SoftInput.mk true false true [])) <> 1%nat.
Proof. repeat split; discriminate. Qed.

(** C3, amended. A push of a frame that passes the assertion onto an
    active input whose queue holds [kMaxQueueSize] frames returns.  It
    clears the queue and switches [m_sync_enabled] off whether or not
    a buffer is had: when the pool hands out no buffer or the copy
    fails the queue is left empty; when the pool hands out a buffer and
    the copy succeeds the queue holds the new frame and nothing else.
    Whatever calls follow on that input, [isSyncEnabled] is false after
    them; and they return when every frame pushed passes the
    assertion. *)
Theorem pushInput_full_queue NDEBUG k env frame s :
  m_active s = true ->
  length (m_frame_queue s) = k ->
  NDEBUG = true \/ Frame.format frame = FRAME_FORMAT_I420 ->
  exists s',
    pushInput NDEBUG k env frame s = Returns s' /\
    m_active s' = true /\
    m_sync_enabled s' = false /\
    (getFreeBuffer env = None \/ convert env = false ->
     m_frame_queue s' = [] /\ m_frame_sync_enabled s' = m_frame_sync_enabled s) /\
    (forall dstBuffer,
       getFreeBuffer env = Some dstBuffer -> convert env = true ->
       m_frame_queue s' =
         [mkSoftInputFrame dstBuffer (Frame.timeStamp frame)
                           (Frame.sync_enabled frame) (Frame.sync_timeStamp frame)] /\
       length (m_frame_queue s') = 1%nat /\
       m_frame_sync_enabled s' = Frame.sync_enabled frame) /\
    (forall calls s'', steps NDEBUG k calls s' = Returns s'' -> isSyncEnabled s'' = false) /\
    (forall calls,
       Forall (admissible NDEBUG) calls ->
       exists s'', steps NDEBUG k calls s' = Returns s'' /\ isSyncEnabled s'' = false).
Proof.
  intros Hactive Hfull Hok. rewrite pushInput_admissible by done.
  rewrite Hactive. simpl. eexists. split; [reflexivity|].
  assert (Hov : overflow k s = SoftInput.mk true false (m_frame_sync_enabled s) []).
  { unfold overflow. rewrite Hfull, Nat.eqb_refl. by rewrite Hactive. }
  rewrite Hov. split; [|split; [|split; [|split; [|split]]]].
  - destruct (getFreeBuffer env); [|done]. by destruct (negb (convert env)).
  - destruct (getFreeBuffer env); [|done]. by destruct (negb (convert env)).
  - intros [-> | ->]; [done|]. by destruct (getFreeBuffer env).
  - intros dstBuffer -> ->. simpl. done.
  - intros calls s''. apply steps_sync_off_returned.
    destruct (getFreeBuffer env); [|done]. by destruct (negb (convert env)).
  - intros calls Hcalls. apply steps_sync_stays_off; [|done].
    destruct (getFreeBuffer env); [|done]. by destruct (negb (convert env)).
Qed.

Lemma pushInput_full_queue_witness :
  (exists s',
     pushInput false 5 (S3.pool_ok 600) (S3.pushed FRAME_FORMAT_I420 600)
               (S3.input_with [100; 200; 300; 400; 500]) = Returns s' /\
     m_sync_enabled s' = false /\
     m_frame_queue s' = [S3.frame_at 600] /\
     exists s'', steps false 5 [PushInput (S3.pool_ok 700) (S3.pushed FRAME_FORMAT_I420 700);
                                GetSyncFrame 650; PopInput] s' = Returns s'' /\
                 isSyncEnabled s'' = false) /\
  (exists s',
     pushInput false 5 S3.pool_empty (S3.pushed FRAME_FORMAT_I420 600)
               (S3.input_with [100; 200; 300; 400; 500]) = Returns s' /\
     m_sync_enabled s' = false /\
     m_frame_queue s' = []).
Proof.
  split.
  - destruct (pushInput_full_queue false 5 (S3.pool_ok 600) (S3.pushed FRAME_FORMAT_I420 600)
                (S3.input_with [100; 200; 300; 400; 500]))
      as (s' & Hpush & _ & Hsync & _ & Hone & _ & Hoff); [reflexivity | reflexivity | by right |].
    exists s'. split; [exact Hpush|]. split; [exact Hsync|]. split.
    + apply (Hone (S3.image 600)); reflexivity.
    + apply Hoff. constructor; [by right|]. constructor; [exact I|].
      constructor; [exact I|]. constructor.
  - destruct (pushInput_full_queue false 5 S3.pool_empty (S3.pushed FRAME_FORMAT_I420 600)
                (S3.input_with [100; 200; 300; 400; 500]))
      as (s' & Hpush & _ & Hsync & Hnone & _); [reflexivity | reflexivity | by right |].
    exists s'. split; [exact Hpush|]. split; [exact Hsync|]. apply Hnone. by left.
Defined.

(** C9, as stated, fails for the format: a frame whose format is not
    I420, pushed onto an active input, is not dropped.  With assertions
    compiled in the call stops at its [assert]; with assertions compiled
    out the frame is queued like any other. *)
Lemma pushInput_wrong_format_not_dropped :
  is_I420 (Frame.format (S3.pushed (FRAME_FORMAT_other 0) 100)) = false /\
  pushInput false 5 (S3.pool_ok 100) (S3.pushed (FRAME_FORMAT_other 0) 100)
            (setActive true SoftInput.create)
  = AssertionFailed /\
  pushInput true 5 (S3.pool_ok 100) (S3.pushed (FRAME_FORMAT_other 0) 100)
            (setActive true SoftInput.create)
  = Returns (SoftInput.mk true true true [S3.frame_at 100]) /\
  SoftInput.mk true true true [S3.frame_at 100] <> setActive true SoftInput.create.
Proof. repeat split; discriminate. Qed.

(** C9, amended. A frame that passes the assertion and is pushed onto
    an input that is not active is dropped: the call returns and the
    input is unchanged.  A frame whose format is not I420 trips the
    assertion when assertions are compiled in; when they are compiled
    out the format plays no part in what [pushInput] does. *)
Theorem pushInput_dropped NDEBUG k env (frame : Frame.t) s :
  (m_active s = false ->
   NDEBUG = true \/ Frame.format frame = FRAME_FORMAT_I420 ->
   pushInput NDEBUG k env frame s = Returns s) /\
  (is_I420 (Frame.format frame) = false -> NDEBUG = false ->
   pushInput NDEBUG k env frame s = AssertionFailed) /\
  (NDEBUG = true ->
   pushInput NDEBUG k env frame s =
   pushInput NDEBUG k env
     (Frame.mk FRAME_FORMAT_I420 (Frame.payload frame) (Frame.timeStamp frame)
               (Frame.sync_enabled frame) (Frame.sync_timeStamp frame)) s).
Proof.
  split; [|split].
  - intros Hinactive Hok. rewrite pushInput_admissible by done. by rewrite Hinactive.
  - intros Hfmt ->. unfold pushInput. by rewrite Hfmt.
  - intros ->. rewrite !pushInput_admissible by (by left). done.
Qed.

Lemma pushInput_dropped_witness :
  pushInput false 5 (S3.pool_ok 100) (S3.pushed FRAME_FORMAT_I420 100) SoftInput.create
  = Returns SoftInput.create /\
  pushInput false 5 (S3.pool_ok 100) (S3.pushed (FRAME_FORMAT_other 0) 100) SoftInput.create
  = AssertionFailed /\
  pushInput true 5 (S3.pool_ok 100) (S3.pushed (FRAME_FORMAT_other 0) 100) SoftInput.create
  = pushInput true 5 (S3.pool_ok 100) (S3.pushed FRAME_FORMAT_I420 100) SoftInput.create.
Proof.
  pose proof (pushInput_dropped false 5 (S3.pool_ok 100) (S3.pushed FRAME_FORMAT_I420 100)
                SoftInput.create) as (Hdrop & _ & _).
  pose proof (pushInput_dropped false 5 (S3.pool_ok 100) (S3.pushed (FRAME_FORMAT_other 0) 100)
                SoftInput.create) as (_ & Hstop & _).
  pose proof (pushInput_dropped true 5 (S3.pool_ok 100) (S3.pushed (FRAME_FORMAT_other 0) 100)
                SoftInput.create) as (_ & _ & Hsame).
  split; [apply Hdrop; [reflexivity | by right] |].
  split; [apply Hstop; reflexivity | apply Hsame; reflexivity].
Defined.

(** ** The composition pass: sync target and mode *)

Lemma List_last_cons {A} (x d : A) (l : list A) :
  List.last (x :: l) d = List.last l x.
Proof.
  revert x d. induction l as [|y l IH]; intros x d; [done|].
  change (List.last (x :: y :: l) d) with (List.last (y :: l) d). by rewrite !IH.
Qed.

Lemma last_as_List_last {A} (x : A) (l : list A) : last (x :: l) = Some (List.last l x).
Proof.
  revert x. induction l as [|y l IH]; intros x; [done|].
  by rewrite last_cons_cons, IH, List_last_cons.
Qed.

Lemma unset_or_max acc x :
  (if (acc =? -1) || (acc <? x) then x else acc) = SyncTarget.unset_or Z.max acc x.
Proof.
  unfold SyncTarget.unset_or. destruct (acc =? -1); [done|]. simpl.
  destruct (Z.ltb_spec acc x); lia.
Qed.

Lemma unset_or_min acc x :
  (if (acc =? -1) || (acc >? x) then x else acc) = SyncTarget.unset_or Z.min acc x.
Proof.
  unfold SyncTarget.unset_or. destruct (acc =? -1); [done|]. simpl.
  rewrite Z.gtb_ltb. destruct (Z.ltb_spec x acc); lia.
Qed.

(** One round of the first loop against the specification's wording. *)
Lemma observe_observed c it i range :
  SoftVideoCompositor.m_inputs c !! SoftFrameGenerator.input it = Some i ->
  SoftInput.wf i ->
  SoftFrameGenerator.observe range i =
  match SyncTarget.observed c it with
  | Some (f, b) => (SyncTarget.unset_or Z.max range.1 f, SyncTarget.unset_or Z.min range.2 b)
  | None => range
  end.
Proof.
  intros Hi Hwf. unfold SoftFrameGenerator.observe, SyncTarget.observed. rewrite Hi.
  destruct (isSyncEnabled i); simpl; [|done].
  unfold front, back. destruct (m_active i) eqn:Hact; simpl.
  - destruct (m_frame_queue i) as [|f rest]; [done|].
    rewrite last_as_List_last. simpl. destruct range as [mn mx]. simpl.
    by rewrite unset_or_max, unset_or_min.
  - by rewrite Hwf.
Qed.

Lemma sync_range_fold c regions range :
  SyncTarget.in_range c regions ->
  Forall SoftInput.wf (SoftVideoCompositor.m_inputs c) ->
  SoftFrameGenerator.sync_range regions range c =
  Returns (foldl (SyncTarget.unset_or Z.max) range.1 (fst <$> SyncTarget.observations c regions),
           foldl (SyncTarget.unset_or Z.min) range.2 (snd <$> SyncTarget.observations c regions)).
Proof.
  intros Hrange Hwf. revert range.
  induction Hrange as [|it regions Hit _ IH]; intros range.
  - simpl. by destruct range.
  - destruct (lookup_lt_is_Some_2 _ _ Hit) as [i Hi].
    assert (Hwfi : SoftInput.wf i).
    { eapply Forall_lookup_1; eauto. }
    cbn [SoftFrameGenerator.sync_range]. unfold SoftVideoCompositor.getInput. rewrite Hi.
    simpl. rewrite IH, (observe_observed c it i range Hi Hwfi).
    unfold SyncTarget.observations. simpl.
    destruct (SyncTarget.observed c it) as [[f b]|]; done.
Qed.

(** Away from the sentinel the accumulation is the plain maximum (or
    minimum) of what was observed. *)
Lemma foldl_unset_or pick acc l :
  (forall a b, pick a b = a \/ pick a b = b) ->
  acc <> -1 -> Forall (fun x => x <> -1) l ->
  foldl (SyncTarget.unset_or pick) acc l = foldl pick acc l.
Proof.
  intros Hpick Hacc Hall. revert acc Hacc.
  induction Hall as [|x l Hx _ IH]; intros acc Hacc; [done|].
  simpl. unfold SyncTarget.unset_or at 2.
  destruct (Z.eqb_spec acc (-1)); [done|].
  apply IH. destruct (Hpick acc x) as [-> | ->]; done.
Qed.

Lemma unset_or_greatest l :
  Forall (fun x => x <> -1) l ->
  foldl (SyncTarget.unset_or Z.max) (-1) l = SyncTarget.greatest l.
Proof.
  intros Hall. destruct Hall as [|x l Hx Hall]; [done|].
  simpl. apply foldl_unset_or; [lia | done | done].
Qed.

Lemma unset_or_least l :
  Forall (fun x => x <> -1) l ->
  foldl (SyncTarget.unset_or Z.min) (-1) l = SyncTarget.least l.
Proof.
  intros Hall. destruct Hall as [|x l Hx Hall]; [done|].
  simpl. apply foldl_unset_or; [lia | done | done].
Qed.

Lemma place_ext m_crop cw ch fetch1 fetch2 regions c :
  (forall index c', fetch1 index c' = fetch2 index c') ->
  SoftFrameGenerator.place m_crop cw ch fetch1 regions c
  = SoftFrameGenerator.place m_crop cw ch fetch2 regions c.
Proof.
  intros Hext. revert c. induction regions as [|it regions IH]; intros c; [done|].
  simpl. rewrite Hext. destruct (fetch2 _ c) as [[frame c']| | |]; simpl; try done.
  destruct (SoftFrameGenerator.paint m_crop cw ch it frame) as [painted| | |]; simpl; try done.
  by rewrite IH.
Qed.

Lemma inputFrame_hook fs mn mx index c :
  SoftFrameGenerator.inputFrame fs (mn, mx) index c
  = SyncTarget.hook fs (SyncTarget.mode_of mn mx) index c.
Proof.
  unfold SoftFrameGenerator.inputFrame, SyncTarget.mode_of.
  destruct (mx =? -1); [done|]. by destruct (mn >? mx).
Qed.

(** One region of the second loop, taken apart and put together. *)
Lemma place_cons_inv m_crop cw ch fetch it rest c frames c' :
  SoftFrameGenerator.place m_crop cw ch fetch (it :: rest) c = Returns (frames, c') ->
  exists frame c1 painted frames',
    fetch (SoftFrameGenerator.input it) c = Returns (frame, c1) /\
    SoftFrameGenerator.paint m_crop cw ch it frame = Returns painted /\
    SoftFrameGenerator.place m_crop cw ch fetch rest c1 = Returns (frames', c') /\
    frames = painted :: frames'.
Proof.
  simpl. destruct (fetch _ c) as [[frame c1]| | |] eqn:Hfetch; simpl; try done.
  destruct (SoftFrameGenerator.paint m_crop cw ch it frame) as [painted| | |] eqn:Hpaint;
    simpl; try done.
  destruct (SoftFrameGenerator.place m_crop cw ch fetch rest c1) as [[frames' c'']| | |] eqn:Hrest;
    simpl; try done.
  intros [= <- <-]. by exists frame, c1, painted, frames'.
Qed.

Lemma place_cons_eq m_crop cw ch fetch it rest c frame c1 painted frames c' :
  fetch (SoftFrameGenerator.input it) c = Returns (frame, c1) ->
  SoftFrameGenerator.paint m_crop cw ch it frame = Returns painted ->
  SoftFrameGenerator.place m_crop cw ch fetch rest c1 = Returns (frames, c') ->
  SoftFrameGenerator.place m_crop cw ch fetch (it :: rest) c = Returns (painted :: frames, c').
Proof. intros Hfetch Hpaint Hrest. simpl. rewrite Hfetch. simpl. by rewrite Hpaint, Hrest. Qed.

(** What is painted for a region is the frame that was fetched for
    it, with the rectangles computed for the region. *)
Lemma paint_picture m_crop cw ch it frame painted :
  SoftFrameGenerator.paint m_crop cw ch it frame = Returns painted ->
  SoftFrameGenerator.picture <$> painted = frame /\
  forall pt, painted = Some pt ->
    Placement.geometry m_crop cw ch (SoftFrameGenerator.region it)
      (wrap32 (buf_width (video_frame_buffer (SoftFrameGenerator.picture pt))))
      (wrap32 (buf_height (video_frame_buffer (SoftFrameGenerator.picture pt))))
    = Returns (SoftFrameGenerator.rectangles pt).
Proof.
  unfold SoftFrameGenerator.paint. destruct frame as [fr|]; [|by intros [= <-]].
  destruct (SoftFrameGenerator.Placement.geometry _ _ _ _ _ _) as [r| | |] eqn:Hr; simpl; try done.
  intros [= <-]. split; [done|]. by intros pt [= <-].
Qed.

(** The compositors a pass goes through, one region after another. *)
Lemma place_states m_crop cw ch fetch regions c frames c' :
  SoftFrameGenerator.place m_crop cw ch fetch regions c = Returns (frames, c') ->
  exists states,
    length states = S (length regions) /\
    states !! 0%nat = Some c /\
    last states = Some c' /\
    forall (k : nat) it,
      regions !! k = Some it ->
      exists ck ck' frame,
        states !! k = Some ck /\ states !! S k = Some ck' /\
        SoftFrameGenerator.pictures frames !! k = Some frame /\
        fetch (SoftFrameGenerator.input it) ck = Returns (frame, ck').
Proof.
  revert c frames. induction regions as [|it regions IH]; intros c frames Hplace.
  - injection Hplace as <- <-. exists [c]. repeat split; try done.
  - destruct (place_cons_inv _ _ _ _ _ _ _ _ _ Hplace)
      as (frame & c1 & painted & frames' & Hfetch & Hpaint & Hrest & ->).
    destruct (IH c1 frames' Hrest) as (states & Hlen & Hhead & Hlast & Hstep).
    exists (c :: states). split; [simpl; by rewrite Hlen|]. split; [done|]. split.
    + destruct states as [|c0 states]; [done|]. by rewrite last_cons_cons.
    + intros [|k] it' Hk; simpl in Hk.
      * injection Hk as <-. exists c, c1, frame. repeat split; try done.
        simpl. by rewrite (proj1 (paint_picture _ _ _ _ _ _ Hpaint)).
      * destruct (Hstep k it' Hk) as (ck & ck' & fr & H1 & H2 & H3 & H4).
        by exists ck, ck', fr.
Qed.

(** C1, as stated, fails when a sync timestamp is -1: the code tests
    the accumulators against the sentinel at every region, not only
    before the first observation.  With a frame stamped -1 alone in
    the queue of input 0 and frames stamped 5 and 10 in the queue of
    input 1, a state the pushes below lead to, the backs observed are
    -1 and 10 and their minimum is -1, which would mean unsynced mode
    and [getInputFrame], which shows the frame stamped 5 for input 1;
    the code computes (5, 10), runs in sync mode, and shows the frame
    stamped 10. *)
Lemma sentinel_is_tested_every_round :
  (c1 ← SoftVideoCompositor.activateInput 0 (SoftVideoCompositor.create 2);
   c2 ← SoftVideoCompositor.activateInput 1 c1;
   c3 ← SoftVideoCompositor.pushInput false 5 (S3.pool_ok (-1)) 0
          (S3.pushed FRAME_FORMAT_I420 (-1)) c2;
   c4 ← SoftVideoCompositor.pushInput false 5 (S3.pool_ok 5) 1 (S3.pushed FRAME_FORMAT_I420 5) c3;
   SoftVideoCompositor.pushInput false 5 (S3.pool_ok 10) 1 (S3.pushed FRAME_FORMAT_I420 10) c4)
  = Returns Sentinel.compositor /\
  SyncTarget.observations Sentinel.compositor S3.layout = [(-1, -1); (5, 10)] /\
  SyncTarget.least [-1; 10] = -1 /\
  SoftFrameGenerator.sync_range S3.layout (-1, -1) Sentinel.compositor = Returns (5, 10) /\
  (exists c',
     SoftVideoCompositor.getInputFrame S3.no_files 1 Sentinel.compositor
     = Returns (Some (mkVideoFrame (S3.image 5)), c')) /\
  (exists frames c',
     SoftFrameGenerator.layout_regions true S3.no_files S3.canvas S3.layout Sentinel.compositor
     = Returns (frames, c') /\
     SoftFrameGenerator.pictures frames
     = [Some (mkVideoFrame (S3.image (-1))); Some (mkVideoFrame (S3.image 10))] /\
     S3.stamps c' = [[-1]; [10]]) /\
  S3.image 5 <> S3.image 10.
Proof.
  split; [reflexivity|]. split; [reflexivity|]. split; [reflexivity|]. split; [reflexivity|].
  split; [by eexists|]. split; [|discriminate].
  eexists _, _. split; [by vm_compute|]. split; reflexivity.
Qed.

(** C1, amended. In every pass over regions that name inputs of the
    compositor, the first loop of [layout_regions] accumulates
    min_sync and max_sync over exactly the regions whose input has
    [isSyncEnabled()] and a non-empty queue: an accumulator that is -1
    takes the front (the back) sync timestamp observed, any other
    takes the greater of itself and the front (the lesser of itself
    and the back).  When none of the timestamps observed is -1, these
    are the greatest front and the least back (-1 when no region
    qualifies).  A pass that returns has gone through the regions in
    layout order, each region seeing the compositor the one before
    left, and has taken the frame of each region from [getInputFrame]
    when max_sync is -1, from [getSyncInputFrame(-1)] when min_sync >
    max_sync, and from [getSyncInputFrame(max_sync)] otherwise. *)
Theorem layout_regions_sync_target m_crop fs compositeBuffer regions c :
  SyncTarget.in_range c regions ->
  Forall SoftInput.wf (SoftVideoCompositor.m_inputs c) ->
  SoftFrameGenerator.sync_range regions (-1, -1) c
  = Returns (SyncTarget.min_sync c regions, SyncTarget.max_sync c regions) /\
  (Forall (fun o => o.1 <> -1 /\ o.2 <> -1) (SyncTarget.observations c regions) ->
   SyncTarget.min_sync c regions = SyncTarget.greatest (fst <$> SyncTarget.observations c regions) /\
   SyncTarget.max_sync c regions = SyncTarget.least (snd <$> SyncTarget.observations c regions)) /\
  forall frames c',
    SoftFrameGenerator.layout_regions m_crop fs compositeBuffer regions c = Returns (frames, c') ->
    exists states,
      length states = S (length regions) /\
      states !! 0%nat = Some c /\
      last states = Some c' /\
      forall (k : nat) it,
        regions !! k = Some it ->
        exists ck ck' frame,
          states !! k = Some ck /\ states !! S k = Some ck' /\
          SoftFrameGenerator.pictures frames !! k = Some frame /\
          (SyncTarget.max_sync c regions = -1 ->
           SoftVideoCompositor.getInputFrame fs (SoftFrameGenerator.input it) ck
           = Returns (frame, ck')) /\
          (SyncTarget.max_sync c regions <> -1 ->
           SyncTarget.min_sync c regions > SyncTarget.max_sync c regions ->
           SoftVideoCompositor.getSyncInputFrame fs (SoftFrameGenerator.input it) (-1) ck
           = Returns (frame, ck')) /\
          (SyncTarget.max_sync c regions <> -1 ->
           SyncTarget.min_sync c regions <= SyncTarget.max_sync c regions ->
           SoftVideoCompositor.getSyncInputFrame fs (SoftFrameGenerator.input it)
             (SyncTarget.max_sync c regions) ck
           = Returns (frame, ck')).
Proof.
  intros Hrange Hwf.
  pose proof (sync_range_fold c regions (-1, -1) Hrange Hwf) as Hfold.
  split; [exact Hfold|]. split.
  - intros Hne. split.
    + apply unset_or_greatest. apply Forall_fmap. eapply Forall_impl; [exact Hne|].
      by intros o [? ?].
    + apply unset_or_least. apply Forall_fmap. eapply Forall_impl; [exact Hne|].
      by intros o [? ?].
  - intros frames c'. unfold SoftFrameGenerator.layout_regions. rewrite Hfold. simpl.
    change (foldl (SyncTarget.unset_or Z.max) (-1) (SyncTarget.observations c regions).*1)
      with (SyncTarget.min_sync c regions).
    change (foldl (SyncTarget.unset_or Z.min) (-1) (SyncTarget.observations c regions).*2)
      with (SyncTarget.max_sync c regions).
    set (mn := SyncTarget.min_sync c regions). set (mx := SyncTarget.max_sync c regions).
    intros Hplace. destruct (place_states _ _ _ _ _ _ _ _ Hplace)
      as (states & Hlen & Hhead & Hlast & Hstep).
    exists states. repeat (split; [done|]).
    intros k it Hk. destruct (Hstep k it Hk) as (ck & ck' & frame & H1 & H2 & H3 & Hfetch).
    exists ck, ck', frame. repeat (split; [done|]).
    unfold SoftFrameGenerator.inputFrame in Hfetch.
    destruct (Z.eqb_spec mx (-1)) as [Hmx|Hmx].
    + split; [done|]. split; intros Hne; by destruct Hne.
    + rewrite Z.gtb_ltb in Hfetch. destruct (Z.ltb_spec mx mn) as [Hlt|Hge].
      * split; [done|]. split; [done|]. intros _ Hle. lia.
      * split; [done|]. split; [|done]. intros _ Hgt. lia.
Qed.

Lemma layout_regions_sync_target_witness :
  SoftFrameGenerator.sync_range S3.layout (-1, -1) S3.compositor = Returns (250, 400) /\
  (250 = SyncTarget.greatest [100; 250] /\ 400 = SyncTarget.least [400; 450]) /\
  forall frames c',
    SoftFrameGenerator.layout_regions true S3.no_files S3.canvas S3.layout S3.compositor
    = Returns (frames, c') ->
    exists states,
      length states = 3%nat /\
      states !! 0%nat = Some S3.compositor /\
      last states = Some c' /\
      forall (k : nat) it,
        S3.layout !! k = Some it ->
        exists ck ck' frame,
          states !! k = Some ck /\ states !! S k = Some ck' /\
          SoftFrameGenerator.pictures frames !! k = Some frame /\
          SoftVideoCompositor.getSyncInputFrame S3.no_files (SoftFrameGenerator.input it) 400 ck
          = Returns (frame, ck').
Proof.
  destruct (layout_regions_sync_target true S3.no_files S3.canvas S3.layout S3.compositor)
    as (Hrange & Hplain & Hmode).
  - repeat constructor.
  - repeat constructor; discriminate.
  - split; [exact Hrange|]. split.
    + apply Hplain. repeat constructor; discriminate.
    + intros frames c' Hpass.
      destruct (Hmode frames c' Hpass) as (states & Hlen & Hhead & Hlast & Hstep).
      exists states. repeat (split; [assumption|]).
      intros k it Hk. destruct (Hstep k it Hk) as (ck & ck' & frame & H1 & H2 & H3 & _ & _ & H4).
      exists ck, ck', frame. repeat (split; [assumption|]).
      apply H4; [discriminate|]. change (250 <= 400). lia.
Defined.

(** The inputs of a compositor keep the invariant [wf]. *)
Lemma popInput_flags s :
  m_active (popInput s).2 = m_active s /\
  m_sync_enabled (popInput s).2 = m_sync_enabled s /\
  m_frame_sync_enabled (popInput s).2 = m_frame_sync_enabled s.
Proof.
  unfold popInput. destruct (negb (m_active s)); [done|].
  destruct (m_frame_queue s) as [|f rest]; [done|]. simpl.
  by destruct (Nat.ltb _ _).
Qed.

Lemma get_sync_frame_flags target s :
  m_active (get_sync_frame target s).2 = m_active s /\
  m_sync_enabled (get_sync_frame target s).2 = m_sync_enabled s /\
  m_frame_sync_enabled (get_sync_frame target s).2 = m_frame_sync_enabled s.
Proof.
  unfold get_sync_frame. destruct (negb (m_active s)); [done|].
  destruct (m_frame_queue s) as [|f rest]; [done|].
  by destruct (target =? -1).
Qed.

(** Both readers leave a suffix of the queue, and on an active input
    with a frame in its queue they leave a frame. *)
Lemma popInput_queue s :
  m_frame_queue (popInput s).2 `suffix_of` m_frame_queue s /\
  (m_frame_queue s <> [] -> m_frame_queue (popInput s).2 <> []).
Proof.
  unfold popInput. destruct (negb (m_active s)); [by split|].
  destruct (m_frame_queue s) as [|f [|g rest]] eqn:Eq; simpl.
  - by rewrite Eq.
  - by rewrite Eq.
  - split; [by apply suffix_cons_r | done].
Qed.

Lemma advance_suffix target q : advance target q `suffix_of` q.
Proof.
  destruct q as [|f0 q0]; [done|].
  destruct (advance_spec target (f0 :: q0)) as (dropped & f & rest & Hq & Hadv & _); [done|].
  rewrite Hadv, Hq. by apply suffix_app_r.
Qed.

Lemma get_sync_frame_queue target s :
  m_frame_queue (get_sync_frame target s).2 `suffix_of` m_frame_queue s /\
  (m_frame_queue s <> [] -> m_frame_queue (get_sync_frame target s).2 <> []).
Proof.
  unfold get_sync_frame. destruct (negb (m_active s)); [by split|].
  destruct (m_frame_queue s) as [|f rest] eqn:Eq; [simpl; by rewrite Eq|].
  destruct (target =? -1); [simpl; by rewrite Eq|].
  cbn [snd set_queue m_frame_queue].
  split; [apply advance_suffix | intros _; by apply advance_nonempty].
Qed.

Lemma step_wf NDEBUG k c s s' :
  SoftInput.wf s -> step NDEBUG k c s = Returns s' -> SoftInput.wf s'.
Proof.
  unfold SoftInput.wf. intros Hwf. destruct c; simpl; try (intros [= <-]; done).
  - intros [= <-]. simpl. by intros ->.
  - unfold pushInput. destruct (c_assert _ _); simpl; try done.
    destruct (m_active s) eqn:Hact; simpl; [|intros [= <-] _; by apply Hwf].
    assert (Hov : m_active (overflow k s) = true).
    { unfold overflow. by destruct (Nat.eqb _ _). }
    destruct (getFreeBuffer env); [|intros [= <-]; congruence].
    destruct (negb (convert env)); [intros [= <-]; congruence|].
    intros [= <-]. unfold enqueue. rewrite Hov. simpl. done.
  - intros [= <-]. destruct (popInput_flags s) as (-> & _).
    intros Hoff. destruct (popInput_queue s) as [Hsuf _].
    rewrite (Hwf Hoff) in Hsuf. by apply suffix_nil_inv.
  - intros [= <-]. destruct (get_sync_frame_flags target s) as (-> & _).
    intros Hoff. destruct (get_sync_frame_queue target s) as [Hsuf _].
    rewrite (Hwf Hoff) in Hsuf. by apply suffix_nil_inv.
Qed.

Lemma create_wf : SoftInput.wf SoftInput.create.
Proof. by intros _. Qed.

(** Every input of a compositor is [wf]: so it is constructed, and
    activation and pushes keep it so. *)
Lemma compositor_create_wf maxInput :
  Forall SoftInput.wf (SoftVideoCompositor.m_inputs (SoftVideoCompositor.create maxInput)).
Proof.
  simpl. apply Forall_forall. intros i Hi.
  apply elem_of_replicate in Hi as [-> _]. apply create_wf.
Qed.

Lemma set_input_wf index i c :
  SoftInput.wf i ->
  Forall SoftInput.wf (SoftVideoCompositor.m_inputs c) ->
  Forall SoftInput.wf (SoftVideoCompositor.m_inputs (SoftVideoCompositor.set_input index i c)).
Proof. intros Hi Hc. simpl. by apply Forall_insert. Qed.

Lemma compositor_setActive_wf (active : bool) index c c' :
  Forall SoftInput.wf (SoftVideoCompositor.m_inputs c) ->
  (if active then SoftVideoCompositor.activateInput index c
   else SoftVideoCompositor.deActivateInput index c) = Returns c' ->
  Forall SoftInput.wf (SoftVideoCompositor.m_inputs c').
Proof.
  intros Hc.
  assert (Hset : forall b,
    (i ← SoftVideoCompositor.getInput index c;
     Returns (SoftVideoCompositor.set_input index (setActive b i) c)) = Returns c' ->
    Forall SoftInput.wf (SoftVideoCompositor.m_inputs c')).
  { intros b. unfold SoftVideoCompositor.getInput.
    destruct (SoftVideoCompositor.m_inputs c !! index) as [i|] eqn:Hi; simpl; [|done].
    intros [= <-]. apply set_input_wf; [|done].
    apply (step_wf false 0 (SetActive b) i); [|done]. by eapply Forall_lookup_1. }
  destruct active; apply Hset.
Qed.

Lemma compositor_pushInput_wf NDEBUG k env index frame c c' :
  Forall SoftInput.wf (SoftVideoCompositor.m_inputs c) ->
  SoftVideoCompositor.pushInput NDEBUG k env index frame c = Returns c' ->
  Forall SoftInput.wf (SoftVideoCompositor.m_inputs c').
Proof.
  intros Hc. unfold SoftVideoCompositor.pushInput, SoftVideoCompositor.getInput.
  destruct (SoftVideoCompositor.m_inputs c !! index) as [i|] eqn:Hi; simpl; [|done].
  destruct (pushInput NDEBUG k env frame i) as [i'| | |] eqn:Hpush; simpl; try done.
  intros [= <-]. apply set_input_wf; [|done].
  apply (step_wf NDEBUG k (PushInput env frame) i); [|done]. by eapply Forall_lookup_1.
Qed.

(** Scenario S3 is what five-frame queues give after the pushes. *)
Lemma S3_reached :
  (c1 ← SoftVideoCompositor.activateInput 0 (SoftVideoCompositor.create 2);
   c2 ← SoftVideoCompositor.activateInput 1 c1;
   c3 ← SoftVideoCompositor.pushInput false 5 (S3.pool_ok 100) 0 (S3.pushed FRAME_FORMAT_I420 100) c2;
   c4 ← SoftVideoCompositor.pushInput false 5 (S3.pool_ok 200) 0 (S3.pushed FRAME_FORMAT_I420 200) c3;
   c5 ← SoftVideoCompositor.pushInput false 5 (S3.pool_ok 300) 0 (S3.pushed FRAME_FORMAT_I420 300) c4;
   c6 ← SoftVideoCompositor.pushInput false 5 (S3.pool_ok 400) 0 (S3.pushed FRAME_FORMAT_I420 400) c5;
   c7 ← SoftVideoCompositor.pushInput false 5 (S3.pool_ok 250) 1 (S3.pushed FRAME_FORMAT_I420 250) c6;
   c8 ← SoftVideoCompositor.pushInput false 5 (S3.pool_ok 350) 1 (S3.pushed FRAME_FORMAT_I420 350) c7;
   SoftVideoCompositor.pushInput false 5 (S3.pool_ok 450) 1 (S3.pushed FRAME_FORMAT_I420 450) c8)
  = Returns S3.compositor.
Proof. reflexivity. Qed.

(** The rectangles of a region that covers the canvas are defined
    for a 2 by 2 frame when the canvas is not empty, and without crop
    for an empty canvas too. *)
Lemma paint_full m_crop cw ch index sync :
  0 <= cw < 2 ^ 32 -> 0 <= ch < 2 ^ 32 ->
  (m_crop = true -> cw <> 0 /\ ch <> 0) ->
  exists r,
    SoftFrameGenerator.paint m_crop cw ch (SoftFrameGenerator.mkLayoutEntry index S3.full)
      (Some (mkVideoFrame (S3.image sync)))
    = Returns (Some (SoftFrameGenerator.mkPainted (mkVideoFrame (S3.image sync)) r)).
Proof.
  intros Hcw Hch Hcrop.
  assert (Hclip : Placement.clipped cw ch S3.full = Returns (0, 0, cw, ch)).
  { unfold SoftFrameGenerator.Placement.clipped, SoftFrameGenerator.Placement.scaled,
      SoftFrameGenerator.Placement.wrap64. simpl.
    rewrite !Z.mul_0_r, !Z.mul_1_r, !Z.div_1_r. simpl.
    rewrite (Z.mod_small cw), (Z.mod_small ch) by lia.
    rewrite (wrap32_small cw), (wrap32_small ch) by lia.
    change (wrap32 (0 mod 2 ^ 64)) with 0. rewrite !Z.add_0_l.
    rewrite (wrap32_small cw), (wrap32_small ch) by lia.
    destruct (Z.gtb_spec cw cw); [lia|]. destruct (Z.gtb_spec ch ch); [lia|]. done. }
  unfold SoftFrameGenerator.paint. cbn [video_frame_buffer S3.image buf_width buf_height
                                        SoftFrameGenerator.region].
  change (wrap32 2) with 2.
  unfold SoftFrameGenerator.Placement.geometry, SoftFrameGenerator.Placement.udiv.
  rewrite Hclip. simpl.
  destruct m_crop.
  - destruct (Hcrop eq_refl) as [Hw Hh].
    destruct (Z.eqb_spec ch 0); [lia|]. simpl. destruct (Z.eqb_spec cw 0); [lia|]. simpl.
    by eexists.
  - simpl. by eexists.
Qed.

(** C4, as stated, fails: on the queues of scenario S3 the pass
    computes max_sync = 400, the lesser of the two back timestamps 400
    and 450, not 300; input 0 is left at the frame stamped 400 and
    input 1 at the frame stamped 450, not at 300 and 350. *)
Lemma S3_max_sync_is_not_300 :
  SoftFrameGenerator.sync_range S3.layout (-1, -1) S3.compositor = Returns (250, 400) /\
  (250, 400) <> (250, 300) /\
  exists frames c',
    SoftFrameGenerator.layout_regions true S3.no_files S3.canvas S3.layout S3.compositor
    = Returns (frames, c') /\
    SoftFrameGenerator.pictures frames
    = [Some (mkVideoFrame (S3.image 400)); Some (mkVideoFrame (S3.image 450))] /\
    S3.image 400 <> S3.image 300 /\ S3.image 450 <> S3.image 350 /\
    head <$> S3.stamps c' = [Some 400; Some 450].
Proof.
  split; [reflexivity|]. split; [discriminate|].
  eexists _, _. split; [by vm_compute|]. split; [reflexivity|]. repeat split; discriminate.
Qed.

(** C4, amended. On the queues of scenario S3 the pass computes
    min_sync = 250 and max_sync = 400; both regions show a frame whose
    sync timestamp is at least 400: input 0 advances to the frame
    stamped 400 and input 1 to the frame stamped 450.  This is what
    every pass that returns shows and leaves, with and without crop
    and whatever the canvas; and the pass returns unless it crops into
    a canvas without width or height. *)
Theorem S3_sync_alignment m_crop compositeBuffer :
  SoftFrameGenerator.sync_range S3.layout (-1, -1) S3.compositor = Returns (250, 400) /\
  (forall frames c',
     SoftFrameGenerator.layout_regions m_crop S3.no_files compositeBuffer S3.layout S3.compositor
     = Returns (frames, c') ->
     SoftFrameGenerator.pictures frames
     = [Some (mkVideoFrame (S3.image 400)); Some (mkVideoFrame (S3.image 450))] /\
     S3.stamps c' = [[400]; [450]]) /\
  ((m_crop = true ->
    wrap32 (buf_width compositeBuffer) <> 0 /\ wrap32 (buf_height compositeBuffer) <> 0) ->
   exists frames c',
     SoftFrameGenerator.layout_regions m_crop S3.no_files compositeBuffer S3.layout S3.compositor
     = Returns (frames, c')).
Proof.
  split; [reflexivity|]. split.
  - intros frames c'. unfold SoftFrameGenerator.layout_regions.
    change (SoftFrameGenerator.sync_range S3.layout (-1, -1) S3.compositor)
      with (Returns (A := Z * Z) (250, 400)).
    cbn [mbind outcome_bind]. intros Hplace.
    apply place_cons_inv in Hplace
      as (frame0 & c1 & painted0 & frames1 & Hfetch0 & Hpaint0 & Hplace & ->).
    vm_compute in Hfetch0. injection Hfetch0 as <- <-.
    apply place_cons_inv in Hplace
      as (frame1 & c2 & painted1 & frames2 & Hfetch1 & Hpaint1 & Hplace & ->).
    vm_compute in Hfetch1. injection Hfetch1 as <- <-.
    injection Hplace as <- <-.
    apply paint_picture in Hpaint0 as [Hp0 _]. apply paint_picture in Hpaint1 as [Hp1 _].
    split; [|reflexivity].
    unfold SoftFrameGenerator.pictures. rewrite !fmap_cons, Hp0, Hp1. reflexivity.
  - intros Hcrop.
    pose proof (wrap32_range (buf_width compositeBuffer)) as Hwr.
    pose proof (wrap32_range (buf_height compositeBuffer)) as Hhr.
    destruct (paint_full m_crop (wrap32 (buf_width compositeBuffer))
                (wrap32 (buf_height compositeBuffer)) 0 400) as [r0 Hr0]; [lia | lia | done |].
    destruct (paint_full m_crop (wrap32 (buf_width compositeBuffer))
                (wrap32 (buf_height compositeBuffer)) 1 450) as [r1 Hr1]; [lia | lia | done |].
    eexists _, _. unfold SoftFrameGenerator.layout_regions.
    change (SoftFrameGenerator.sync_range S3.layout (-1, -1) S3.compositor)
      with (Returns (A := Z * Z) (250, 400)).
    cbn [mbind outcome_bind].
    eapply place_cons_eq; [reflexivity | exact Hr0 |].
    eapply place_cons_eq; [reflexivity | exact Hr1 | reflexivity].
Qed.

Lemma S3_sync_alignment_witness :
  SoftFrameGenerator.sync_range S3.layout (-1, -1) S3.compositor = Returns (250, 400) /\
  exists frames c',
    SoftFrameGenerator.layout_regions true S3.no_files S3.canvas S3.layout S3.compositor
    = Returns (frames, c') /\
    SoftFrameGenerator.pictures frames
    = [Some (mkVideoFrame (S3.image 400)); Some (mkVideoFrame (S3.image 450))] /\
    S3.stamps c' = [[400]; [450]].
Proof.
  destruct (S3_sync_alignment true S3.canvas) as (Hrange & Hshown & Hreturns).
  split; [exact Hrange|].
  destruct Hreturns as (frames & c' & Hpass); [intros _; split; discriminate|].
  exists frames, c'. split; [exact Hpass|]. by apply Hshown.
Defined.

(** ** The composition pass: what a sync-capable region shows *)

Lemma isSyncEnabled_flags i i' :
  m_sync_enabled i' = m_sync_enabled i ->
  m_frame_sync_enabled i' = m_frame_sync_enabled i ->
  isSyncEnabled i' = isSyncEnabled i.
Proof. unfold isSyncEnabled. by intros -> ->. Qed.

Lemma popInput_later i0 i : SyncTarget.later i0 i -> SyncTarget.later i0 (popInput i).2.
Proof.
  intros [(Hact & Hsync & Hq) Hsuf].
  destruct (popInput_flags i) as (Ha & Hs & Hf).
  destruct (popInput_queue i) as [Hsuf' Hq'].
  repeat split.
  - congruence.
  - by rewrite (isSyncEnabled_flags i _ Hs Hf).
  - by apply Hq'.
  - by etrans.
Qed.

Lemma get_sync_frame_later target i0 i :
  SyncTarget.later i0 i -> SyncTarget.later i0 (get_sync_frame target i).2.
Proof.
  intros [(Hact & Hsync & Hq) Hsuf].
  destruct (get_sync_frame_flags target i) as (Ha & Hs & Hf).
  destruct (get_sync_frame_queue target i) as [Hsuf' Hq'].
  repeat split.
  - congruence.
  - by rewrite (isSyncEnabled_flags i _ Hs Hf).
  - by apply Hq'.
  - by etrans.
Qed.

Lemma avatar_frame_inputs fs index c src c' :
  SoftVideoCompositor.avatar_frame fs index c = Returns (src, c') ->
  SoftVideoCompositor.m_inputs c' = SoftVideoCompositor.m_inputs c.
Proof.
  unfold SoftVideoCompositor.avatar_frame.
  destruct (AvatarManager.getAvatarFrame _ _ _) as [[s a]| | |]; simpl; try done.
  by intros [= _ <-].
Qed.

(** What a hook that returns can have done to the inputs: nothing, or
    replaced the input it was asked about by the one [popInput] or
    [get_sync_frame] leaves. *)
Lemma hook_inputs fs m index c frame c' :
  SyncTarget.hook fs m index c = Returns (frame, c') ->
  exists i,
    SoftVideoCompositor.m_inputs c !! index = Some i /\
    (SoftVideoCompositor.m_inputs c' = SoftVideoCompositor.m_inputs c \/
     exists i', SoftVideoCompositor.m_inputs c' = <[index := i']> (SoftVideoCompositor.m_inputs c) /\
                (i' = (popInput i).2 \/ exists target, i' = (get_sync_frame target i).2)).
Proof.
  assert (Hpop : forall i,
    SoftVideoCompositor.m_inputs c !! index = Some i ->
    (let '(src, input') := popInput i in
     Returns (src, SoftVideoCompositor.set_input index input' c)) = Returns (frame, c') ->
    exists i', SoftVideoCompositor.m_inputs c' = <[index := i']> (SoftVideoCompositor.m_inputs c) /\
               (i' = (popInput i).2 \/ exists target, i' = (get_sync_frame target i).2)).
  { intros i Hi. destruct (popInput i) as [src input'] eqn:Hp. intros [= <- <-].
    exists input'. split; [done|]. by left. }
  assert (Hsync : forall target i,
    SoftVideoCompositor.getSyncInputFrame fs index target c = Returns (frame, c') ->
    SoftVideoCompositor.m_inputs c !! index = Some i ->
    SoftVideoCompositor.m_inputs c' = SoftVideoCompositor.m_inputs c \/
    exists i', SoftVideoCompositor.m_inputs c' = <[index := i']> (SoftVideoCompositor.m_inputs c) /\
               (i' = (popInput i).2 \/ exists target, i' = (get_sync_frame target i).2)).
  { intros target i. unfold SoftVideoCompositor.getSyncInputFrame, SoftVideoCompositor.getInput.
    intros Hret Hi. rewrite Hi in Hret. simpl in Hret.
    destruct (negb (isActive i)); [left; by eapply avatar_frame_inputs|].
    destruct (negb (isSyncEnabled i)); [right; by apply Hpop|].
    destruct (get_sync_frame target i) as [input_frame input'] eqn:Hg.
    injection Hret as _ <-. right. exists input'. split; [done|].
    right. exists target. by rewrite Hg. }
  destruct (SoftVideoCompositor.m_inputs c !! index) as [i|] eqn:Hi; cycle 1.
  { destruct m; simpl;
      unfold SoftVideoCompositor.getInputFrame, SoftVideoCompositor.getSyncInputFrame,
             SoftVideoCompositor.getInput; by rewrite Hi. }
  intros Hret. exists i. split; [done|].
  destruct m; simpl in Hret; [|by eapply Hsync..].
  unfold SoftVideoCompositor.getInputFrame, SoftVideoCompositor.getInput in Hret.
  rewrite Hi in Hret. simpl in Hret.
  destruct (isActive i); [right; by apply Hpop|].
  left. by eapply avatar_frame_inputs.
Qed.

Lemma hook_keeps fs m index c frame c' :
  SyncTarget.hook fs m index c = Returns (frame, c') ->
  length (SoftVideoCompositor.m_inputs c') = length (SoftVideoCompositor.m_inputs c) /\
  forall k i0 i,
    SoftVideoCompositor.m_inputs c !! k = Some i -> SyncTarget.later i0 i ->
    exists i', SoftVideoCompositor.m_inputs c' !! k = Some i' /\ SyncTarget.later i0 i'.
Proof.
  intros Hret. destruct (hook_inputs _ _ _ _ _ _ Hret) as (ij & Hij & [-> | (i' & -> & Hi')]).
  - split; [done|]. intros k i0 i Hk Hl. by exists i.
  - split; [by rewrite length_insert|]. intros k i0 i Hk Hl.
    destruct (decide (k = index)) as [->|Hne].
    + exists i'. split.
      * apply list_lookup_insert_eq. by eapply lookup_lt_Some.
      * assert (i = ij) as -> by congruence.
        destruct Hi' as [-> | [target ->]];
          [by apply popInput_later | by apply get_sync_frame_later].
    + exists i. split; [|done]. by rewrite list_lookup_insert_ne.
Qed.

(** Over the regions of a pass that returns, a sync-capable input
    stays sync-capable and its queue only loses frames at the front. *)
Lemma place_later m_crop cw ch fs m regions c frames c' :
  SoftFrameGenerator.place m_crop cw ch (SyncTarget.hook fs m) regions c = Returns (frames, c') ->
  length frames = length regions /\
  length (SoftVideoCompositor.m_inputs c') = length (SoftVideoCompositor.m_inputs c) /\
  forall k i0 i,
    SoftVideoCompositor.m_inputs c !! k = Some i -> SyncTarget.later i0 i ->
    exists i', SoftVideoCompositor.m_inputs c' !! k = Some i' /\ SyncTarget.later i0 i'.
Proof.
  revert c frames. induction regions as [|it regions IH]; intros c frames Hplace.
  - injection Hplace as <- <-. repeat split. intros k i0 i Hk Hl. by exists i.
  - destruct (place_cons_inv _ _ _ _ _ _ _ _ _ Hplace)
      as (frame & c1 & painted & frames' & Hfetch & Hpaint & Hrest & ->).
    destruct (hook_keeps _ _ _ _ _ _ Hfetch) as [Hlen Hkeep].
    destruct (IH c1 frames' Hrest) as (Hlen1 & Hlen2 & Hkeep').
    repeat split; [simpl; by rewrite Hlen1 | congruence |].
    intros k i0 i Hk Hl. destruct (Hkeep k i0 i Hk Hl) as (i1 & Hk1 & Hl1). eauto.
Qed.

Lemma place_app m_crop cw ch fetch pre post c :
  SoftFrameGenerator.place m_crop cw ch fetch (pre ++ post) c =
  '(frames1, c1) ← SoftFrameGenerator.place m_crop cw ch fetch pre c;
  '(frames2, c2) ← SoftFrameGenerator.place m_crop cw ch fetch post c1;
  Returns (frames1 ++ frames2, c2).
Proof.
  revert c. induction pre as [|it pre IH]; intros c; simpl.
  - destruct (SoftFrameGenerator.place m_crop cw ch fetch post c) as [[frames2 c2]| | |]; done.
  - destruct (fetch _ c) as [[frame c']| | |]; simpl; try done.
    destruct (SoftFrameGenerator.paint m_crop cw ch it frame) as [painted| | |]; simpl; try done.
    rewrite IH.
    destruct (SoftFrameGenerator.place m_crop cw ch fetch pre c') as [[frames1 c1]| | |];
      simpl; try done.
    destruct (SoftFrameGenerator.place m_crop cw ch fetch post c1) as [[frames2 c2]| | |]; done.
Qed.

(** A pass that returns, taken apart at one of its regions. *)
Lemma place_middle m_crop cw ch fetch pre it post c frames c' :
  SoftFrameGenerator.place m_crop cw ch fetch (pre ++ it :: post) c = Returns (frames, c') ->
  exists shown c1 frame c2 painted shown',
    SoftFrameGenerator.place m_crop cw ch fetch pre c = Returns (shown, c1) /\
    fetch (SoftFrameGenerator.input it) c1 = Returns (frame, c2) /\
    SoftFrameGenerator.paint m_crop cw ch it frame = Returns painted /\
    SoftFrameGenerator.place m_crop cw ch fetch post c2 = Returns (shown', c') /\
    frames = shown ++ painted :: shown'.
Proof.
  rewrite place_app. intros Hplace.
  apply outcome_bind_inv in Hplace as ([shown c1] & Hpre & Hplace).
  apply outcome_bind_inv in Hplace as ([frames2 c2'] & Hpost & Hplace).
  injection Hplace as <- <-.
  destruct (place_cons_inv _ _ _ _ _ _ _ _ _ Hpost)
    as (frame & c2 & painted & shown' & Hfetch & Hpaint & Hrest & ->).
  by exists shown, c1, frame, c2, painted, shown'.
Qed.

Lemma pictures_middle shown painted shown' :
  SoftFrameGenerator.pictures (shown ++ painted :: shown') !! length shown
  = Some (SoftFrameGenerator.picture <$> painted).
Proof.
  unfold SoftFrameGenerator.pictures. rewrite fmap_app, fmap_cons.
  rewrite <- (length_fmap (fmap SoftFrameGenerator.picture) shown).
  apply list_lookup_middle. done.
Qed.

(** [getSyncInputFrame] with a target other than -1 on a sync-capable
    input: the frame shown is the new front of its queue and has
    reached the target, unless it is the only frame left. *)
Lemma getSyncInputFrame_capable fs index target c i :
  target <> -1 ->
  SoftVideoCompositor.m_inputs c !! index = Some i ->
  SyncTarget.capable i ->
  exists f rest,
    SoftVideoCompositor.getSyncInputFrame fs index target c
    = Returns (Some (mkVideoFrame (buffer f)),
               SoftVideoCompositor.set_input index (set_queue (f :: rest) i) c) /\
    f :: rest `suffix_of` m_frame_queue i /\
    (target <= sync_timeStamp f \/ rest = []).
Proof.
  intros Hne Hi (Hact & Hsync & Hq).
  unfold SoftVideoCompositor.getSyncInputFrame, SoftVideoCompositor.getInput. rewrite Hi. simpl.
  unfold isActive. rewrite Hact, Hsync. simpl.
  unfold get_sync_frame. rewrite Hact. simpl.
  destruct (m_frame_queue i) as [|f0 q0] eqn:Eq; [done|].
  destruct (Z.eqb_spec target (-1)); [done|].
  destruct (advance_spec target (f0 :: q0)) as (dropped & f & rest & Hsplit & Hadv & _ & Hstop);
    [done|].
  exists f, rest. rewrite Hadv. simpl. split; [done|]. split; [|done].
  rewrite Hsplit. by apply suffix_app_r.
Qed.

(** What a pass in sync mode that returns has done at a region whose
    input was sync-capable when the pass started. *)
Lemma sync_region_served m_crop cw ch fs target pre it post c i frames c' :
  target <> -1 ->
  SoftVideoCompositor.m_inputs c !! SoftFrameGenerator.input it = Some i ->
  SyncTarget.capable i ->
  SoftFrameGenerator.place m_crop cw ch (SyncTarget.hook fs (SyncTarget.Sync target))
    (pre ++ it :: post) c = Returns (frames, c') ->
  exists shown c1 i1 f rest,
    SoftFrameGenerator.place m_crop cw ch (SyncTarget.hook fs (SyncTarget.Sync target)) pre c
    = Returns (shown, c1) /\
    length shown = length pre /\
    SoftVideoCompositor.m_inputs c1 !! SoftFrameGenerator.input it = Some i1 /\
    SoftVideoCompositor.getSyncInputFrame fs (SoftFrameGenerator.input it) target c1
    = Returns (Some (mkVideoFrame (buffer f)),
               SoftVideoCompositor.set_input (SoftFrameGenerator.input it)
                                             (set_queue (f :: rest) i1) c1) /\
    SoftFrameGenerator.pictures frames !! length pre = Some (Some (mkVideoFrame (buffer f))) /\
    f :: rest `suffix_of` m_frame_queue i /\
    (target <= sync_timeStamp f \/ rest = []).
Proof.
  intros Hne Hi Hcap Hplace.
  destruct (place_middle _ _ _ _ _ _ _ _ _ _ Hplace)
    as (shown & c1 & frame & c2 & painted & shown' & Hpre & Hfetch & Hpaint & Hpost & ->).
  destruct (place_later _ _ _ _ _ _ _ _ _ Hpre) as (Hlen & _ & Hkeep).
  destruct (Hkeep _ i i Hi) as (i1 & Hi1 & Hcap1 & Hsuf1); [by split|].
  destruct (getSyncInputFrame_capable fs _ target c1 i1 Hne Hi1 Hcap1)
    as (f & rest & Hget & Hsuf & Hstop).
  change (SyncTarget.hook fs (SyncTarget.Sync target) (SoftFrameGenerator.input it) c1)
    with (SoftVideoCompositor.getSyncInputFrame fs (SoftFrameGenerator.input it) target c1)
    in Hfetch.
  rewrite Hget in Hfetch. injection Hfetch as <- <-.
  exists shown, c1, i1, f, rest. repeat (split; [done|]). split; [|split; [by etrans | done]].
  rewrite <- Hlen, pictures_middle. by rewrite (proj1 (paint_picture _ _ _ _ _ _ Hpaint)).
Qed.

(** C5. In a pass that runs in sync mode with window [min_sync,
    max_sync] and returns, every region whose input is sync-capable
    when the pass starts (active, sync enabled, a frame queued) is
    given a frame of that input's queue which is the front of the
    queue once the region has been served, and whose sync timestamp is
    at least max_sync unless it is the one frame left in the queue,
    the still image. *)
Theorem sync_mode_region m_crop fs compositeBuffer c pre it post min_sync max_sync i frames c' :
  SoftFrameGenerator.sync_range (pre ++ it :: post) (-1, -1) c = Returns (min_sync, max_sync) ->
  SyncTarget.mode_of min_sync max_sync = SyncTarget.Sync max_sync ->
  SoftVideoCompositor.m_inputs c !! SoftFrameGenerator.input it = Some i ->
  SyncTarget.capable i ->
  SoftFrameGenerator.layout_regions m_crop fs compositeBuffer (pre ++ it :: post) c
  = Returns (frames, c') ->
  exists shown c1 c2 f rest,
    SoftFrameGenerator.pictures frames !! length pre = Some (Some (mkVideoFrame (buffer f))) /\
    SoftFrameGenerator.place m_crop (wrap32 (buf_width compositeBuffer))
      (wrap32 (buf_height compositeBuffer))
      (SoftFrameGenerator.inputFrame fs (min_sync, max_sync)) pre c
    = Returns (shown, c1) /\
    SoftFrameGenerator.inputFrame fs (min_sync, max_sync) (SoftFrameGenerator.input it) c1
    = Returns (Some (mkVideoFrame (buffer f)), c2) /\
    (exists i2, SoftVideoCompositor.m_inputs c2 !! SoftFrameGenerator.input it = Some i2 /\
                m_frame_queue i2 = f :: rest) /\
    f :: rest `suffix_of` m_frame_queue i /\
    (max_sync <= sync_timeStamp f \/ rest = []).
Proof.
  intros Hsync Hmode Hi Hcap Hpass.
  assert (Hne : max_sync <> -1).
  { unfold SyncTarget.mode_of in Hmode. by destruct (Z.eqb_spec max_sync (-1)). }
  assert (Hhook : forall regions c0,
    SoftFrameGenerator.place m_crop (wrap32 (buf_width compositeBuffer))
      (wrap32 (buf_height compositeBuffer))
      (SoftFrameGenerator.inputFrame fs (min_sync, max_sync)) regions c0
    = SoftFrameGenerator.place m_crop (wrap32 (buf_width compositeBuffer))
        (wrap32 (buf_height compositeBuffer))
        (SyncTarget.hook fs (SyncTarget.Sync max_sync)) regions c0).
  { intros regions c0. apply place_ext. intros index c''.
    by rewrite inputFrame_hook, Hmode. }
  unfold SoftFrameGenerator.layout_regions in Hpass. rewrite Hsync in Hpass. simpl in Hpass.
  rewrite Hhook in Hpass.
  destruct (sync_region_served _ _ _ _ _ _ _ _ _ _ _ _ Hne Hi Hcap Hpass)
    as (shown & c1 & i1 & f & rest & Hpre & Hlen & Hi1 & Hget & Hshown & Hsuf & Hstop).
  exists shown, c1,
    (SoftVideoCompositor.set_input (SoftFrameGenerator.input it) (set_queue (f :: rest) i1) c1),
    f, rest.
  split; [done|]. split; [by rewrite Hhook|]. split; [by rewrite inputFrame_hook, Hmode|].
  split; [|done].
  exists (set_queue (f :: rest) i1). split; [|done].
  simpl. apply list_lookup_insert_eq. by eapply lookup_lt_Some.
Qed.

Lemma sync_mode_region_witness :
  exists frames c',
    SoftFrameGenerator.layout_regions true S3.no_files S3.canvas S3.layout S3.compositor
    = Returns (frames, c') /\
    exists shown c1 c2 f rest,
      SoftFrameGenerator.pictures frames !! 1%nat = Some (Some (mkVideoFrame (buffer f))) /\
      SoftFrameGenerator.place true (wrap32 (buf_width S3.canvas)) (wrap32 (buf_height S3.canvas))
        (SoftFrameGenerator.inputFrame S3.no_files (250, 400))
        [SoftFrameGenerator.mkLayoutEntry 0 S3.full] S3.compositor
      = Returns (shown, c1) /\
      SoftFrameGenerator.inputFrame S3.no_files (250, 400) 1%nat c1
      = Returns (Some (mkVideoFrame (buffer f)), c2) /\
      (exists i2, SoftVideoCompositor.m_inputs c2 !! 1%nat = Some i2 /\
                  m_frame_queue i2 = f :: rest) /\
      f :: rest `suffix_of` m_frame_queue (S3.input_with [250; 350; 450]) /\
      (400 <= sync_timeStamp f \/ rest = []).
Proof.
  eexists _, _. split; [by vm_compute|].
  eapply (sync_mode_region true S3.no_files S3.canvas S3.compositor
           [SoftFrameGenerator.mkLayoutEntry 0 S3.full]
           (SoftFrameGenerator.mkLayoutEntry 1 S3.full) [] 250 400
           (S3.input_with [250; 350; 450])).
  - reflexivity.
  - reflexivity.
  - reflexivity.
  - repeat split; discriminate.
  - by vm_compute.
Defined.

(** ** SoftFrameGenerator: the supported frame rates *)

Lemma pow2_pos (k : nat) : 0 < 2 ^ Z.of_nat k.
Proof. apply Z.pow_pos_nonneg; lia. Qed.

Lemma pow2_succ (k : nat) : 2 ^ Z.of_nat (S k) = 2 * 2 ^ Z.of_nat k.
Proof. rewrite Nat2Z.inj_succ, Z.pow_succ_r; lia. Qed.

(** Leaving out the first rate of a band. *)
Lemma member_step maxFps n fps :
  0 < n -> fps <> n ->
  (FpsBand.member maxFps (n * 2) fps <-> FpsBand.member maxFps n fps).
Proof.
  intros Hn Hne. unfold FpsBand.member. split.
  - intros (k & -> & Hle). exists (S k). rewrite pow2_succ. split; lia.
  - intros (k & -> & Hle). destruct k as [|k].
    + exfalso. apply Hne. simpl. lia.
    + exists k. rewrite pow2_succ in *. split; lia.
Qed.

Lemma member_above maxFps n fps : 0 < n -> maxFps < n -> ~ FpsBand.member maxFps n fps.
Proof.
  intros Hn Hlt (k & -> & Hle). pose proof (pow2_pos k). nia.
Qed.

(** The loop of [isSupported], with fuel for every round it can make:
    it answers whether [fps] is one of [n], [2n], [4n], ... up to
    [maxFps]. *)
Lemma doubling_member fuel n fps maxFps :
  0 < n -> maxFps < 2 ^ 31 -> maxFps < n * 2 ^ Z.of_nat fuel ->
  exists b, SoftFrameGenerator.doubling (S fuel) n fps maxFps = Returns b /\
            (b = true <-> FpsBand.member maxFps n fps).
Proof.
  revert n. induction fuel as [|fuel IH]; intros n Hn Hmax Hfuel.
  - simpl in *. destruct (Z.leb_spec n maxFps); [lia|].
    exists false. split; [done|]. split; [done|].
    intros Hm. by apply member_above in Hm; [|lia..].
  - cbn [SoftFrameGenerator.doubling].
    destruct (Z.leb_spec n maxFps) as [Hle|Hgt].
    + destruct (Z.eqb_spec n fps) as [->|Hne].
      * exists true. split; [done|]. split; [|done]. intros _. exists O. simpl. lia.
      * rewrite wrap32_small by lia.
        destruct (IH (n * 2)) as (b & Hb & Hiff); [lia | lia | |].
        { rewrite pow2_succ in Hfuel. lia. }
        exists b. split; [exact Hb|]. rewrite Hiff. apply member_step; [lia | congruence].
    + exists false. split; [done|]. split; [done|].
      intros Hm. by apply member_above in Hm; [|lia..].
Qed.

(** The loop of the constructor, with fuel for every round: it ends on
    [maxFps] when the band is exact and above [maxFps] when it is not. *)
Lemma quantize_exact fuel n maxFps :
  0 < n -> maxFps < 2 ^ 31 -> maxFps < n * 2 ^ Z.of_nat fuel ->
  exists fps, SoftFrameGenerator.quantize (S fuel) n maxFps = Returns fps /\
              (FpsBand.exact_power_of_two maxFps n -> fps = maxFps) /\
              (~ FpsBand.exact_power_of_two maxFps n -> maxFps < fps).
Proof.
  revert n. induction fuel as [|fuel IH]; intros n Hn Hmax Hfuel.
  - simpl in *. destruct (Z.leb_spec n maxFps); [lia|].
    exists n. split; [done|]. split; [|lia].
    intros (k & ->). pose proof (pow2_pos k). nia.
  - cbn [SoftFrameGenerator.quantize].
    destruct (Z.leb_spec n maxFps) as [Hle|Hgt].
    + destruct (Z.eqb_spec n maxFps) as [->|Hne].
      * exists maxFps. split; [done|]. split; [done|].
        intros Hno. exfalso. apply Hno. exists O. simpl. lia.
      * rewrite wrap32_small by lia.
        destruct (IH (n * 2)) as (fps & Hfps & Hyes & Hno); [lia | lia | |].
        { rewrite pow2_succ in Hfuel. lia. }
        exists fps. split; [exact Hfps|]. split.
        -- intros (k & Hk). apply Hyes. destruct k as [|k].
           ++ exfalso. apply Hne. simpl in Hk. lia.
           ++ exists k. rewrite pow2_succ in Hk. lia.
        -- intros Hnot. apply Hno. intros (k & Hk). apply Hnot.
           exists (S k). rewrite pow2_succ. lia.
    + exists n. split; [done|]. split; [|lia].
      intros (k & ->). pose proof (pow2_pos k). nia.
Qed.

Lemma fuel_enough fuel n maxFps :
  (33 <= fuel)%nat -> 0 < n -> maxFps < 2 ^ 31 ->
  exists fuel', fuel = S fuel' /\ maxFps < n * 2 ^ Z.of_nat fuel'.
Proof.
  intros Hfuel Hn Hmax. destruct fuel as [|fuel']; [lia|]. exists fuel'. split; [done|].
  assert (2 ^ 32 <= 2 ^ Z.of_nat fuel') by (apply Z.pow_le_mono_r; lia).
  nia.
Qed.

Lemma isSupported_exact fuel w h fps g :
  (33 <= fuel)%nat ->
  0 < SoftFrameGenerator.m_minSupportedFps g ->
  SoftFrameGenerator.m_maxSupportedFps g < 2 ^ 31 ->
  exists b,
    SoftFrameGenerator.isSupported fuel w h fps g = Returns b /\
    (b = true <-> FpsBand.member (SoftFrameGenerator.m_maxSupportedFps g)
                                 (SoftFrameGenerator.m_minSupportedFps g) fps).
Proof.
  intros Hfuel Hmin Hmax. unfold SoftFrameGenerator.isSupported.
  destruct (Z.gtb_spec fps (SoftFrameGenerator.m_maxSupportedFps g)) as [Hgt|Hle]; simpl.
  { exists false. split; [done|]. split; [done|]. intros (k & _ & Hk). lia. }
  destruct (Z.ltb_spec fps (SoftFrameGenerator.m_minSupportedFps g)) as [Hlt|Hge].
  { exists false. split; [done|]. split; [done|].
    intros (k & -> & _). pose proof (pow2_pos k). nia. }
  destruct (fuel_enough fuel _ _ Hfuel Hmin Hmax) as (fuel' & -> & Hfuel').
  by apply doubling_member.
Qed.

(** A zero rate is doubled for ever. *)
Lemma doubling_zero fuel fps maxFps :
  0 <= maxFps -> fps <> 0 -> SoftFrameGenerator.doubling fuel 0 fps maxFps = OutOfFuel.
Proof.
  intros Hmax Hfps. induction fuel as [|fuel IH]; [done|].
  cbn [SoftFrameGenerator.doubling].
  destruct (Z.leb_spec 0 maxFps); [|lia].
  destruct (Z.eqb_spec 0 fps); [congruence|]. exact IH.
Qed.

(** C7, as stated, fails in two places.  With maxFps = 2^31 and
    minFps = 2^30 the ratio is two, yet asking [isSupported] for the
    rate 2^30 + 1 never returns: the doubled rate wraps to zero and
    stays below maxFps with whatever fuel.  And when [maxFps / minFps]
    is read as the quotient the code computes, maxFps = 31 and
    minFps = 15 give two, a power of two, but the generator falls back
    to maxFps = 15 and refuses the rate 30 = 15 * 2 <= 31. *)
Lemma isSupported_band_counterexample :
  (FpsBand.exact_power_of_two (2 ^ 31) (2 ^ 30) /\
   exists g, SoftFrameGenerator.create 33 (2 ^ 31) (2 ^ 30) = Returns g /\
             forall fuel, SoftFrameGenerator.isSupported fuel 640 480 (2 ^ 30 + 1) g = OutOfFuel) /\
  (31 / 15 = 2 ^ 1 /\ FpsBand.member 31 15 30 /\
   exists g, SoftFrameGenerator.create 33 31 15 = Returns g /\
             SoftFrameGenerator.m_maxSupportedFps g = 15 /\
             SoftFrameGenerator.isSupported 33 640 480 30 g = Returns false).
Proof.
  split.
  - split; [by exists 1%nat|].
    exists (SoftFrameGenerator.mk (2 ^ 31) (2 ^ 30) 0 2 [[]; []]).
    split; [by vm_compute|]. intros fuel.
    destruct fuel as [|[|fuel]]; [reflexivity | reflexivity |].
    transitivity (SoftFrameGenerator.doubling fuel 0 (2 ^ 30 + 1) (2 ^ 31)); [reflexivity|].
    apply doubling_zero; lia.
  - split; [reflexivity|]. split; [by exists 1%nat|].
    exists (SoftFrameGenerator.mk 15 15 0 1 [[]]).
    split; [by vm_compute|]. split; reflexivity.
Qed.

(** C7, amended. For 0 < minFps and maxFps < 2^31 the constructor
    returns.  If maxFps is exactly minFps times a power of two the
    generator keeps maxFps and [isSupported] returns true exactly for
    the rates minFps * 2^k that do not exceed maxFps; otherwise the
    generator sets maxFps to minFps and only minFps is supported. *)
Theorem fps_quantization fuel maxFps minFps :
  0 < minFps -> maxFps < 2 ^ 31 -> (33 <= fuel)%nat ->
  exists g,
    SoftFrameGenerator.create fuel maxFps minFps = Returns g /\
    SoftFrameGenerator.m_minSupportedFps g = minFps /\
    (FpsBand.exact_power_of_two maxFps minFps ->
     SoftFrameGenerator.m_maxSupportedFps g = maxFps /\
     forall w h fps, exists b,
       SoftFrameGenerator.isSupported fuel w h fps g = Returns b /\
       (b = true <-> FpsBand.member maxFps minFps fps)) /\
    (~ FpsBand.exact_power_of_two maxFps minFps ->
     SoftFrameGenerator.m_maxSupportedFps g = minFps /\
     forall w h fps, exists b,
       SoftFrameGenerator.isSupported fuel w h fps g = Returns b /\
       (b = true <-> fps = minFps)).
Proof.
  intros Hmin Hmax Hfuel.
  destruct (fuel_enough fuel _ _ Hfuel Hmin Hmax) as (fuel' & Hf & Hfuel').
  destruct (quantize_exact fuel' minFps maxFps Hmin Hmax Hfuel') as (q & Hq & Hyes & Hno).
  unfold SoftFrameGenerator.create. rewrite Hf, Hq. simpl.
  destruct (Z.eqb_spec minFps 0); [lia|].
  eexists. split; [reflexivity|]. split; [done|]. simpl. split.
  - intros Hexact. rewrite (Hyes Hexact).
    destruct (Z.gtb_spec maxFps maxFps); [lia|]. split; [done|].
    intros w h fps. rewrite <- Hf.
    match goal with |- context [SoftFrameGenerator.isSupported _ _ _ _ ?g] =>
      destruct (isSupported_exact fuel w h fps g Hfuel Hmin Hmax) as (b & Hb & Hiff) end.
    by exists b.
  - intros Hnot. pose proof (Hno Hnot) as Hlt.
    destruct (Z.gtb_spec q maxFps); [|lia]. split; [done|].
    intros w h fps. unfold SoftFrameGenerator.isSupported. simpl.
    destruct (Z.gtb_spec fps minFps); simpl.
    { exists false. split; [done|]. split; [done | lia]. }
    destruct (Z.ltb_spec fps minFps).
    { exists false. split; [done|]. split; [done | lia]. }
    assert (fps = minFps) as -> by lia.
    destruct (Z.leb_spec minFps minFps); [|lia]. rewrite Z.eqb_refl. by exists true.
Qed.

Lemma not_exact_31_15 : ~ FpsBand.exact_power_of_two 31 15.
Proof.
  intros (k & Hk). lia.
Qed.

Lemma fps_quantization_witness :
  (exists g,
     SoftFrameGenerator.create 33 60 15 = Returns g /\
     SoftFrameGenerator.m_maxSupportedFps g = 60 /\
     exists b, SoftFrameGenerator.isSupported 33 640 480 30 g = Returns b /\
               (b = true <-> FpsBand.member 60 15 30)) /\
  (exists g,
     SoftFrameGenerator.create 33 31 15 = Returns g /\
     SoftFrameGenerator.m_maxSupportedFps g = 15 /\
     exists b, SoftFrameGenerator.isSupported 33 640 480 30 g = Returns b /\
               (b = true <-> 30 = 15)).
Proof.
  split.
  - destruct (fps_quantization 33 60 15) as (g & Hg & _ & Hexact & _); [lia | lia | lia |].
    exists g. split; [exact Hg|].
    destruct Hexact as [Hkeep Hsupp]; [by exists 2%nat|].
    split; [exact Hkeep | apply Hsupp].
  - destruct (fps_quantization 33 31 15) as (g & Hg & _ & _ & Hdegrade); [lia | lia | lia |].
    exists g. split; [exact Hg|].
    destruct (Hdegrade not_exact_31_15) as [Hmin Hsupp].
    split; [exact Hmin | apply Hsupp].
Defined.

(** ** AvatarManager: a failed load stays cached *)

Lemma referenced_bound url inputs :
  AvatarManager.referenced url inputs = true <-> exists index, inputs !! index = Some url.
Proof.
  unfold AvatarManager.referenced. rewrite existsb_exists. split.
  - intros ([index url'] & Hin & Heq). apply String.eqb_eq in Heq. simpl in Heq. subst url'.
    exists index. apply elem_of_map_to_list. by apply list_elem_of_In.
  - intros (index & Hi). exists (index, url). split.
    + apply list_elem_of_In. by apply elem_of_map_to_list.
    + apply String.eqb_refl.
Qed.

(** A call after which [u] is still bound leaves the entry of [u] in
    [m_frames] alone. *)
Lemma step_keeps_cached u c s s' :
  AvatarManager.m_frames s !! u = Some None ->
  AvatarManager.step c s = Returns s' ->
  AvatarManager.bound u s' ->
  AvatarManager.m_frames s' !! u = Some None.
Proof.
  intros Hcached. destruct c as [index url | index | fs index]; simpl.
  - intros [= <-]. unfold AvatarManager.setAvatar.
    destruct (AvatarManager.m_inputs s !! index) as [old_url|]; [|done].
    destruct (String.eqb old_url url); [done|].
    destruct (AvatarManager.referenced old_url _) eqn:Href; [done|]. simpl.
    intros Hbound. rewrite lookup_delete_ne; [done|]. intros ->.
    unfold AvatarManager.bound in Hbound. simpl in Hbound.
    apply (proj2 (referenced_bound _ _)) in Hbound. congruence.
  - intros [= <-]. unfold AvatarManager.unsetAvatar.
    destruct (AvatarManager.m_inputs s !! index) as [url|]; [|done].
    destruct (AvatarManager.referenced url _) eqn:Href; [done|]. simpl.
    intros Hbound. rewrite lookup_delete_ne; [done|]. intros ->.
    unfold AvatarManager.bound in Hbound. simpl in Hbound.
    apply (proj2 (referenced_bound _ _)) in Hbound. congruence.
  - unfold AvatarManager.getAvatarFrame.
    destruct (AvatarManager.m_inputs s !! index) as [url|]; [|by intros [= <-]].
    destruct (AvatarManager.m_frames s !! url) as [cached|] eqn:Hurl; [by intros [= <-]|].
    destruct (AvatarManager.loadImage fs url) as [frame| | |]; simpl; try done.
    intros [= <-] _. simpl. rewrite lookup_insert_ne; [done|]. congruence.
Qed.

Lemma steps_keep_cached u calls s s' :
  AvatarManager.m_frames s !! u = Some None ->
  AvatarManager.steps calls s = Returns s' ->
  AvatarManager.stays_bound u calls s ->
  AvatarManager.m_frames s' !! u = Some None.
Proof.
  revert s. induction calls as [|c calls IH]; intros s Hcached; simpl.
  - by intros [= <-].
  - destruct (AvatarManager.step c s) as [s1| | |] eqn:Hstep; simpl; try done.
    intros Hsteps [Hb Hrest]. apply (IH s1); [|done..]. by apply (step_keeps_cached u c s).
Qed.

(** With a cached failure the answer is nothing, whatever the files. *)
Lemma getAvatarFrame_cached_failure fs index u s :
  AvatarManager.m_inputs s !! index = Some u ->
  AvatarManager.m_frames s !! u = Some None ->
  AvatarManager.getAvatarFrame fs index s = Returns (None, s).
Proof. intros Hi Hu. unfold AvatarManager.getAvatarFrame. by rewrite Hi, Hu. Qed.

(** C10, as stated, fails: the cached failure does not outlive the
    bindings of the url.  Index 2 is bound to the url and the first
    load fails, the file missing; index 2 is then unbound, which
    evicts the empty entry, and bound to the url again; the file has
    appeared meanwhile, and [getAvatarFrame] for index 2, bound to the
    url, reads it and returns a frame. *)
Lemma rebinding_loads_again :
  AvatarManager.getAvatarFrame S3.no_files 2 Avatars.bound_once
  = Returns (None, Avatars.after_failure) /\
  AvatarManager.m_frames Avatars.after_failure !! Avatars.url = Some None /\
  exists s' frame s'',
    AvatarManager.steps Avatars.rebinding Avatars.after_failure = Returns s' /\
    AvatarManager.m_inputs s' !! 2%nat = Some Avatars.url /\
    AvatarManager.getAvatarFrame S3.pictures 2 s' = Returns (Some frame, s'').
Proof.
  split; [reflexivity|]. split; [reflexivity|].
  eexists _, _, _. split; [reflexivity|]. split; [reflexivity|]. by vm_compute.
Qed.

(** C10, amended. Let u be bound to an index and not yet loaded.  If
    the load of u fails, [getAvatarFrame] returns nothing and stores
    the empty result under u in the url-to-frame map.  After any
    further calls that leave u bound to some index the entry is still
    there; every [getAvatarFrame] for an index bound to u then returns
    nothing and changes nothing, whatever the files now hold; and
    [setAvatar] with u for an index already bound to u returns at
    once, the manager unchanged. *)
Theorem failed_load_is_cached fs u index s :
  AvatarManager.m_inputs s !! index = Some u ->
  AvatarManager.m_frames s !! u = None ->
  AvatarManager.loadImage fs u = Returns None ->
  exists s1,
    AvatarManager.getAvatarFrame fs index s = Returns (None, s1) /\
    AvatarManager.m_inputs s1 = AvatarManager.m_inputs s /\
    AvatarManager.m_frames s1 !! u = Some None /\
    forall calls s',
      AvatarManager.steps calls s1 = Returns s' ->
      AvatarManager.stays_bound u calls s1 ->
      AvatarManager.m_frames s' !! u = Some None /\
      forall j,
        AvatarManager.m_inputs s' !! j = Some u ->
        (forall fs', AvatarManager.getAvatarFrame fs' j s' = Returns (None, s')) /\
        AvatarManager.setAvatar j u s' = (true, s').
Proof.
  intros Hi Hnew Hfail.
  exists (AvatarManager.mk (AvatarManager.m_inputs s) (<[u := None]> (AvatarManager.m_frames s))).
  assert (Hcached : (<[u := None]> (AvatarManager.m_frames s) : gmap string (option VideoFrame))
                    !! u = Some None) by apply lookup_insert_eq.
  split; [|split; [done|split; [exact Hcached|]]].
  { unfold AvatarManager.getAvatarFrame. by rewrite Hi, Hnew, Hfail. }
  intros calls s' Hsteps Hbound.
  pose proof (steps_keep_cached u calls _ s' (Hcached : AvatarManager.m_frames (AvatarManager.mk _ _) !! u = Some None) Hsteps Hbound) as Hkept.
  split; [exact Hkept|].
  intros j Hj. split.
  - intros fs'. by apply getAvatarFrame_cached_failure with u.
  - unfold AvatarManager.setAvatar. rewrite Hj. by rewrite String.eqb_refl.
Qed.

Lemma failed_load_is_cached_witness :
  AvatarManager.loadImage S3.pictures Avatars.url
  = Returns (Some (mkVideoFrame (mkI420Buffer 2 2 (replicate 6 Byte.x80)))) /\
  exists s1 s',
    AvatarManager.getAvatarFrame S3.no_files 2 Avatars.bound_once = Returns (None, s1) /\
    AvatarManager.steps Avatars.calls s1 = Returns s' /\
    AvatarManager.m_inputs s' !! 3%nat = Some Avatars.url /\
    AvatarManager.getAvatarFrame S3.pictures 3 s' = Returns (None, s').
Proof.
  split; [by vm_compute|].
  destruct (failed_load_is_cached S3.no_files Avatars.url 2 Avatars.bound_once)
    as (s1 & Hget & _ & _ & Hlater); [reflexivity | reflexivity | reflexivity |].
  change (AvatarManager.getAvatarFrame S3.no_files 2 Avatars.bound_once)
    with (Returns (A := option VideoFrame * AvatarManager.t) (None, Avatars.after_failure))
    in Hget.
  injection Hget as <-.
  assert (Hsteps : exists s',
    AvatarManager.steps Avatars.calls Avatars.after_failure = Returns s' /\
    AvatarManager.m_inputs s' !! 3%nat = Some Avatars.url).
  { eexists. split; reflexivity. }
  destruct Hsteps as (s' & Hsteps & Hbound3).
  exists Avatars.after_failure, s'. split; [reflexivity|]. split; [exact Hsteps|].
  split; [exact Hbound3|].
  destruct (Hlater Avatars.calls s' Hsteps) as [_ Hget].
  - simpl. repeat split; (by exists 2%nat) || (by exists 3%nat).
  - by apply (Hget 3%nat).
Defined.

(** ** SoftFrameGenerator: buckets and ticks *)

(** The period [maxFps / fps] of a rate of the band: a power of two
    that divides [maxFps / minFps]. *)
Lemma band_period maxFps minFps fps :
  0 < minFps ->
  FpsBand.exact_power_of_two maxFps minFps ->
  FpsBand.member maxFps minFps fps ->
  0 < fps /\ 1 <= maxFps / fps <= maxFps / minFps /\
  Z.divide (maxFps / fps) (maxFps / minFps).
Proof.
  intros Hmin (k & Hk) (j & Hj & Hle).
  pose proof (pow2_pos k) as Hpk. pose proof (pow2_pos j) as Hpj.
  assert (Hjk : (j <= k)%nat).
  { destruct (Nat.le_gt_cases j k) as [|Hlt]; [done|].
    assert (2 ^ Z.of_nat k < 2 ^ Z.of_nat j) by (apply Z.pow_lt_mono_r; lia). nia. }
  assert (Hsplit : 2 ^ Z.of_nat k = 2 ^ Z.of_nat (k - j) * 2 ^ Z.of_nat j).
  { rewrite <- Z.pow_add_r by lia. f_equal. lia. }
  pose proof (pow2_pos (k - j)) as Hpd.
  assert (Hdiv1 : maxFps / fps = 2 ^ Z.of_nat (k - j)).
  { rewrite Hk, Hj, Hsplit.
    replace (minFps * (2 ^ Z.of_nat (k - j) * 2 ^ Z.of_nat j))
      with (2 ^ Z.of_nat (k - j) * (minFps * 2 ^ Z.of_nat j)) by lia.
    apply Z.div_mul. nia. }
  assert (Hdiv2 : maxFps / minFps = 2 ^ Z.of_nat k).
  { rewrite Hk. replace (minFps * 2 ^ Z.of_nat k) with (2 ^ Z.of_nat k * minFps) by lia.
    apply Z.div_mul. lia. }
  rewrite Hdiv1, Hdiv2. repeat split; [nia | lia | nia |].
  exists (2 ^ Z.of_nat j). lia.
Qed.

(** Successive multiples of a period are one period apart. *)
Lemma successive_multiples c p (t1 t2 : nat) :
  0 < p ->
  (c + Z.of_nat t1) mod p = 0 ->
  (c + Z.of_nat t2) mod p = 0 ->
  (t1 < t2)%nat ->
  (forall t : nat, (t1 < t < t2)%nat -> (c + Z.of_nat t) mod p <> 0) ->
  Z.of_nat t2 - Z.of_nat t1 = p.
Proof.
  intros Hp H1 H2 Hlt Hnone.
  apply Z.mod_divide in H1 as [q1 Hq1]; [|lia].
  apply Z.mod_divide in H2 as [q2 Hq2]; [|lia].
  assert (Hq : q1 < q2) by nia.
  destruct (Z.eq_dec q2 (q1 + 1)) as [->|Hne]; [lia|].
  exfalso. apply (Hnone (Z.to_nat (Z.of_nat t1 + p))); [nia|].
  rewrite Z2Nat.id by lia.
  replace (c + (Z.of_nat t1 + p)) with ((q1 + 1) * p) by lia.
  apply Z.mod_mul. lia.
Qed.

(** The counter after a tick, seen modulo a period of the band. *)
Lemma counter_mod_period c cm p t :
  0 < p -> 0 < cm -> Z.divide p cm ->
  ((c + 1) mod cm + t) mod p = (c + (1 + t)) mod p.
Proof.
  intros Hp Hcm Hdiv.
  rewrite Z.add_mod by lia. rewrite (Z.mod_mod_divide (c + 1) cm p) by done.
  rewrite <- Z.add_mod by lia. f_equal. lia.
Qed.

(** Who is served on a tick that composes a frame: the outputs of the
    buckets that are due. *)
Lemma deliveries_served g frame o :
  o ∈ (SoftFrameGenerator.deliveries g frame).*1 <->
  exists (i : nat) bucket,
    SoftFrameGenerator.m_outputs g !! i = Some bucket /\ o ∈ bucket /\
    SoftFrameGenerator.due (SoftFrameGenerator.m_counter g) i = true.
Proof.
  unfold SoftFrameGenerator.deliveries. rewrite list_elem_of_fmap. split.
  - intros ([o' fr] & -> & Hin). simpl.
    apply list_elem_of_In, in_concat in Hin as (l & Hl & Hin).
    apply list_elem_of_In, elem_of_lookup_imap in Hl as (i & bucket & -> & Hi).
    destruct (SoftFrameGenerator.due _ i) eqn:Hdue; [|by destruct Hin].
    apply list_elem_of_In, list_elem_of_fmap in Hin as (o'' & [= -> ->] & Hin).
    by exists i, bucket.
  - intros (i & bucket & Hi & Hin & Hdue). exists (o, frame). split; [done|].
    apply list_elem_of_In, in_concat.
    exists ((fun o => (o, frame)) <$> bucket). split.
    + apply list_elem_of_In, elem_of_lookup_imap. exists i, bucket. by rewrite Hdue.
    + apply list_elem_of_In, list_elem_of_fmap. by exists o.
Qed.

Lemma hasValidOutput_served g (i : nat) bucket o :
  SoftFrameGenerator.m_outputs g !! i = Some bucket -> o ∈ bucket ->
  SoftFrameGenerator.due (SoftFrameGenerator.m_counter g) i = true ->
  SoftFrameGenerator.hasValidOutput g = true.
Proof.
  intros Hi Hin Hdue. unfold SoftFrameGenerator.hasValidOutput.
  apply existsb_exists. exists true. split; [|done].
  apply list_elem_of_In, elem_of_lookup_imap. exists i, bucket. split; [|done].
  rewrite Hdue. by destruct Hin.
Qed.

(** An output of a valid generator is due when the counter is a
    multiple of its period. *)
Lemma due_period g (i : nat) bucket o :
  FpsBand.valid g ->
  SoftFrameGenerator.m_outputs g !! i = Some bucket -> o ∈ bucket ->
  (SoftFrameGenerator.due (SoftFrameGenerator.m_counter g) i = true <->
   SoftFrameGenerator.m_counter g
     mod (SoftFrameGenerator.m_maxSupportedFps g / SoftFrameGenerator.fps o) = 0).
Proof.
  intros Hv Hi Hin. destruct (FpsBand.valid_buckets g Hv i bucket o Hi Hin) as [_ Hidx].
  unfold SoftFrameGenerator.due, SoftFrameGenerator.bucket_index in *.
  rewrite Hidx. replace (_ / _ - 1 + 1) with
    (SoftFrameGenerator.m_maxSupportedFps g / SoftFrameGenerator.fps o) by lia.
  apply Z.eqb_eq.
Qed.

Lemma valid_counterMax_bounds g :
  FpsBand.valid g ->
  0 < SoftFrameGenerator.m_counterMax g < 2 ^ 31 /\
  FpsBand.member (SoftFrameGenerator.m_maxSupportedFps g)
                 (SoftFrameGenerator.m_minSupportedFps g)
                 (SoftFrameGenerator.m_minSupportedFps g).
Proof.
  intros Hv. destruct Hv as [Hmin Hmax Hband HcM _ _ _].
  assert (Hm : FpsBand.member (SoftFrameGenerator.m_maxSupportedFps g)
                              (SoftFrameGenerator.m_minSupportedFps g)
                              (SoftFrameGenerator.m_minSupportedFps g)).
  { destruct Hband as (k & Hk). exists O. split; [simpl; lia|].
    pose proof (pow2_pos k). nia. }
  split; [|done]. rewrite HcM.
  destruct (band_period _ _ _ Hmin Hband Hm) as (_ & [Hone _] & _).
  split; [lia|].
  apply Z.le_lt_trans with (SoftFrameGenerator.m_maxSupportedFps g); [|done].
  apply Z.div_le_upper_bound; [done|]. destruct Hband as (k & Hk).
  pose proof (pow2_pos k). nia.
Qed.

(** One tick of a valid generator. *)
Lemma onTimeout_valid g frame :
  FpsBand.valid g ->
  exists delivered g',
    SoftFrameGenerator.onTimeout frame g = Returns (delivered, g') /\
    FpsBand.valid g' /\
    SoftFrameGenerator.m_outputs g' = SoftFrameGenerator.m_outputs g /\
    SoftFrameGenerator.m_maxSupportedFps g' = SoftFrameGenerator.m_maxSupportedFps g /\
    SoftFrameGenerator.m_minSupportedFps g' = SoftFrameGenerator.m_minSupportedFps g /\
    SoftFrameGenerator.m_counter g'
    = (SoftFrameGenerator.m_counter g + 1)
        mod (SoftFrameGenerator.m_maxSupportedFps g / SoftFrameGenerator.m_minSupportedFps g) /\
    (frame = None -> delivered = []) /\
    (is_Some frame ->
     forall (i : nat) bucket o,
       SoftFrameGenerator.m_outputs g !! i = Some bucket -> o ∈ bucket ->
       (o ∈ delivered.*1 <->
        SoftFrameGenerator.m_counter g
          mod (SoftFrameGenerator.m_maxSupportedFps g / SoftFrameGenerator.fps o) = 0)).
Proof.
  intros Hv. destruct (valid_counterMax_bounds g Hv) as [HcM _].
  pose proof Hv as [Hmin Hmax Hband HcMeq Hc Hsize Hbuckets].
  unfold SoftFrameGenerator.onTimeout, SoftFrameGenerator.tick_counter.
  destruct (Z.eqb_spec (SoftFrameGenerator.m_counterMax g) 0); [lia|]. simpl.
  rewrite wrap32_small by lia.
  eexists _, _. split; [reflexivity|].
  split; [|split; [done|]; split; [done|]; split; [done|]; split; [by rewrite HcMeq|]; split].
  - constructor; simpl; try done. apply Z.mod_pos_bound. lia.
  - by intros ->; destruct (SoftFrameGenerator.hasValidOutput g).
  - intros Hsome i bucket o Hi Ho.
    destruct frame as [fr|]; [|by destruct Hsome]. split.
    + intros Hin. destruct (SoftFrameGenerator.hasValidOutput g) eqn:Hvalid.
      * apply deliveries_served in Hin as (i' & bucket' & Hi' & Hin' & Hdue).
        by apply (due_period g i' bucket' o Hv Hi' Hin').
      * by apply list_elem_of_In in Hin.
    + intros Hmod. apply (due_period g i bucket o Hv Hi Ho) in Hmod.
      rewrite (hasValidOutput_served g i bucket o Hi Ho Hmod).
      apply deliveries_served. by exists i, bucket.
Qed.

(** A run of ticks serves an output on the ticks that compose a frame
    and at which the counter is a multiple of the period of the output;
    the counter goes up by one a tick, modulo [maxFps / minFps]. *)
Lemma run_served g frames :
  FpsBand.valid g ->
  exists log g',
    SoftFrameGenerator.run frames g = Returns (log, g') /\
    SoftFrameGenerator.m_counter g'
    = (SoftFrameGenerator.m_counter g + Z.of_nat (length frames))
        mod (SoftFrameGenerator.m_maxSupportedFps g / SoftFrameGenerator.m_minSupportedFps g) /\
    forall (i : nat) bucket o (t : nat),
      SoftFrameGenerator.m_outputs g !! i = Some bucket -> o ∈ bucket ->
      (FpsBand.served log t o <->
       (exists frame, frames !! t = Some (Some frame)) /\
       (SoftFrameGenerator.m_counter g + Z.of_nat t)
         mod (SoftFrameGenerator.m_maxSupportedFps g / SoftFrameGenerator.fps o) = 0).
Proof.
  revert g. induction frames as [|frame frames IH]; intros g Hv.
  - exists [], g. split; [done|]. split.
    + destruct (valid_counterMax_bounds g Hv) as [HcM _].
      pose proof (FpsBand.valid_counter g Hv). rewrite (FpsBand.valid_counterMax g Hv) in *.
      simpl. rewrite Z.add_0_r, Z.mod_small; lia.
    + intros i bucket o t _ _. unfold FpsBand.served. split.
      * by intros (d & Hd & _).
      * by intros [(fr & Hfr) _].
  - destruct (onTimeout_valid g frame Hv)
      as (delivered & g1 & Htick & Hv1 & Hout & Hmax & Hmin & Hcounter & Hnone & Hserved).
    destruct (IH g1 Hv1) as (log & g' & Hrun & Hcount & Hlater).
    destruct (valid_counterMax_bounds g Hv) as [HcM _].
    rewrite (FpsBand.valid_counterMax g Hv) in HcM.
    exists (delivered :: log), g'. simpl. rewrite Htick. simpl. rewrite Hrun. simpl.
    split; [done|]. split.
    + rewrite Hcount, Hcounter, Hmax, Hmin, Z.add_mod_idemp_l by lia. f_equal. lia.
    + intros i bucket o t Hi Ho. destruct t as [|t].
      * unfold FpsBand.served. simpl. rewrite Z.add_0_r. destruct frame as [fr|].
        -- rewrite <- (Hserved (mk_is_Some _ _ eq_refl) i bucket o Hi Ho). split.
           ++ intros (d & [= <-] & Hd). split; [by exists fr | done].
           ++ intros [_ Hd]. by exists delivered.
        -- rewrite (Hnone eq_refl). split.
           ++ intros (d & [= <-] & Hd). by apply list_elem_of_In in Hd.
           ++ by intros [(fr & [=]) _].
      * assert (Hlater' : FpsBand.served (delivered :: log) (S t) o <-> FpsBand.served log t o).
        { unfold FpsBand.served. by simpl. }
        rewrite Hlater'. rewrite (Hlater i bucket o t); [|by rewrite Hout | done].
        rewrite Hcounter, Hmax. simpl.
        destruct (FpsBand.valid_buckets g Hv i bucket o Hi Ho) as [Hmember _].
        destruct (band_period _ _ _ (FpsBand.valid_min g Hv) (FpsBand.valid_band g Hv) Hmember)
          as (_ & Hp & Hdiv).
        rewrite counter_mod_period; [|lia | lia | done].
        by rewrite Nat2Z.inj_succ, <- Z.add_1_l.
Qed.

(** Registering an output of a rate of the band. *)
Lemma addOutput_valid NDEBUG fuel w h f dst g :
  FpsBand.valid g -> (33 <= fuel)%nat ->
  FpsBand.member (SoftFrameGenerator.m_maxSupportedFps g)
                 (SoftFrameGenerator.m_minSupportedFps g) f ->
  exists g' bucket,
    SoftFrameGenerator.addOutput NDEBUG fuel w h f dst g = Returns (true, g') /\
    FpsBand.valid g' /\
    SoftFrameGenerator.m_maxSupportedFps g' = SoftFrameGenerator.m_maxSupportedFps g /\
    SoftFrameGenerator.m_minSupportedFps g' = SoftFrameGenerator.m_minSupportedFps g /\
    SoftFrameGenerator.m_counter g' = SoftFrameGenerator.m_counter g /\
    SoftFrameGenerator.m_outputs g !! Z.to_nat (SoftFrameGenerator.m_maxSupportedFps g / f - 1)
    = Some bucket /\
    SoftFrameGenerator.m_outputs g' !! Z.to_nat (SoftFrameGenerator.m_maxSupportedFps g / f - 1)
    = Some (bucket ++ [SoftFrameGenerator.mkOutput w h f dst]) /\
    forall j, j <> Z.to_nat (SoftFrameGenerator.m_maxSupportedFps g / f - 1) ->
              SoftFrameGenerator.m_outputs g' !! j = SoftFrameGenerator.m_outputs g !! j.
Proof.
  intros Hv Hfuel Hmember.
  pose proof Hv as [Hmin Hmax Hband HcMeq Hc Hsize Hbuckets].
  destruct (band_period _ _ _ Hmin Hband Hmember) as (Hf & Hp & _).
  destruct (valid_counterMax_bounds g Hv) as [HcM _].
  set (idx := Z.to_nat (SoftFrameGenerator.m_maxSupportedFps g / f - 1)).
  assert (Hidx : (idx < length (SoftFrameGenerator.m_outputs g))%nat).
  { rewrite Hsize, HcMeq. unfold idx. lia. }
  destruct (lookup_lt_is_Some_2 _ _ Hidx) as [bucket Hbucket].
  assert (Hassert :
    (if NDEBUG then Returns tt
     else ok ← SoftFrameGenerator.isSupported fuel w h f g; c_assert NDEBUG ok) = Returns tt).
  { destruct NDEBUG; [done|].
    destruct (isSupported_exact fuel w h f g Hfuel Hmin Hmax) as (b & -> & Hb).
    simpl. by rewrite (proj2 Hb Hmember). }
  unfold SoftFrameGenerator.addOutput. rewrite Hassert. simpl.
  destruct (Z.eqb_spec f 0); [lia|].
  unfold SoftFrameGenerator.bucket_index.
  destruct (Z.ltb_spec (SoftFrameGenerator.m_maxSupportedFps g / f - 1) 0); [lia|].
  destruct (Z.leb_spec (Z.of_nat (length (SoftFrameGenerator.m_outputs g)))
                       (SoftFrameGenerator.m_maxSupportedFps g / f - 1)); [lia|].
  simpl. fold idx. eexists _, bucket. split; [reflexivity|]. simpl.
  split; [|split; [done|]; split; [done|]; split; [done|]; split; [done|]; split].
  - constructor; simpl; try done.
    + by rewrite length_alter.
    + intros i bucket' o Hi Ho. unfold SoftFrameGenerator.bucket_index. simpl.
      destruct (decide (i = idx)) as [->|Hne].
      * rewrite list_lookup_alter_eq, Hbucket in Hi. injection Hi as <-.
        apply elem_of_app in Ho as [Ho | Ho].
        -- by apply (Hbuckets idx bucket o).
        -- apply list_elem_of_singleton in Ho as ->. simpl. split; [done|]. unfold idx. lia.
      * rewrite list_lookup_alter_ne in Hi by done. by apply (Hbuckets i bucket' o).
  - by rewrite list_lookup_alter_eq, Hbucket.
  - intros j Hj. by rewrite list_lookup_alter_ne.
Qed.

(** The constructor leaves a valid generator for an exact band. *)
Lemma create_valid fuel maxFps minFps :
  0 < minFps -> maxFps < 2 ^ 31 -> (33 <= fuel)%nat ->
  FpsBand.exact_power_of_two maxFps minFps ->
  exists g,
    SoftFrameGenerator.create fuel maxFps minFps = Returns g /\
    FpsBand.valid g /\
    SoftFrameGenerator.m_maxSupportedFps g = maxFps /\
    SoftFrameGenerator.m_minSupportedFps g = minFps /\
    SoftFrameGenerator.m_counter g = 0.
Proof.
  intros Hmin Hmax Hfuel Hband.
  destruct (fuel_enough fuel _ _ Hfuel Hmin Hmax) as (fuel' & -> & Hfuel').
  destruct (quantize_exact fuel' minFps maxFps Hmin Hmax Hfuel') as (q & Hq & Hyes & _).
  unfold SoftFrameGenerator.create. rewrite Hq, (Hyes Hband). simpl.
  destruct (Z.gtb_spec maxFps maxFps); [lia|].
  destruct (Z.eqb_spec minFps 0); [lia|].
  eexists. split; [reflexivity|]. simpl. split; [|done].
  assert (Hm : FpsBand.member maxFps minFps minFps).
  { destruct Hband as (k & Hk). exists O. split; [simpl; lia|]. pose proof (pow2_pos k). nia. }
  destruct (band_period _ _ _ Hmin Hband Hm) as (_ & Hp & _).
  constructor; simpl; try done.
  - lia.
  - by rewrite length_replicate.
  - intros i bucket o Hi Ho. apply lookup_replicate_1 in Hi as [-> _].
    by apply list_elem_of_In in Ho.
Qed.

(** So does it when it falls back to the single rate [minFps]. *)
Lemma create_degraded_valid fuel maxFps minFps :
  0 < minFps < 2 ^ 31 -> maxFps < 2 ^ 31 -> (33 <= fuel)%nat ->
  ~ FpsBand.exact_power_of_two maxFps minFps ->
  exists g,
    SoftFrameGenerator.create fuel maxFps minFps = Returns g /\
    FpsBand.valid g /\
    SoftFrameGenerator.m_maxSupportedFps g = minFps /\
    SoftFrameGenerator.m_minSupportedFps g = minFps.
Proof.
  intros [Hmin Hmin'] Hmax Hfuel Hband.
  destruct (fuel_enough fuel _ _ Hfuel Hmin Hmax) as (fuel' & -> & Hfuel').
  destruct (quantize_exact fuel' minFps maxFps Hmin Hmax Hfuel') as (q & Hq & _ & Hno).
  pose proof (Hno Hband) as Hlt.
  unfold SoftFrameGenerator.create. rewrite Hq. simpl.
  destruct (Z.gtb_spec q maxFps); [|lia].
  destruct (Z.eqb_spec minFps 0); [lia|].
  eexists. split; [reflexivity|]. simpl. split; [|done].
  assert (Hone : minFps / minFps = 1) by (apply Z.div_same; lia).
  constructor; simpl; try done.
  - exists O. simpl. lia.
  - lia.
  - by rewrite length_replicate.
  - intros i bucket o Hi Ho. apply lookup_replicate_1 in Hi as [-> _].
    by apply list_elem_of_In in Ho.
Qed.

Lemma Band60_generator_valid :
  SoftFrameGenerator.create 33 60 15 = Returns Band60.generator /\ FpsBand.valid Band60.generator.
Proof.
  destruct (create_valid 33 60 15) as (g & Hg & Hv & _); [lia | lia | lia | by exists 2%nat |].
  assert (Hc : SoftFrameGenerator.create 33 60 15 = Returns Band60.generator) by by vm_compute.
  split; [exact Hc|]. rewrite Hc in Hg. by injection Hg as <-.
Qed.

Lemma erase_dest_subset dst bucket bucket' o :
  SoftFrameGenerator.erase_dest dst bucket = Some bucket' -> o ∈ bucket' -> o ∈ bucket.
Proof.
  revert bucket'. induction bucket as [|o' bucket IH]; intros bucket'; simpl; [done|].
  destruct (Nat.eqb _ _).
  - intros [= <-] Ho. by apply list_elem_of_further.
  - destruct (SoftFrameGenerator.erase_dest dst bucket) as [rest|]; simpl; [|done].
    intros [= <-] Ho. apply elem_of_cons in Ho as [-> | Ho].
    + apply list_elem_of_here.
    + apply list_elem_of_further. by apply IH with rest.
Qed.

Lemma remove_first_buckets dst outputs outputs' :
  SoftFrameGenerator.remove_first dst outputs = Some outputs' ->
  length outputs' = length outputs /\
  forall (i : nat) bucket' o,
    outputs' !! i = Some bucket' -> o ∈ bucket' ->
    exists bucket, outputs !! i = Some bucket /\ o ∈ bucket.
Proof.
  revert outputs'. induction outputs as [|bucket outputs IH]; intros outputs'; simpl; [done|].
  destruct (SoftFrameGenerator.erase_dest dst bucket) as [bucket1|] eqn:Herase.
  - intros [= <-]. split; [done|]. intros [|i] bucket' o; simpl.
    + intros [= <-] Ho. exists bucket. split; [done|]. by eapply erase_dest_subset.
    + intros Hi Ho. by exists bucket'.
  - destruct (SoftFrameGenerator.remove_first dst outputs) as [rest|]; simpl; [|done].
    intros [= <-]. destruct (IH rest eq_refl) as [Hlen Hsub]. split; [simpl; by rewrite Hlen|].
    intros [|i] bucket' o; simpl.
    + intros [= <-] Ho. by exists bucket.
    + apply Hsub.
Qed.

(** Removing an output keeps a generator valid. *)
Lemma removeOutput_valid dst g :
  FpsBand.valid g -> FpsBand.valid (SoftFrameGenerator.removeOutput dst g).2.
Proof.
  intros Hv. unfold SoftFrameGenerator.removeOutput.
  destruct (SoftFrameGenerator.remove_first dst _) as [outputs|] eqn:Hrm; [|done].
  destruct (remove_first_buckets _ _ _ Hrm) as [Hlen Hsub].
  destruct Hv as [Hmin Hmax Hband HcMeq Hc Hsize Hbuckets].
  constructor; simpl; try done.
  - by rewrite Hlen.
  - intros i bucket' o Hi Ho. destruct (Hsub i bucket' o Hi Ho) as (bucket & Hb & Hob).
    by apply (Hbuckets i bucket o).
Qed.

(** C8, as stated, fails: a tick on which no frame can be composed
    delivers nothing.  The 30 fps output of the 60/15 generator has
    period 2; on the third of these five ticks the counter is 2, a
    multiple of the period, and the output is not served; the two
    deliveries on either side are four ticks apart, not two. *)
Lemma tick_without_frame_not_served :
  exists g1 log g2,
    SoftFrameGenerator.addOutput false 33 640 480 30 7 Band60.generator = Returns (true, g1) /\
    SoftFrameGenerator.m_outputs g1 !! Z.to_nat (60 / 30 - 1) = Some [Band60.output30] /\
    SoftFrameGenerator.run Band60.ticks g1 = Returns (log, g2) /\
    log = [[(Band60.output30, Band60.canvas)]; []; []; []; [(Band60.output30, Band60.canvas)]] /\
    (SoftFrameGenerator.m_counter g1 + 2) mod (60 / 30) = 0 /\
    4 - 0 <> 60 / 30.
Proof. eexists _, _, _. repeat split; by vm_compute. Qed.

(** C8, amended. An output registered at a rate f of the band of a
    valid generator is stored in bucket maxFps/f - 1.  Over any run of
    ticks the counter goes up by one a tick modulo maxFps/minFps, and
    the output is delivered a frame exactly on the ticks that compose a
    frame and on which m_counter mod (maxFps/f) is zero; when every
    tick composes a frame, two successive deliveries to the output are
    exactly maxFps/f ticks apart. *)
Theorem output_schedule NDEBUG fuel g w h f dst frames :
  FpsBand.valid g -> (33 <= fuel)%nat ->
  FpsBand.member (SoftFrameGenerator.m_maxSupportedFps g)
                 (SoftFrameGenerator.m_minSupportedFps g) f ->
  exists g1 bucket log g2,
    SoftFrameGenerator.addOutput NDEBUG fuel w h f dst g = Returns (true, g1) /\
    SoftFrameGenerator.m_outputs g !! Z.to_nat (SoftFrameGenerator.m_maxSupportedFps g / f - 1)
    = Some bucket /\
    SoftFrameGenerator.m_outputs g1 !! Z.to_nat (SoftFrameGenerator.m_maxSupportedFps g / f - 1)
    = Some (bucket ++ [SoftFrameGenerator.mkOutput w h f dst]) /\
    SoftFrameGenerator.run frames g1 = Returns (log, g2) /\
    SoftFrameGenerator.m_counter g2
    = (SoftFrameGenerator.m_counter g + Z.of_nat (length frames))
        mod (SoftFrameGenerator.m_maxSupportedFps g / SoftFrameGenerator.m_minSupportedFps g) /\
    (forall t : nat,
       FpsBand.served log t (SoftFrameGenerator.mkOutput w h f dst) <->
       (exists frame, frames !! t = Some (Some frame)) /\
       (SoftFrameGenerator.m_counter g + Z.of_nat t)
         mod (SoftFrameGenerator.m_maxSupportedFps g / f) = 0) /\
    (Forall is_Some frames ->
     forall t1 t2 : nat,
       (t1 < t2)%nat ->
       FpsBand.served log t1 (SoftFrameGenerator.mkOutput w h f dst) ->
       FpsBand.served log t2 (SoftFrameGenerator.mkOutput w h f dst) ->
       (forall t : nat, (t1 < t < t2)%nat ->
                        ~ FpsBand.served log t (SoftFrameGenerator.mkOutput w h f dst)) ->
       Z.of_nat t2 - Z.of_nat t1 = SoftFrameGenerator.m_maxSupportedFps g / f).
Proof.
  intros Hv Hfuel Hmember.
  destruct (addOutput_valid NDEBUG fuel w h f dst g Hv Hfuel Hmember)
    as (g1 & bucket & Hadd & Hv1 & Hmax & Hmin & Hcounter & Hold & Hnew & _).
  destruct (run_served g1 frames Hv1) as (log & g2 & Hrun & Hcount & Hserved).
  set (o := SoftFrameGenerator.mkOutput w h f dst) in *.
  assert (Ho : o ∈ bucket ++ [o]) by (apply elem_of_app; right; by apply list_elem_of_singleton).
  assert (Hiff : forall t : nat,
    FpsBand.served log t o <->
    (exists frame, frames !! t = Some (Some frame)) /\
    (SoftFrameGenerator.m_counter g + Z.of_nat t)
      mod (SoftFrameGenerator.m_maxSupportedFps g / f) = 0).
  { intros t. rewrite (Hserved _ _ o t Hnew Ho). by rewrite Hcounter, Hmax. }
  exists g1, bucket, log, g2.
  split; [done|]. split; [done|]. split; [done|]. split; [done|].
  split; [by rewrite Hcount, Hcounter, Hmax, Hmin|]. split; [exact Hiff|].
  intros Hall t1 t2 Hlt H1 H2 Hnone.
  destruct (band_period _ _ _ (FpsBand.valid_min g Hv) (FpsBand.valid_band g Hv) Hmember)
    as (_ & Hp & _).
  apply Hiff in H1 as [_ H1]. apply Hiff in H2 as [(fr2 & Hfr2) H2].
  apply (successive_multiples (SoftFrameGenerator.m_counter g)); [lia | done | done | done |].
  intros t Ht Hmod. apply (Hnone t Ht). apply Hiff. split; [|done].
  assert (Hlen : (t < length frames)%nat).
  { apply lookup_lt_Some in Hfr2. lia. }
  destruct (lookup_lt_is_Some_2 _ _ Hlen) as [frame Hframe].
  destruct (Forall_lookup_1 _ _ _ _ Hall Hframe) as [fr ->]. by exists fr.
Qed.

Lemma output_schedule_witness :
  exists g1 bucket log g2,
    SoftFrameGenerator.addOutput false 33 640 480 30 7 Band60.generator = Returns (true, g1) /\
    SoftFrameGenerator.m_outputs Band60.generator !! Z.to_nat (60 / 30 - 1) = Some bucket /\
    SoftFrameGenerator.m_outputs g1 !! Z.to_nat (60 / 30 - 1) = Some (bucket ++ [Band60.output30]) /\
    SoftFrameGenerator.run Band60.steady g1 = Returns (log, g2) /\
    SoftFrameGenerator.m_counter g2 = (0 + Z.of_nat (length Band60.steady)) mod (60 / 15) /\
    (forall t : nat,
       FpsBand.served log t Band60.output30 <->
       (exists frame, Band60.steady !! t = Some (Some frame)) /\ (0 + Z.of_nat t) mod (60 / 30) = 0) /\
    (forall t1 t2 : nat,
       (t1 < t2)%nat ->
       FpsBand.served log t1 Band60.output30 ->
       FpsBand.served log t2 Band60.output30 ->
       (forall t : nat, (t1 < t < t2)%nat -> ~ FpsBand.served log t Band60.output30) ->
       Z.of_nat t2 - Z.of_nat t1 = 60 / 30).
Proof.
  destruct (output_schedule false 33 Band60.generator 640 480 30 7 Band60.steady)
    as (g1 & bucket & log & g2 & Hadd & Hold & Hnew & Hrun & Hcount & Hserved & Hspacing).
  - apply Band60_generator_valid.
  - lia.
  - by exists 1%nat.
  - exists g1, bucket, log, g2. repeat (split; [assumption|]).
    apply Hspacing. repeat constructor; by eexists.
Defined.

(* ================================================================== *)
(** * Further properties *)

(** ** SoftInput: what every sequence of calls keeps *)

Lemma overflow_queue k s :
  (length (m_frame_queue s) <= k)%nat ->
  m_frame_queue (overflow k s) = [] \/
  (m_frame_queue (overflow k s) = m_frame_queue s /\ (length (m_frame_queue s) < k)%nat /\
   overflow k s = s).
Proof.
  intros Hle. unfold overflow. destruct (Nat.eqb_spec (length (m_frame_queue s)) k); [by left|].
  right. repeat split; lia || done.
Qed.

Lemma overflow_flags k s :
  m_active (overflow k s) = m_active s /\
  m_frame_sync_enabled (overflow k s) = m_frame_sync_enabled s /\
  (m_sync_enabled (overflow k s) = true -> overflow k s = s).
Proof. unfold overflow. by destruct (Nat.eqb _ _). Qed.

Lemma step_queue_bound NDEBUG k c s s' :
  (1 <= k)%nat -> (length (m_frame_queue s) <= k)%nat ->
  step NDEBUG k c s = Returns s' -> (length (m_frame_queue s') <= k)%nat.
Proof.
  intros Hk Hle. destruct c; simpl; try (intros [= <-]; done).
  - intros [= <-]. simpl. destruct (negb active); simpl; lia.
  - unfold pushInput. destruct (c_assert _ _); simpl; try done.
    destruct (negb (m_active s)); [by intros [= <-]|].
    assert (Hov : (length (m_frame_queue (overflow k s)) <= k)%nat).
    { destruct (overflow_queue k s Hle) as [-> | (-> & _)]; simpl; lia. }
    destruct (getFreeBuffer env) as [dst|]; [|by intros [= <-]].
    destruct (negb (convert env)); [by intros [= <-]|].
    intros [= <-]. unfold enqueue. destruct (m_active (overflow k s)); [|done]. simpl.
    rewrite length_app. simpl.
    destruct (negb (m_sync_enabled (overflow k s)) || negb (Frame.sync_enabled frame));
      [simpl; lia|].
    destruct (overflow_queue k s Hle) as [-> | (-> & Hlt & _)]; simpl; lia.
  - intros [= <-]. destruct (popInput_queue s) as [Hsuf _].
    apply suffix_length in Hsuf. lia.
  - intros [= <-]. destruct (get_sync_frame_queue target s) as [Hsuf _].
    apply suffix_length in Hsuf. lia.
Qed.

(** X1. With [kMaxQueueSize] at least one, a queue that holds at most
    [kMaxQueueSize] frames holds at most that many after any sequence
    of calls that pass the assertion of [pushInput]. *)
Theorem queue_within_kMaxQueueSize NDEBUG k calls s :
  (1 <= k)%nat ->
  (length (m_frame_queue s) <= k)%nat ->
  Forall (admissible NDEBUG) calls ->
  exists s', steps NDEBUG k calls s = Returns s' /\ (length (m_frame_queue s') <= k)%nat.
Proof.
  intros Hk Hle Hall. revert s Hle.
  induction Hall as [|c calls Hc _ IH]; intros s Hle; [by exists s|].
  destruct (step_admissible_returns NDEBUG k c s Hc) as [s1 Hs1].
  simpl. rewrite Hs1. simpl. apply IH. by eapply step_queue_bound.
Qed.

Lemma queue_within_kMaxQueueSize_witness :
  exists s',
    steps false 2 [PushInput (S3.pool_ok 300) (S3.pushed FRAME_FORMAT_I420 300);
                   PushInput (S3.pool_ok 400) (S3.pushed FRAME_FORMAT_I420 400)]
          (S3.input_with [100; 200]) = Returns s' /\
    (length (m_frame_queue s') <= 2)%nat.
Proof.
  apply (queue_within_kMaxQueueSize false 2); [lia | simpl; lia |].
  repeat (constructor; [by right|]). constructor.
Defined.

(** An input that is out of sync holds at most one frame. *)
Lemma step_unsynced_single NDEBUG k c s s' :
  (isSyncEnabled s = false -> (length (m_frame_queue s) <= 1)%nat) ->
  step NDEBUG k c s = Returns s' ->
  isSyncEnabled s' = false -> (length (m_frame_queue s') <= 1)%nat.
Proof.
  intros Hinv. destruct c; simpl; try (intros [= <-]; done).
  - intros [= <-]. unfold isSyncEnabled. simpl. destruct (negb active); simpl; [lia | done].
  - unfold pushInput. destruct (c_assert _ _); simpl; try done.
    destruct (negb (m_active s)); [by intros [= <-]|].
    assert (Hov : isSyncEnabled (overflow k s) = false ->
                  (length (m_frame_queue (overflow k s)) <= 1)%nat).
    { unfold overflow. destruct (Nat.eqb _ _); [simpl; lia | done]. }
    destruct (getFreeBuffer env) as [dst|]; [|by intros [= <-]].
    destruct (negb (convert env)); [by intros [= <-]|].
    intros [= <-]. unfold enqueue. destruct (m_active (overflow k s)); [|done].
    unfold isSyncEnabled. simpl.
    destruct (m_sync_enabled (overflow k s)); destruct (Frame.sync_enabled frame);
      simpl; done || lia.
  - intros [= <-]. destruct (popInput_flags s) as (_ & Hs & Hf).
    rewrite (isSyncEnabled_flags s _ Hs Hf). intros Hoff.
    destruct (popInput_queue s) as [Hsuf _]. apply suffix_length in Hsuf.
    specialize (Hinv Hoff). lia.
  - intros [= <-]. destruct (get_sync_frame_flags target s) as (_ & Hs & Hf).
    rewrite (isSyncEnabled_flags s _ Hs Hf). intros Hoff.
    destruct (get_sync_frame_queue target s) as [Hsuf _]. apply suffix_length in Hsuf.
    specialize (Hinv Hoff). lia.
Qed.

(** X2. Starting from a freshly constructed input, after any sequence
    of calls an input for which [isSyncEnabled] is false holds at most
    one frame: without sync only the latest frame is kept. *)
Theorem unsynced_input_keeps_one_frame NDEBUG k calls s' :
  steps NDEBUG k calls SoftInput.create = Returns s' ->
  isSyncEnabled s' = false ->
  (length (m_frame_queue s') <= 1)%nat.
Proof.
  assert (Hgen : forall s,
    (isSyncEnabled s = false -> (length (m_frame_queue s) <= 1)%nat) ->
    steps NDEBUG k calls s = Returns s' ->
    isSyncEnabled s' = false -> (length (m_frame_queue s') <= 1)%nat).
  { induction calls as [|c calls IH]; intros s Hinv; simpl.
    - by intros [= <-].
    - destruct (step NDEBUG k c s) as [s1| | |] eqn:Hs1; simpl; try done.
      apply IH. by eapply step_unsynced_single. }
  apply Hgen. simpl. lia.
Qed.

Lemma unsynced_input_keeps_one_frame_witness :
  (length (m_frame_queue (SoftInput.mk true true false
                            [mkSoftInputFrame (S3.image 300) 300 false 300])) <= 1)%nat.
Proof.
  apply (unsynced_input_keeps_one_frame false 5
           [SetActive true;
            PushInput (S3.pool_ok 100) (S3.pushed FRAME_FORMAT_I420 100);
            PushInput (S3.pool_ok 200) (S3.pushed FRAME_FORMAT_I420 200);
            PushInput (S3.pool_ok 300)
                      (Frame.mk FRAME_FORMAT_I420 (mkVideoFrame (S3.image 300)) 300 false 300)]);
    reflexivity.
Defined.



(** ** SoftInput: first in, first out *)

Lemma set_queue_same s : set_queue (m_frame_queue s) s = s.
Proof. by destruct s. Qed.

Lemma popInput_many s f g rest :
  m_active s = true -> m_frame_queue s = f :: g :: rest ->
  popInput s = (InputRuns.shown f, set_queue (g :: rest) s).
Proof. intros Hact Hq. unfold popInput. by rewrite Hact, Hq. Qed.

Lemma popInput_single s f :
  m_active s = true -> m_frame_queue s = [f] -> popInput s = (InputRuns.shown f, s).
Proof. intros Hact Hq. unfold popInput. by rewrite Hact, Hq. Qed.

(** Reads hand out the frames ahead of the last one in queue order. *)
Lemma pop_many_fronts s fronts l :
  m_active s = true -> m_frame_queue s = fronts ++ [l] ->
  InputRuns.pop_many (length fronts) s = (InputRuns.shown <$> fronts, set_queue [l] s).
Proof.
  revert s. induction fronts as [|f fronts IH]; intros s Hact Hq; simpl in *.
  - by rewrite <- Hq, set_queue_same.
  - assert (Hq' : m_frame_queue s = f :: hd l fronts :: tl (fronts ++ [l])).
    { rewrite Hq. by destruct fronts. }
    rewrite (popInput_many s _ _ _ Hact Hq').
    assert (Hrest : hd l fronts :: tl (fronts ++ [l]) = fronts ++ [l]) by by destruct fronts.
    rewrite Hrest. rewrite (IH (set_queue (fronts ++ [l]) s)); done.
Qed.

(** The last frame is handed out again and again. *)
Lemma pop_many_last s l n :
  m_active s = true -> m_frame_queue s = [l] ->
  InputRuns.pop_many n s = (replicate n (InputRuns.shown l), s).
Proof.
  intros Hact Hq. induction n as [|n IH]; simpl; [done|].
  by rewrite (popInput_single s l Hact Hq), IH.
Qed.

Lemma pop_many_add n m s :
  InputRuns.pop_many (n + m) s =
  let '(frames1, s1) := InputRuns.pop_many n s in
  let '(frames2, s2) := InputRuns.pop_many m s1 in
  (frames1 ++ frames2, s2).
Proof.
  revert s. induction n as [|n IH]; intros s; simpl.
  - by destruct (InputRuns.pop_many m s).
  - destruct (popInput s) as [frame s1]. rewrite IH.
    destruct (InputRuns.pop_many n s1) as [frames1 s2].
    by destruct (InputRuns.pop_many m s2).
Qed.

(** X4. On an active input, [popInput] called again and again hands
    out the queued frames in queue order, the front first; once it has
    reached the last frame it keeps handing out that frame, which stays
    in the queue. *)
Theorem popInput_in_order_then_still s fronts l n :
  m_active s = true ->
  m_frame_queue s = fronts ++ [l] ->
  InputRuns.pop_many (length fronts + n) s
  = ((InputRuns.shown <$> fronts) ++ replicate n (InputRuns.shown l), set_queue [l] s).
Proof.
  intros Hact Hq. rewrite pop_many_add, (pop_many_fronts s fronts l Hact Hq).
  by rewrite (pop_many_last (set_queue [l] s) l n).
Qed.

Lemma popInput_in_order_then_still_witness :
  InputRuns.pop_many 5 (S3.input_with [100; 200; 300])
  = ([InputRuns.shown (S3.frame_at 100); InputRuns.shown (S3.frame_at 200);
      InputRuns.shown (S3.frame_at 300); InputRuns.shown (S3.frame_at 300);
      InputRuns.shown (S3.frame_at 300)],
     S3.input_with [300]).
Proof.
  apply (popInput_in_order_then_still (S3.input_with [100; 200; 300])
           [S3.frame_at 100; S3.frame_at 200] (S3.frame_at 300) 3); reflexivity.
Defined.

(** Pushes of sync frames onto a synced input with room append. *)
Lemma steps_pushes_append NDEBUG k frames s :
  m_active s = true -> m_sync_enabled s = true ->
  (length (m_frame_queue s) + length frames <= k)%nat ->
  Forall (fun bf : I420Buffer * Frame.t =>
            Frame.sync_enabled bf.2 = true /\
            (NDEBUG = true \/ Frame.format bf.2 = FRAME_FORMAT_I420)) frames ->
  exists s',
    steps NDEBUG k (InputRuns.push_of <$> frames) s = Returns s' /\
    m_active s' = true /\ m_sync_enabled s' = true /\
    m_frame_queue s' = m_frame_queue s ++ (InputRuns.queued <$> frames).
Proof.
  intros Hact Hsync Hroom Hall. revert s Hact Hsync Hroom.
  induction Hall as [|[b frame] frames [Hfs Hok] _ IH]; intros s Hact Hsync Hroom.
  - exists s. simpl. by rewrite app_nil_r.
  - simpl in Hroom. cbn [fmap list_fmap steps step InputRuns.push_of fst snd].
    rewrite pushInput_admissible by done. rewrite Hact. simpl.
    assert (Hov : overflow k s = s).
    { unfold overflow. destruct (Nat.eqb_spec (length (m_frame_queue s)) k); [lia | done]. }
    rewrite Hov. unfold enqueue. rewrite Hact, Hsync. simpl in Hfs. rewrite Hfs. simpl.
    match goal with |- context [steps _ _ _ ?s1] =>
      destruct (IH s1) as (s' & Hsteps & Ha & Hs & Hq) end; [done | done | |].
    { simpl. rewrite length_app. simpl. lia. }
    exists s'. split; [exact Hsteps|]. split; [done|]. split; [done|].
    rewrite Hq. simpl. rewrite <- app_assoc. simpl.
    change (InputRuns.queued (b, frame))
      with (mkSoftInputFrame b (Frame.timeStamp frame) (Frame.sync_enabled frame)
                             (Frame.sync_timeStamp frame)).
    by rewrite Hfs.
Qed.

(** X5. Frames pushed with sync enabled onto an active, synced, empty
    input, no more of them than [kMaxQueueSize], each copied into its
    pool buffer, come out of [popInput] in the order they were pushed,
    each with the buffer it was copied into. *)
Theorem push_then_pop_fifo NDEBUG k (frames : list (I420Buffer * Frame.t)) s :
  m_active s = true -> m_sync_enabled s = true -> m_frame_queue s = [] ->
  frames <> [] -> (length frames <= k)%nat ->
  Forall (fun bf : I420Buffer * Frame.t =>
            Frame.sync_enabled bf.2 = true /\
            (NDEBUG = true \/ Frame.format bf.2 = FRAME_FORMAT_I420)) frames ->
  exists s',
    steps NDEBUG k (InputRuns.push_of <$> frames) s = Returns s' /\
    (InputRuns.pop_many (length frames) s').1
    = (fun bf : I420Buffer * Frame.t => Some (mkVideoFrame bf.1)) <$> frames.
Proof.
  intros Hact Hsync Hempty Hne Hlen Hall.
  destruct (steps_pushes_append NDEBUG k frames s Hact Hsync) as (s' & Hsteps & Ha & _ & Hq);
    [rewrite Hempty; simpl; lia | done |].
  exists s'. split; [exact Hsteps|]. rewrite Hempty in Hq. simpl in Hq.
  destruct (exists_last Hne) as (init & lst & ->).
  rewrite fmap_app in Hq. simpl in Hq.
  rewrite length_app. simpl.
  replace (length init) with (length (InputRuns.queued <$> init)) by apply length_fmap.
  rewrite pop_many_add, (pop_many_fronts s' _ _ Ha Hq).
  rewrite (pop_many_last (set_queue [InputRuns.queued lst] s') (InputRuns.queued lst) 1);
    [|done..].
  simpl. rewrite fmap_app, <- list_fmap_compose. done.
Qed.

Lemma push_then_pop_fifo_witness :
  exists s',
    steps false 5
          (InputRuns.push_of <$> [(S3.image 100, S3.pushed FRAME_FORMAT_I420 100);
                                  (S3.image 200, S3.pushed FRAME_FORMAT_I420 200);
                                  (S3.image 300, S3.pushed FRAME_FORMAT_I420 300)])
          (setActive true SoftInput.create) = Returns s' /\
    (InputRuns.pop_many 3 s').1
    = [Some (mkVideoFrame (S3.image 100)); Some (mkVideoFrame (S3.image 200));
       Some (mkVideoFrame (S3.image 300))].
Proof.
  apply (push_then_pop_fifo false 5
           [(S3.image 100, S3.pushed FRAME_FORMAT_I420 100);
            (S3.image 200, S3.pushed FRAME_FORMAT_I420 200);
            (S3.image 300, S3.pushed FRAME_FORMAT_I420 300)]
           (setActive true SoftInput.create)); try reflexivity.
  - discriminate.
  - simpl; lia.
  - repeat (constructor; [split; [reflexivity | by right]|]). constructor.
Defined.

(** ** SoftInput: sync timestamps stay in order *)

Lemma ascending_suffix hi s s' :
  InputRuns.ascending hi s ->
  m_frame_queue s' `suffix_of` m_frame_queue s ->
  InputRuns.ascending hi s'.
Proof.
  intros [Hsorted Hall] [dropped Hq]. unfold InputRuns.ascending.
  rewrite Hq, fmap_app in Hsorted. rewrite Hq in Hall. split.
  - by eapply StronglySorted_app_1_r.
  - by apply Forall_app in Hall as [_ ?].
Qed.

Lemma ascending_raise hi hi' s :
  InputRuns.ascending hi s -> hi <= hi' -> InputRuns.ascending hi' s.
Proof.
  intros [Hsorted Hall] Hle. split; [done|].
  eapply Forall_impl; [exact Hall|]. simpl. intros f Hf. lia.
Qed.

Lemma enqueue_ascending hi dst frame s :
  InputRuns.ascending hi s -> hi <= Frame.sync_timeStamp frame ->
  InputRuns.ascending (Frame.sync_timeStamp frame) (enqueue dst frame s).
Proof.
  intros Hasc Hle. unfold enqueue. destruct (m_active s); [|by apply (ascending_raise hi)].
  destruct Hasc as [Hsorted Hall]. unfold InputRuns.ascending. simpl.
  destruct (negb (m_sync_enabled s) || negb (Frame.sync_enabled frame)); simpl.
  - split; repeat constructor. simpl. lia.
  - rewrite fmap_app. simpl. split.
    + apply StronglySorted_app_2; [|done|repeat constructor].
      intros x1 x2 Hx1 Hx2. apply list_elem_of_singleton in Hx2 as ->.
      apply list_elem_of_fmap in Hx1 as (f & -> & Hf).
      rewrite Forall_forall in Hall. specialize (Hall f Hf). simpl in Hall. lia.
    + apply Forall_app. split.
      * eapply Forall_impl; [exact Hall|]. simpl. intros f Hf. lia.
      * repeat constructor. simpl. lia.
Qed.

Lemma overflow_ascending hi k s :
  InputRuns.ascending hi s -> InputRuns.ascending hi (overflow k s).
Proof.
  intros Hasc. unfold overflow. destruct (Nat.eqb _ _); [|done].
  split; simpl; constructor.
Qed.

Lemma step_ascending NDEBUG k c s s' hi :
  InputRuns.ascending hi s ->
  InputRuns.rising hi [c] ->
  step NDEBUG k c s = Returns s' ->
  InputRuns.ascending (InputRuns.last_pushed hi [c]) s'.
Proof.
  intros Hasc Hrise. destruct c; simpl; try (intros [= <-]; done).
  - intros [= <-]. apply ascending_suffix with s; [done|]. simpl.
    destruct (negb active); [apply suffix_nil | done].
  - destruct Hrise as [Hle _]. unfold pushInput. destruct (c_assert _ _); simpl; try done.
    destruct (negb (m_active s)); [intros [= <-]; by apply (ascending_raise hi)|].
    pose proof (overflow_ascending hi k s Hasc) as Hov.
    destruct (getFreeBuffer env) as [dst|]; [|intros [= <-]; by apply (ascending_raise hi)].
    destruct (negb (convert env)); [intros [= <-]; by apply (ascending_raise hi)|].
    intros [= <-]. by apply (enqueue_ascending hi).
  - intros [= <-]. apply ascending_suffix with s; [done|]. apply popInput_queue.
  - intros [= <-]. apply ascending_suffix with s; [done|]. apply get_sync_frame_queue.
Qed.

(** X6. If the queue of an input is in ascending order of sync
    timestamp, with nothing stamped above [lo], and the frames pushed
    afterwards carry sync timestamps that start at [lo] or above and
    never go down, then after any sequence of calls the queue is still
    in ascending order and holds nothing stamped above the last
    timestamp pushed. *)
Theorem queue_stays_ascending NDEBUG k calls s s' lo :
  InputRuns.ascending lo s ->
  InputRuns.rising lo calls ->
  steps NDEBUG k calls s = Returns s' ->
  StronglySorted Z.le (sync_timeStamp <$> m_frame_queue s') /\
  Forall (fun f => sync_timeStamp f <= InputRuns.last_pushed lo calls) (m_frame_queue s').
Proof.
  revert s lo. induction calls as [|c calls IH]; intros s lo Hasc Hrise; simpl.
  - by intros [= <-].
  - destruct (step NDEBUG k c s) as [s1| | |] eqn:Hs1; simpl; try done.
    assert (Hc : InputRuns.rising lo [c]).
    { destruct c; simpl in *; try done. by destruct Hrise. }
    pose proof (step_ascending NDEBUG k c s s1 lo Hasc Hc Hs1) as Hasc1.
    assert (Hrest : InputRuns.rising (InputRuns.last_pushed lo [c]) calls).
    { destruct c; simpl in *; try done. by destruct Hrise. }
    intros Hsteps. specialize (IH s1 _ Hasc1 Hrest Hsteps).
    by destruct c.
Qed.

Lemma queue_stays_ascending_witness :
  StronglySorted Z.le (sync_timeStamp <$> m_frame_queue (S3.input_with [200; 300; 300])) /\
  Forall (fun f => sync_timeStamp f <= 300) (m_frame_queue (S3.input_with [200; 300; 300])).
Proof.
  apply (queue_stays_ascending false 5
           [PushInput (S3.pool_ok 300) (S3.pushed FRAME_FORMAT_I420 300);
            PopInput;
            PushInput (S3.pool_ok 300) (S3.pushed FRAME_FORMAT_I420 300)]
           (S3.input_with [100; 200]) (S3.input_with [200; 300; 300]) 200).
  - split; repeat constructor; simpl; lia.
  - simpl. lia.
  - reflexivity.
Defined.

(** ** AvatarManager: the cache and the bindings *)

Lemma referenced_false url inputs :
  AvatarManager.referenced url inputs = false -> forall index, inputs !! index <> Some url.
Proof.
  intros Href index Hi. assert (AvatarManager.referenced url inputs = true); [|congruence].
  apply referenced_bound. by exists index.
Qed.

Lemma step_cached_are_bound c s s' :
  AvatarUrls.cached_are_bound s ->
  AvatarManager.step c s = Returns s' ->
  AvatarUrls.cached_are_bound s'.
Proof.
  unfold AvatarUrls.cached_are_bound, AvatarManager.bound. intros Hinv.
  destruct c as [index url | index | fs index]; simpl.
  - intros [= <-]. unfold AvatarManager.setAvatar.
    destruct (AvatarManager.m_inputs s !! index) as [old_url|] eqn:Hindex.
    + destruct (String.eqb_spec old_url url) as [->|Hne]; [done|].
      destruct (AvatarManager.referenced old_url _) eqn:Href; simpl.
      * intros u Hu. destruct (Hinv u Hu) as (j & Hj).
        destruct (decide (j = index)) as [->|Hji].
        -- assert (u = old_url) as -> by congruence. by apply referenced_bound.
        -- exists j. by rewrite lookup_insert_ne.
      * intros u Hu. destruct (decide (u = old_url)) as [->|Hu'].
        { rewrite lookup_delete_eq in Hu. by destruct Hu. }
        rewrite lookup_delete_ne in Hu by done. destruct (Hinv u Hu) as (j & Hj).
        exists j. rewrite lookup_insert_ne; [done|]. intros ->. congruence.
    + simpl. intros u Hu. destruct (Hinv u Hu) as (j & Hj).
      exists j. rewrite lookup_insert_ne; [done|]. intros ->. congruence.
  - intros [= <-]. unfold AvatarManager.unsetAvatar.
    destruct (AvatarManager.m_inputs s !! index) as [url|] eqn:Hindex; [|done].
    destruct (AvatarManager.referenced url _) eqn:Href; simpl.
    + intros u Hu. destruct (Hinv u Hu) as (j & Hj).
      destruct (decide (j = index)) as [->|Hji].
      * assert (u = url) as -> by congruence. by apply referenced_bound.
      * exists j. by rewrite lookup_delete_ne.
    + intros u Hu. destruct (decide (u = url)) as [->|Hu'].
      { rewrite lookup_delete_eq in Hu. by destruct Hu. }
      rewrite lookup_delete_ne in Hu by done. destruct (Hinv u Hu) as (j & Hj).
      exists j. rewrite lookup_delete_ne; [done|]. intros ->. congruence.
  - unfold AvatarManager.getAvatarFrame.
    destruct (AvatarManager.m_inputs s !! index) as [url|] eqn:Hindex; [|by intros [= <-]].
    destruct (AvatarManager.m_frames s !! url) as [cached|] eqn:Hurl; [by intros [= <-]|].
    destruct (AvatarManager.loadImage fs url) as [frame| | |]; simpl; try done.
    intros [= <-]. simpl.
    intros u Hu. destruct (decide (u = url)) as [->|Hu']; [by exists index|].
    rewrite lookup_insert_ne in Hu by done. by apply Hinv.
Qed.

(** X7. The cache holds no orphan: if every url with an entry in the
    url-to-frame map is bound to some index, this is still so after any
    sequence of [setAvatar], [unsetAvatar] and [getAvatarFrame] calls
    that return; in particular it holds for every manager reached from
    a new one. *)
Theorem cache_holds_only_bound_urls calls s s' :
  AvatarUrls.cached_are_bound s ->
  AvatarManager.steps calls s = Returns s' ->
  AvatarUrls.cached_are_bound s'.
Proof.
  revert s. induction calls as [|c calls IH]; intros s Hinv; simpl.
  - by intros [= <-].
  - destruct (AvatarManager.step c s) as [s1| | |] eqn:Hstep; simpl; try done.
    apply IH. by apply (step_cached_are_bound c s).
Qed.

Lemma cache_holds_only_bound_urls_witness :
  exists s',
    AvatarManager.steps
      [AvatarManager.SetAvatar 2 Avatars.url; AvatarManager.GetAvatarFrame S3.pictures 2;
       AvatarManager.SetAvatar 2 "other.2x2.i420"]
      AvatarManager.create
    = Returns s' /\
    AvatarUrls.cached_are_bound s'.
Proof.
  eexists. split; [by vm_compute|].
  eapply (cache_holds_only_bound_urls
            [AvatarManager.SetAvatar 2 Avatars.url; AvatarManager.GetAvatarFrame S3.pictures 2;
             AvatarManager.SetAvatar 2 "other.2x2.i420"]
            AvatarManager.create).
  - intros url Hurl. simpl in Hurl. rewrite lookup_empty in Hurl. by destruct Hurl.
  - by vm_compute.
Defined.

(** X8. Unbinding the only index bound to a url drops the url's entry
    from the cache: a read for the unbound index returns nothing and
    changes nothing, and once the url is bound again the next read
    loads the file anew and stores what the load gives, so a load that
    failed can succeed later. *)
Theorem unset_evicts_and_rebinding_reloads fs u index j s :
  AvatarManager.m_inputs s !! index = Some u ->
  (forall i, i <> index -> AvatarManager.m_inputs s !! i <> Some u) ->
  AvatarManager.m_frames (AvatarManager.unsetAvatar index s).2 !! u = None /\
  AvatarManager.getAvatarFrame fs index (AvatarManager.unsetAvatar index s).2
  = Returns (None, (AvatarManager.unsetAvatar index s).2) /\
  let s2 := (AvatarManager.setAvatar j u (AvatarManager.unsetAvatar index s).2).2 in
  AvatarManager.getAvatarFrame fs j s2
  = (frame ← AvatarManager.loadImage fs u;
     Returns (frame, AvatarManager.mk (AvatarManager.m_inputs s2)
                                      (<[u := frame]> (AvatarManager.m_frames s2)))).
Proof.
  intros Hindex Hsole.
  assert (Href : AvatarManager.referenced u (delete index (AvatarManager.m_inputs s)) = false).
  { destruct (AvatarManager.referenced u _) eqn:Href; [|done].
    apply referenced_bound in Href as (i & Hi).
    destruct (decide (i = index)) as [->|Hne]; [by rewrite lookup_delete_eq in Hi|].
    rewrite lookup_delete_ne in Hi by done. by destruct (Hsole i). }
  assert (Hunset : AvatarManager.unsetAvatar index s
                   = (true, AvatarManager.mk (delete index (AvatarManager.m_inputs s))
                                             (delete u (AvatarManager.m_frames s)))).
  { unfold AvatarManager.unsetAvatar. by rewrite Hindex, Href. }
  rewrite Hunset. simpl. split; [apply lookup_delete_eq|]. split.
  - unfold AvatarManager.getAvatarFrame. simpl. by rewrite lookup_delete_eq.
  - assert (Hset : forall s1,
      AvatarManager.m_frames s1 !! u = None ->
      AvatarManager.m_inputs (AvatarManager.setAvatar j u s1).2 !! j = Some u /\
      AvatarManager.m_frames (AvatarManager.setAvatar j u s1).2 !! u = None).
    { intros s1 Hs1. unfold AvatarManager.setAvatar.
      destruct (AvatarManager.m_inputs s1 !! j) as [old_url|] eqn:Hj; simpl.
      - destruct (String.eqb_spec old_url u) as [->|Hne]; [done|].
        destruct (AvatarManager.referenced old_url _); simpl.
        + split; [apply lookup_insert_eq | done].
        + split; [apply lookup_insert_eq|]. by rewrite lookup_delete_ne.
      - split; [apply lookup_insert_eq | done]. }
    match goal with |- context [AvatarManager.setAvatar j u ?s1] =>
      destruct (Hset s1) as [Hb Hc] end; [apply lookup_delete_eq|].
    unfold AvatarManager.getAvatarFrame. by rewrite Hb, Hc.
Qed.

Lemma unset_evicts_and_rebinding_reloads_witness :
  AvatarManager.m_frames (AvatarManager.unsetAvatar 2 Avatars.after_failure).2 !! Avatars.url = None /\
  AvatarManager.getAvatarFrame S3.pictures 2 (AvatarManager.unsetAvatar 2 Avatars.after_failure).2
  = Returns (None, (AvatarManager.unsetAvatar 2 Avatars.after_failure).2) /\
  let s2 := (AvatarManager.setAvatar 4 Avatars.url
               (AvatarManager.unsetAvatar 2 Avatars.after_failure).2).2 in
  AvatarManager.getAvatarFrame S3.pictures 4 s2
  = (frame ← AvatarManager.loadImage S3.pictures Avatars.url;
     Returns (frame, AvatarManager.mk (AvatarManager.m_inputs s2)
                                      (<[Avatars.url := frame]> (AvatarManager.m_frames s2)))).
Proof.
  apply (unset_evicts_and_rebinding_reloads S3.pictures Avatars.url 2 4 Avatars.after_failure).
  - reflexivity.
  - intros i Hi. change (AvatarManager.m_inputs Avatars.after_failure)
      with (<[2%nat := Avatars.url]> (∅ : gmap nat string)).
    rewrite lookup_insert_ne by done. by rewrite lookup_empty.
Defined.

Lemma step_keeps_entry u v c s s' :
  AvatarManager.m_frames s !! u = Some v ->
  AvatarManager.step c s = Returns s' ->
  AvatarManager.bound u s' ->
  AvatarManager.m_frames s' !! u = Some v.
Proof.
  intros Hcached. destruct c as [index url | index | fs index]; simpl.
  - intros [= <-]. unfold AvatarManager.setAvatar.
    destruct (AvatarManager.m_inputs s !! index) as [old_url|]; [|done].
    destruct (String.eqb old_url url); [done|].
    destruct (AvatarManager.referenced old_url _) eqn:Href; [done|]. simpl.
    intros [j Hj]. rewrite lookup_delete_ne; [done|]. intros ->.
    by apply (referenced_false _ _ Href j).
  - intros [= <-]. unfold AvatarManager.unsetAvatar.
    destruct (AvatarManager.m_inputs s !! index) as [url|]; [|done].
    destruct (AvatarManager.referenced url _) eqn:Href; [done|]. simpl.
    intros [j Hj]. rewrite lookup_delete_ne; [done|]. intros ->.
    by apply (referenced_false _ _ Href j).
  - unfold AvatarManager.getAvatarFrame.
    destruct (AvatarManager.m_inputs s !! index) as [url|]; [|by intros [= <-]].
    destruct (AvatarManager.m_frames s !! url) as [cached|] eqn:Hurl; [by intros [= <-]|].
    destruct (AvatarManager.loadImage fs url) as [frame| | |]; simpl; try done.
    intros [= <-] _. simpl. rewrite lookup_insert_ne; [done|]. congruence.
Qed.

Lemma steps_keep_entry u v calls s s' :
  AvatarManager.m_frames s !! u = Some v ->
  AvatarManager.steps calls s = Returns s' ->
  AvatarManager.stays_bound u calls s ->
  AvatarManager.m_frames s' !! u = Some v.
Proof.
  revert s. induction calls as [|c calls IH]; intros s Hcached; simpl.
  - by intros [= <-].
  - destruct (AvatarManager.step c s) as [s1| | |] eqn:Hstep; simpl; try done.
    intros Hsteps [Hb Hrest]. apply (IH s1); [|done..]. by apply (step_keeps_entry u v c s).
Qed.

(** X9. A url whose file loads is read once: the first
    [getAvatarFrame] for an index bound to it returns the frame loaded
    and stores it, and as long as the url stays bound to some index
    every later [getAvatarFrame] for any index bound to it returns
    that same frame and changes nothing, whatever the file has
    become. *)
Theorem loaded_frame_is_served_from_cache fs u index s frame :
  AvatarManager.m_inputs s !! index = Some u ->
  AvatarManager.m_frames s !! u = None ->
  AvatarManager.loadImage fs u = Returns (Some frame) ->
  AvatarManager.getAvatarFrame fs index s
  = Returns (Some frame, AvatarManager.mk (AvatarManager.m_inputs s)
                           (<[u := Some frame]> (AvatarManager.m_frames s))) /\
  forall calls s',
    AvatarManager.steps calls
      (AvatarManager.mk (AvatarManager.m_inputs s) (<[u := Some frame]> (AvatarManager.m_frames s)))
    = Returns s' ->
    AvatarManager.stays_bound u calls
      (AvatarManager.mk (AvatarManager.m_inputs s) (<[u := Some frame]> (AvatarManager.m_frames s))) ->
    forall j fs',
      AvatarManager.m_inputs s' !! j = Some u ->
      AvatarManager.getAvatarFrame fs' j s' = Returns (Some frame, s').
Proof.
  intros Hi Hnew Hload. split.
  { unfold AvatarManager.getAvatarFrame. by rewrite Hi, Hnew, Hload. }
  intros calls s' Hsteps Hbound j fs' Hj.
  unfold AvatarManager.getAvatarFrame. rewrite Hj.
  rewrite (steps_keep_entry u (Some frame) calls _ s' (lookup_insert_eq _ _ _ : AvatarManager.m_frames (AvatarManager.mk _ _) !! u = Some (Some frame)) Hsteps Hbound).
  done.
Qed.

Lemma loaded_frame_is_served_from_cache_witness :
  exists s1 s',
    AvatarManager.getAvatarFrame S3.pictures 2 Avatars.bound_once
    = Returns (Some (mkVideoFrame (mkI420Buffer 2 2 (replicate 6 Byte.x80))), s1) /\
    AvatarManager.steps [AvatarManager.SetAvatar 3 Avatars.url; AvatarManager.UnsetAvatar 2] s1
    = Returns s' /\
    AvatarManager.m_inputs s' !! 3%nat = Some Avatars.url /\
    AvatarManager.getAvatarFrame S3.no_files 3 s'
    = Returns (Some (mkVideoFrame (mkI420Buffer 2 2 (replicate 6 Byte.x80))), s').
Proof.
  destruct (loaded_frame_is_served_from_cache S3.pictures Avatars.url 2 Avatars.bound_once
              (mkVideoFrame (mkI420Buffer 2 2 (replicate 6 Byte.x80))))
    as [Hget Hlater]; [reflexivity | reflexivity | by vm_compute |].
  eexists _, _. split; [exact Hget|].
  match goal with |- AvatarManager.steps ?calls ?s1 = _ /\ _ =>
    pose proof (Hlater calls _ eq_refl) as Hserved end.
  split; [reflexivity|]. split; [reflexivity|].
  apply Hserved.
  - simpl. repeat split; by exists 3%nat.
  - reflexivity.
Defined.

(** ** AvatarManager: loading an image *)

Lemma half_below_missing z : wrap32 z / 2 <> wrap32 (-1).
Proof.
  assert (0 <= wrap32 z < 2 ^ 32) by (apply Z.mod_pos_bound; lia).
  assert (wrap32 z / 2 < 2 ^ 31) by (apply Z.div_lt_upper_bound; lia).
  change (wrap32 (-1)) with 4294967295. lia.
Qed.

Lemma loadImage_missing fs url :
  fs url = None -> AvatarManager.loadImage fs url = Returns None.
Proof.
  intros Hfile. unfold AvatarManager.loadImage, AvatarManager.tell_size. rewrite Hfile.
  destruct (AvatarManager.getImageSize url) as [[w h]|]; [|done].
  destruct (Z.eqb_spec (wrap32 (w * h * 3 + 1) / 2) (wrap32 (-1))) as [Heq|_].
  - by apply half_below_missing in Heq.
  - by rewrite orb_true_r.
Qed.

Lemma getImageSize_range url w h :
  AvatarManager.getImageSize url = Some (w, h) -> 0 <= w < 2 ^ 32 /\ 0 <= h < 2 ^ 32.
Proof.
  unfold AvatarManager.getImageSize. intros Hsize.
  repeat case_match; try done. injection Hsize as <- <-. split; apply wrap32_range.
Qed.

Lemma read_plane_S image offset stride width height :
  AvatarManager.read_plane image offset stride width (S height)
  = if (offset + width <=? length image)%nat then
      rows ← AvatarManager.read_plane image (offset + stride) stride width height;
      Some (take width (drop offset image) ++ rows)
    else None.
Proof. reflexivity. Qed.

(** The last row of a plane that was read lies inside the array. *)
Lemma read_plane_reach image offset stride width height rows :
  AvatarManager.read_plane image offset stride width (S height) = Some rows ->
  (offset + height * stride + width <= length image)%nat.
Proof.
  revert offset rows. induction height as [|height IH]; intros offset rows; rewrite read_plane_S.
  - destruct (Nat.leb_spec (offset + width) (length image)); [lia | done].
  - destruct (Nat.leb_spec (offset + width) (length image)); [|done].
    destruct (AvatarManager.read_plane image (offset + stride) stride width (S height))
      as [rest|] eqn:Hrest; [|done].
    intros _. apply IH in Hrest. lia.
Qed.

(** Rows one width apart are one run of bytes. *)
Lemma read_plane_contiguous image offset width height :
  (offset + width * height <= length image)%nat ->
  AvatarManager.read_plane image offset width width height
  = Some (take (width * height) (drop offset image)).
Proof.
  revert offset. induction height as [|height IH]; intros offset Hlen.
  - by rewrite Nat.mul_0_r.
  - rewrite read_plane_S.
    destruct (Nat.leb_spec (offset + width) (length image)); [|lia].
    rewrite IH by lia. simpl.
    rewrite <- drop_drop, take_take_drop. f_equal. f_equal. lia.
Qed.

(** The three planes of a picture of even width and height are the
    array itself. *)
Lemma planes_of_even_picture image a b :
  length image = (6 * (a * b))%nat ->
  AvatarManager.read_plane image 0 (2 * a) (2 * a) (2 * b) = Some (take (4 * (a * b)) image) /\
  AvatarManager.read_plane image (4 * (a * b)) a a b
  = Some (take (a * b) (drop (4 * (a * b)) image)) /\
  AvatarManager.read_plane image (5 * (a * b)) a a b
  = Some (take (a * b) (drop (5 * (a * b)) image)) /\
  take (4 * (a * b)) image ++ take (a * b) (drop (4 * (a * b)) image)
    ++ take (a * b) (drop (5 * (a * b)) image) = image.
Proof.
  intros Hlen. repeat split.
  - rewrite read_plane_contiguous by nia. rewrite drop_0. f_equal. f_equal. nia.
  - apply read_plane_contiguous. lia.
  - apply read_plane_contiguous. lia.
  - rewrite app_assoc, take_take_drop.
    replace (5 * (a * b))%nat with (4 * (a * b) + a * b)%nat by lia.
    rewrite take_take_drop. apply take_ge. lia.
Qed.

Lemma no_wrap_in_size p size :
  0 <= p -> p <= size -> size = wrap32 (p * 3 + 1) / 2 -> p * 3 + 1 < 2 ^ 32.
Proof.
  unfold wrap32. change (2 ^ 32) with 4294967296. intros Hp Hle ->.
  Z.to_euclidean_division_equations. lia.
Qed.

(** X10. [loadImage] never makes a frame out of a file it cannot
    open, although the size test is done on the -1 of a failed
    [tellg] cast to 32 bits.  A frame it returns has the width and
    height the url announces, both positive, and comes from a file
    whose length (modulo 2^32) is the I420 size
    (width * height * 3 + 1) / 2, computed without overflow.  And for
    an even width and height, the file having that size, it returns
    the frame whose planes are the bytes of the file in their order. *)
Theorem loadImage_needs_file_of_announced_size fs url :
  (fs url = None -> AvatarManager.loadImage fs url = Returns None) /\
  (forall frame,
     AvatarManager.loadImage fs url = Returns (Some frame) ->
     exists w h bytes,
       AvatarManager.getImageSize url = Some (w, h) /\
       fs url = Some bytes /\
       0 < w /\ 0 < h /\ w * h * 3 + 1 < 2 ^ 32 /\
       wrap32 (Z.of_nat (length bytes)) = (w * h * 3 + 1) / 2 /\
       buf_width (video_frame_buffer frame) = w /\
       buf_height (video_frame_buffer frame) = h) /\
  (forall w h bytes,
     AvatarManager.getImageSize url = Some (w, h) ->
     fs url = Some bytes ->
     0 < w -> 0 < h -> Z.even w = true -> Z.even h = true ->
     w * h * 5 < 2 ^ 32 ->
     wrap32 (Z.of_nat (length bytes)) = w * h * 3 / 2 ->
     AvatarManager.loadImage fs url
     = Returns (Some (mkVideoFrame
                        (mkI420Buffer w h (take (Z.to_nat (w * h * 3 / 2)) bytes))))).
Proof.
  split; [apply loadImage_missing|]. split.
  - intros frame Hload.
    destruct (fs url) as [bytes|] eqn:Hfile; [|by rewrite loadImage_missing in Hload].
    unfold AvatarManager.loadImage, AvatarManager.tell_size in Hload. rewrite Hfile in Hload.
    destruct (AvatarManager.getImageSize url) as [[w h]|] eqn:Hsize; [|done].
    destruct (getImageSize_range _ _ _ Hsize) as [Hw Hh].
    simpl in Hload.
    destruct (Z.leb_spec (wrap32 (Z.of_nat (length bytes))) 0) as [|Hpos]; [done|].
    destruct (Z.eqb_spec (wrap32 (w * h * 3 + 1) / 2) (wrap32 (Z.of_nat (length bytes))))
      as [Heq|]; [|done].
    simpl in Hload. apply outcome_bind_inv in Hload as (i420Buffer & Hcopy & [= <-]).
    unfold AvatarManager.Copy in Hcopy.
    destruct (Z.leb_spec (AvatarManager.to_int w) 0) as [|Hwpos]; [done|].
    destruct (Z.leb_spec (AvatarManager.to_int h) 0) as [|Hhpos]; [done|].
    simpl in Hcopy.
    assert (Hwint : AvatarManager.to_int w = w /\ 0 < w).
    { unfold AvatarManager.to_int in *. destruct (Z.ltb_spec w (2 ^ 31)); lia. }
    assert (Hhint : AvatarManager.to_int h = h /\ 0 < h).
    { unfold AvatarManager.to_int in *. destruct (Z.ltb_spec h (2 ^ 31)); lia. }
    destruct Hwint as [Hwint Hw0], Hhint as [Hhint Hh0]. rewrite Hwint, Hhint in Hcopy.
    destruct (AvatarManager.read_plane _ (Z.to_nat 0) _ _ _) as [y|] eqn:Hy; [|done].
    destruct (AvatarManager.read_plane _ _ _ _ _) as [u|] in Hcopy; [|done].
    destruct (AvatarManager.read_plane _ _ _ _ _) as [v|] in Hcopy; [|done].
    injection Hcopy as <-. simpl.
    replace (Z.to_nat h) with (S (Z.to_nat (h - 1))) in Hy by lia.
    apply read_plane_reach in Hy. rewrite length_take in Hy.
    assert (Hfits : w * h <= wrap32 (Z.of_nat (length bytes))).
    { pose proof (wrap32_range (Z.of_nat (length bytes))).
      assert (Z.of_nat (Z.to_nat (h - 1) * Z.to_nat w + Z.to_nat w) <= wrap32 (Z.of_nat (length bytes)))
        by lia.
      rewrite Nat2Z.inj_add, Nat2Z.inj_mul, !Z2Nat.id in H0 by lia. nia. }
    assert (Hnowrap : w * h * 3 + 1 < 2 ^ 32).
    { apply (no_wrap_in_size (w * h) (wrap32 (Z.of_nat (length bytes)))); [nia | done | done]. }
    exists w, h, bytes. repeat split; try done.
    rewrite <- Heq. f_equal. apply wrap32_small. nia.
  - intros w h bytes Hsize Hfile Hw Hh Hweven Hheven Hsmall Hlen.
    unfold AvatarManager.loadImage, AvatarManager.tell_size. rewrite Hsize, Hfile. simpl.
    apply Z.even_spec in Hweven as [a ->]. apply Z.even_spec in Hheven as [b ->].
    assert (Hab : 0 < a * b) by nia.
    assert (Hhalf : 2 * a * (2 * b) * 3 / 2 = 6 * (a * b)).
    { replace (2 * a * (2 * b) * 3) with (6 * (a * b) * 2) by lia. by rewrite Z.div_mul. }
    rewrite Hhalf in *.
    assert (Htest : wrap32 (2 * a * (2 * b) * 3 + 1) / 2 = 6 * (a * b)).
    { rewrite wrap32_small by nia.
      replace (2 * a * (2 * b) * 3 + 1) with (1 + 6 * (a * b) * 2) by lia.
      rewrite Z.div_add by lia. done. }
    rewrite Hlen, Htest.
    destruct (Z.leb_spec (6 * (a * b)) 0) as [|_]; [lia|].
    rewrite Z.eqb_refl. simpl.
    assert (Hint : forall z, 0 <= z < 2 ^ 31 -> AvatarManager.to_int z = z).
    { intros z Hz. unfold AvatarManager.to_int. destruct (Z.ltb_spec z (2 ^ 31)); lia. }
    rewrite !Hint by (try rewrite Z.mul_comm, Z.div_mul by lia; nia).
    unfold AvatarManager.Copy.
    destruct (Z.leb_spec (2 * a) 0) as [|_]; [lia|].
    destruct (Z.leb_spec (2 * b) 0) as [|_]; [lia|]. simpl.
    rewrite (wrap32_small (2 * a * (2 * b))) by nia.
    rewrite (wrap32_small (2 * a * (2 * b) * 5)) by nia.
    replace (2 * a * (2 * b) * 5 / 4) with (5 * (a * b))
      by (replace (2 * a * (2 * b) * 5) with (5 * (a * b) * 4) by lia; by rewrite Z.div_mul).
    replace ((2 * a + 1) / 2) with a by (Z.to_euclidean_division_equations; lia).
    replace ((2 * b + 1) / 2) with b by (Z.to_euclidean_division_equations; lia).
    replace (2 * a / 2) with a by (Z.to_euclidean_division_equations; lia).
    set (image := take (Z.to_nat (6 * (a * b))) bytes).
    assert (Himage : length image = (6 * (Z.to_nat a * Z.to_nat b))%nat).
    { unfold image. rewrite length_take.
      pose proof (Z.mod_le (Z.of_nat (length bytes)) (2 ^ 32)) as Hmod.
      unfold wrap32 in Hlen. nia. }
    destruct (planes_of_even_picture image (Z.to_nat a) (Z.to_nat b) Himage)
      as (Hy & Hu & Hv & Hall).
    replace (Z.to_nat 0) with 0%nat by done.
    replace (Z.to_nat (2 * a)) with (2 * Z.to_nat a)%nat by lia.
    replace (Z.to_nat (2 * b)) with (2 * Z.to_nat b)%nat by lia.
    replace (Z.to_nat (2 * a * (2 * b))) with (4 * (Z.to_nat a * Z.to_nat b))%nat by nia.
    replace (Z.to_nat (5 * (a * b))) with (5 * (Z.to_nat a * Z.to_nat b))%nat by nia.
    rewrite Hy, Hu, Hv, Hall. done.
Qed.

Lemma loadImage_needs_file_of_announced_size_witness :
  AvatarManager.loadImage S3.no_files Avatars.url = Returns None /\
  (exists w h bytes,
     AvatarManager.getImageSize Avatars.url = Some (w, h) /\
     S3.pictures Avatars.url = Some bytes /\
     0 < w /\ 0 < h /\ w * h * 3 + 1 < 2 ^ 32 /\
     wrap32 (Z.of_nat (length bytes)) = (w * h * 3 + 1) / 2 /\
     w = 2 /\ h = 2) /\
  AvatarManager.loadImage S3.pictures Avatars.url
  = Returns (Some (mkVideoFrame (mkI420Buffer 2 2 (replicate 6 Byte.x80)))).
Proof.
  destruct (loadImage_needs_file_of_announced_size S3.no_files Avatars.url) as [Hmissing _].
  destruct (loadImage_needs_file_of_announced_size S3.pictures Avatars.url)
    as (_ & Hsound & Heven).
  split; [by apply Hmissing|].
  assert (Hload : AvatarManager.loadImage S3.pictures Avatars.url
                  = Returns (Some (mkVideoFrame (mkI420Buffer 2 2 (replicate 6 Byte.x80))))).
  { apply (Heven 2 2 (replicate 6 Byte.x80)); by vm_compute. }
  split; [|exact Hload].
  destruct (Hsound _ Hload) as (w & h & bytes & Hsize & Hfile & Hw & Hh & Hfit & Hlen & <- & <-).
  by exists 2, 2, bytes.
Defined.

(** A picture of odd width: the 3x1 file of bytes 1 to 5 passes the
    size test, and the U and the V plane are both read at offset 3, so
    that the frame holds bytes 4 and 5 twice. *)
Lemma loadImage_odd_width :
  AvatarManager.loadImage Avatars.odd_files Avatars.odd_url
  = Returns (Some (mkVideoFrame
                     (mkI420Buffer 3 1 [Byte.x01; Byte.x02; Byte.x03;
                                        Byte.x04; Byte.x05; Byte.x04; Byte.x05]))).
Proof. by vm_compute. Qed.

(** ** AvatarManager: reading the size out of a url *)

Lemma append_cons a p t : String.append (String a p) t = String a (String.append p t).
Proof. reflexivity. Qed.

Lemma append_empty t : String.append EmptyString t = t.
Proof. reflexivity. Qed.

Lemma find_append c p t n :
  AvatarManager.find c (String.length p + n) (String.append p t)
  = (fun i => String.length p + i)%nat <$> AvatarManager.find c n t.
Proof.
  induction p as [|a p IH]; [rewrite append_empty | rewrite append_cons]; simpl.
  - by destruct (AvatarManager.find c n t).
  - rewrite IH. by destruct (AvatarManager.find c n t).
Qed.

Lemma find_append_first c p t :
  AvatarManager.find c 0 p = None ->
  AvatarManager.find c 0 (String.append p t)
  = (fun i => String.length p + i)%nat <$> AvatarManager.find c 0 t.
Proof.
  induction p as [|a p IH]; [rewrite append_empty | rewrite append_cons]; simpl.
  - intros _. by destruct (AvatarManager.find c 0 t).
  - destruct (Ascii.eqb a c); [done|]. intros Hnone.
    rewrite IH; [by destruct (AvatarManager.find c 0 t)|].
    by destruct (AvatarManager.find c 0 p).
Qed.

Lemma drop_chars_append p t n :
  AvatarManager.drop_chars (String.length p + n) (String.append p t)
  = AvatarManager.drop_chars n t.
Proof.
  induction p as [|a p IH]; [rewrite append_empty | rewrite append_cons]; simpl; done.
Qed.

Lemma digits_string_append ds rest :
  AvatarUrls.digits_string ds rest = String.append (AvatarUrls.digits_string ds EmptyString) rest /\
  String.length (AvatarUrls.digits_string ds EmptyString) = length ds.
Proof.
  induction ds as [|d ds [IH1 IH2]]; simpl; [done|].
  by rewrite append_cons, <- IH1, IH2.
Qed.

(** The characters of the ten digits. *)
Lemma digit_char_facts d :
  (d < 10)%nat ->
  AvatarManager.digit (AvatarUrls.digit_char d) = Some (Z.of_nat d) /\
  AvatarManager.isspace (AvatarUrls.digit_char d) = false /\
  AvatarUrls.digit_char d <> "-"%char /\ AvatarUrls.digit_char d <> "+"%char.
Proof.
  intros Hd. do 10 (destruct d as [|d]; [by vm_compute|]). lia.
Qed.

Lemma digits_run acc ds c rest :
  Forall (fun d => (d < 10)%nat) ds ->
  AvatarManager.digit c = None ->
  AvatarManager.digits acc (AvatarUrls.digits_string ds (String c rest))
  = (AvatarUrls.digits_value acc ds, length ds).
Proof.
  intros Hds Hc. revert acc.
  induction Hds as [|d ds Hd _ IH]; intros acc;
    cbn [AvatarUrls.digits_string AvatarManager.digits AvatarUrls.digits_value length].
  - by rewrite Hc.
  - destruct (digit_char_facts d Hd) as (Hdigit & _). by rewrite Hdigit, IH.
Qed.

Lemma find_after_digits c ds rest :
  Forall (fun d => (d < 10)%nat) ds ->
  AvatarManager.digit c = None ->
  AvatarManager.find c 0 (AvatarUrls.digits_string ds (String c rest)) = Some (length ds).
Proof.
  intros Hds Hc.
  induction Hds as [|d ds Hd _ IH]; cbn [AvatarUrls.digits_string AvatarManager.find length].
  - by rewrite Ascii.eqb_refl.
  - destruct (Ascii.eqb_spec (AvatarUrls.digit_char d) c) as [Heq|_].
    + destruct (digit_char_facts d Hd) as (Hdigit & _). congruence.
    + by rewrite IH.
Qed.

Lemma no_sign a rest :
  a <> "-"%char -> a <> "+"%char ->
  match String a rest with
  | String "-"%char r => (true, 1%nat, r)
  | String "+"%char r => (false, 1%nat, r)
  | _ => (false, O, String a rest)
  end = (false, O, String a rest).
Proof.
  intros Hminus Hplus.
  destruct a as [[] [] [] [] [] [] [] []];
    first [reflexivity | exfalso; by apply Hminus | exfalso; by apply Hplus].
Qed.

(** [strtol] on a string that starts with neither white space nor a
    sign. *)
Lemma strtol_unsigned a rest :
  AvatarManager.isspace a = false -> a <> "-"%char -> a <> "+"%char ->
  AvatarManager.strtol (String a rest)
  = let '(v, nd) := AvatarManager.digits 0 (String a rest) in
    match nd with
    | O => (0, O)
    | S _ => (Z.min AvatarManager.LONG_MAX v, nd)
    end.
Proof.
  intros Hspace Hminus Hplus. unfold AvatarManager.strtol.
  cbn [AvatarManager.skip_spaces]. rewrite Hspace.
  rewrite (no_sign a rest Hminus Hplus).
  destruct (AvatarManager.digits 0 (String a rest)) as [v nd]. by destruct nd.
Qed.

Lemma digits_value_bounds acc ds : 0 <= acc -> 0 <= AvatarUrls.digits_value acc ds.
Proof.
  revert acc. induction ds as [|d ds IH]; intros acc Hacc; simpl; [done|]. apply IH. lia.
Qed.

Lemma strtol_digits ds c rest :
  ds <> [] ->
  Forall (fun d => (d < 10)%nat) ds ->
  AvatarManager.digit c = None ->
  AvatarManager.strtol (AvatarUrls.digits_string ds (String c rest))
  = (Z.min AvatarManager.LONG_MAX (AvatarUrls.digits_value 0 ds), length ds).
Proof.
  intros Hne Hds Hc. destruct ds as [|d ds]; [done|].
  pose proof (Forall_inv Hds) as Hd. destruct (digit_char_facts d Hd) as (_ & Hsp & Hm & Hp).
  change (AvatarUrls.digits_string (d :: ds) (String c rest))
    with (String (AvatarUrls.digit_char d) (AvatarUrls.digits_string ds (String c rest))).
  rewrite (strtol_unsigned _ _ Hsp Hm Hp).
  change (String (AvatarUrls.digit_char d) (AvatarUrls.digits_string ds (String c rest)))
    with (AvatarUrls.digits_string (d :: ds) (String c rest)).
  by rewrite (digits_run 0 (d :: ds) c rest Hds Hc).
Qed.

(** [getImageSize] from what its four searches and two conversions
    give. *)
Lemma getImageSize_steps url b e e2 wv wu hv hu :
  AvatarManager.find "."%char 0 url = Some b ->
  AvatarManager.find "x"%char b url = Some e ->
  AvatarManager.strtol (AvatarManager.drop_chars (b + 1) url) = (wv, wu) ->
  (b + 1 + wu)%nat = e ->
  AvatarManager.find "."%char e url = Some e2 ->
  AvatarManager.strtol (AvatarManager.drop_chars (e + 1) url) = (hv, hu) ->
  (e + 1 + hu)%nat = e2 ->
  AvatarManager.getImageSize url = Some (wrap32 wv, wrap32 hv).
Proof.
  intros Hb He Hw Hwu He2 Hh Hhu. unfold AvatarManager.getImageSize.
  rewrite Hb, He, Hw, Hwu, Nat.eqb_refl. simpl. by rewrite He2, Hh, Hhu, Nat.eqb_refl.
Qed.

(** X11. From a url [<prefix>.<W>x<H>.<ext>] whose prefix has no dot
    and whose W and H are non-empty runs of decimal digits standing for
    numbers below 2^32, [getImageSize] reads exactly the width W and
    the height H. *)
Theorem getImageSize_reads_announced_size prefix w h ext :
  AvatarManager.find "."%char 0 prefix = None ->
  w <> [] -> h <> [] ->
  Forall (fun d => (d < 10)%nat) w ->
  Forall (fun d => (d < 10)%nat) h ->
  AvatarUrls.digits_value 0 w < 2 ^ 32 ->
  AvatarUrls.digits_value 0 h < 2 ^ 32 ->
  AvatarManager.getImageSize (AvatarUrls.avatar_url prefix w h ext)
  = Some (AvatarUrls.digits_value 0 w, AvatarUrls.digits_value 0 h).
Proof.
  intros Hprefix Hw Hh Hwd Hhd Hwv Hhv.
  set (t3 := String "."%char ext).
  set (t2 := String "x"%char (AvatarUrls.digits_string h t3)).
  set (t1 := String "."%char (AvatarUrls.digits_string w t2)).
  assert (Hurl : AvatarUrls.avatar_url prefix w h ext = String.append prefix t1) by done.
  destruct (digits_string_append w t2) as [Hwapp Hwlen].
  pose proof (digits_value_bounds 0 w (Z.le_refl 0)) as Hw0.
  pose proof (digits_value_bounds 0 h (Z.le_refl 0)) as Hh0.
  assert (Hlong : 2 ^ 32 < AvatarManager.LONG_MAX) by done.
  rewrite Hurl.
  rewrite <- (wrap32_small (AvatarUrls.digits_value 0 w)) at 1 by lia.
  rewrite <- (wrap32_small (AvatarUrls.digits_value 0 h)) at 1 by lia.
  rewrite <- (Z.min_r AvatarManager.LONG_MAX (AvatarUrls.digits_value 0 w)) at 1 by lia.
  rewrite <- (Z.min_r AvatarManager.LONG_MAX (AvatarUrls.digits_value 0 h)) at 1 by lia.
  apply (getImageSize_steps _ (String.length prefix)
           (String.length prefix + S (length w))
           (String.length prefix + S (length w + S (length h)))
           _ (length w) _ (length h)).
  - rewrite find_append_first by done. unfold t1. cbn [AvatarManager.find].
    rewrite Ascii.eqb_refl. simpl. f_equal. lia.
  - replace (String.length prefix) with (String.length prefix + 0)%nat at 1 by lia.
    rewrite find_append. unfold t1. cbn [AvatarManager.find].
    change (Ascii.eqb "."%char "x"%char) with false. cbv iota.
    unfold t2. by rewrite find_after_digits.
  - rewrite drop_chars_append. unfold t1. cbn [AvatarManager.drop_chars].
    unfold t2. by apply strtol_digits.
  - lia.
  - rewrite find_append. unfold t1. cbn [AvatarManager.find].
    rewrite Hwapp, <- Hwlen.
    replace (String.length (AvatarUrls.digits_string w EmptyString))
      with (String.length (AvatarUrls.digits_string w EmptyString) + 0)%nat at 1 by lia.
    rewrite find_append. unfold t2. cbn [AvatarManager.find].
    change (Ascii.eqb "x"%char "."%char) with false. cbv iota.
    unfold t3. rewrite find_after_digits by done. simpl. done.
  - replace (String.length prefix + S (length w) + 1)%nat
      with (String.length prefix + S (length w + 1))%nat by lia.
    rewrite drop_chars_append. unfold t1. cbn [AvatarManager.drop_chars].
    rewrite Hwapp, <- Hwlen, drop_chars_append. unfold t2. cbn [AvatarManager.drop_chars].
    unfold t3. by apply strtol_digits.
  - lia.
Qed.

Lemma getImageSize_reads_announced_size_witness :
  AvatarManager.getImageSize (AvatarUrls.avatar_url "avatars/face" [3; 2; 0]%nat [2; 4; 0]%nat "i420")
  = Some (320, 240).
Proof.
  apply (getImageSize_reads_announced_size "avatars/face" [3; 2; 0]%nat [2; 4; 0]%nat "i420");
    try done; repeat constructor; lia.
Defined.

(** ** The composition pass: what it leaves of the inputs *)

Lemma kept_refl i : PassFacts.kept i i.
Proof. by repeat split. Qed.

Lemma kept_trans i1 i2 i3 :
  PassFacts.kept i1 i2 -> PassFacts.kept i2 i3 -> PassFacts.kept i1 i3.
Proof.
  intros (Ha & Hs & Hf & Hq & Hn) (Ha' & Hs' & Hf' & Hq' & Hn').
  repeat split; try congruence; [by etrans | auto].
Qed.

Lemma popInput_kept i : PassFacts.kept i (popInput i).2.
Proof.
  destruct (popInput_flags i) as (Ha & Hs & Hf). destruct (popInput_queue i) as [Hq Hn].
  by repeat split.
Qed.

Lemma get_sync_frame_kept target i : PassFacts.kept i (get_sync_frame target i).2.
Proof.
  destruct (get_sync_frame_flags target i) as (Ha & Hs & Hf).
  destruct (get_sync_frame_queue target i) as [Hq Hn]. by repeat split.
Qed.

Lemma getAvatarFrame_bindings fs index a frame a' :
  AvatarManager.getAvatarFrame fs index a = Returns (frame, a') ->
  AvatarManager.m_inputs a' = AvatarManager.m_inputs a.
Proof.
  unfold AvatarManager.getAvatarFrame.
  destruct (AvatarManager.m_inputs a !! index) as [url|]; [|by intros [= _ <-]].
  destruct (AvatarManager.m_frames a !! url); [by intros [= _ <-]|].
  destruct (AvatarManager.loadImage fs url); simpl; try done. by intros [= _ <-].
Qed.

Lemma avatar_frame_bindings fs index c src c' :
  SoftVideoCompositor.avatar_frame fs index c = Returns (src, c') ->
  PassFacts.bindings c' = PassFacts.bindings c.
Proof.
  unfold SoftVideoCompositor.avatar_frame, PassFacts.bindings.
  destruct (AvatarManager.getAvatarFrame _ _ _) as [[frame a]| | |] eqn:Hget; simpl; try done.
  intros [= _ <-]. simpl. by apply getAvatarFrame_bindings in Hget.
Qed.

Lemma hook_bindings fs m index c frame c' :
  SyncTarget.hook fs m index c = Returns (frame, c') ->
  PassFacts.bindings c' = PassFacts.bindings c.
Proof.
  destruct m; simpl;
    unfold SoftVideoCompositor.getInputFrame, SoftVideoCompositor.getSyncInputFrame,
           SoftVideoCompositor.getInput;
    destruct (SoftVideoCompositor.m_inputs c !! index) as [i|]; simpl; try done;
    destruct (popInput i) as [fp ip].
  - destruct (isActive i); [by intros [= _ <-] | apply avatar_frame_bindings].
  - destruct (get_sync_frame (-1) i). destruct (negb (isActive i)); [apply avatar_frame_bindings|].
    destruct (negb (isSyncEnabled i)); by intros [= _ <-].
  - destruct (get_sync_frame target i). destruct (negb (isActive i)); [apply avatar_frame_bindings|].
    destruct (negb (isSyncEnabled i)); by intros [= _ <-].
Qed.

Lemma hook_kept fs m index c frame c' :
  SyncTarget.hook fs m index c = Returns (frame, c') ->
  length (SoftVideoCompositor.m_inputs c') = length (SoftVideoCompositor.m_inputs c) /\
  forall k i0 i,
    SoftVideoCompositor.m_inputs c !! k = Some i -> PassFacts.kept i0 i ->
    exists i', SoftVideoCompositor.m_inputs c' !! k = Some i' /\ PassFacts.kept i0 i'.
Proof.
  intros Hret. destruct (hook_inputs _ _ _ _ _ _ Hret) as (ij & Hij & [-> | (i' & -> & Hi')]).
  - split; [done|]. intros k i0 i Hk Hl. by exists i.
  - split; [by rewrite length_insert|]. intros k i0 i Hk Hl.
    destruct (decide (k = index)) as [->|Hne].
    + exists i'. split.
      * apply list_lookup_insert_eq. by eapply lookup_lt_Some.
      * assert (i = ij) as -> by congruence. apply kept_trans with ij; [done|].
        destruct Hi' as [-> | [target ->]]; [apply popInput_kept | apply get_sync_frame_kept].
    + exists i. split; [|done]. by rewrite list_lookup_insert_ne.
Qed.

Lemma place_kept m_crop cw ch fs m regions c frames c' :
  SoftFrameGenerator.place m_crop cw ch (SyncTarget.hook fs m) regions c = Returns (frames, c') ->
  length frames = length regions /\
  length (SoftVideoCompositor.m_inputs c') = length (SoftVideoCompositor.m_inputs c) /\
  PassFacts.bindings c' = PassFacts.bindings c /\
  forall k i0 i,
    SoftVideoCompositor.m_inputs c !! k = Some i -> PassFacts.kept i0 i ->
    exists i', SoftVideoCompositor.m_inputs c' !! k = Some i' /\ PassFacts.kept i0 i'.
Proof.
  revert c frames. induction regions as [|it regions IH]; intros c frames.
  - simpl. intros [= <- <-]. repeat split. intros k i0 i Hk Hl. by exists i.
  - intros Hplace.
    apply place_cons_inv in Hplace as (frame & c1 & painted & frames1 & Hhook & _ & Hplace & ->).
    destruct (hook_kept _ _ _ _ _ _ Hhook) as [Hlen Hkeep].
    pose proof (hook_bindings _ _ _ _ _ _ Hhook) as Hbind.
    destruct (IH c1 frames1 Hplace) as (Hlenf & Hlen2 & Hbind2 & Hkeep2).
    repeat split; [simpl; by rewrite Hlenf | congruence | congruence |].
    intros k i0 i Hk Hl. destruct (Hkeep k i0 i Hk Hl) as (i1 & Hk1 & Hl1). eauto.
Qed.

Lemma layout_regions_as_place m_crop fs compositeBuffer regions c frames c' :
  SoftFrameGenerator.layout_regions m_crop fs compositeBuffer regions c = Returns (frames, c') ->
  exists min_sync max_sync,
    SoftFrameGenerator.sync_range regions (-1, -1) c = Returns (min_sync, max_sync) /\
    SoftFrameGenerator.place m_crop (wrap32 (buf_width compositeBuffer))
      (wrap32 (buf_height compositeBuffer))
      (SyncTarget.hook fs (SyncTarget.mode_of min_sync max_sync)) regions c
    = Returns (frames, c').
Proof.
  unfold SoftFrameGenerator.layout_regions.
  destruct (SoftFrameGenerator.sync_range regions (-1, -1) c) as [[mn mx]| | |]; simpl; try done.
  intros Hplace. exists mn, mx. split; [done|]. rewrite <- Hplace.
  apply place_ext. intros index c0. symmetry. apply inputFrame_hook.
Qed.

(** X12. A composition pass that returns gives one result for each
    region, keeps the number of inputs and the avatar bindings, and for
    every input keeps its three flags, only ever takes frames from the
    front of its queue, and leaves at least one frame in a queue that
    held one: composing never drops the last frame of an input. *)
Theorem pass_keeps_inputs m_crop fs compositeBuffer regions c frames c' :
  SoftFrameGenerator.layout_regions m_crop fs compositeBuffer regions c = Returns (frames, c') ->
  length frames = length regions /\
  length (SoftVideoCompositor.m_inputs c') = length (SoftVideoCompositor.m_inputs c) /\
  PassFacts.bindings c' = PassFacts.bindings c /\
  forall k i,
    SoftVideoCompositor.m_inputs c !! k = Some i ->
    exists i', SoftVideoCompositor.m_inputs c' !! k = Some i' /\ PassFacts.kept i i'.
Proof.
  intros Hpass.
  destruct (layout_regions_as_place _ _ _ _ _ _ _ Hpass) as (mn & mx & _ & Hplace).
  destruct (place_kept _ _ _ _ _ _ _ _ _ Hplace) as (Hlen & Hlenc & Hbind & Hkeep).
  repeat split; try done. intros k i Hk. apply (Hkeep k i i Hk). apply kept_refl.
Qed.

Lemma pass_keeps_inputs_witness :
  exists frames,
    SoftFrameGenerator.layout_regions true S3.no_files S3.canvas S3.layout S3.compositor
    = Returns (frames, SoftVideoCompositor.mk [S3.input_with [400]; S3.input_with [450]]
                                              AvatarManager.create) /\
    length frames = 2%nat /\
    exists i',
      SoftVideoCompositor.m_inputs
        (SoftVideoCompositor.mk [S3.input_with [400]; S3.input_with [450]] AvatarManager.create)
        !! 0%nat = Some i' /\
      PassFacts.kept (S3.input_with [100; 200; 300; 400]) i'.
Proof.
  assert (Hpass : exists frames,
    SoftFrameGenerator.layout_regions true S3.no_files S3.canvas S3.layout S3.compositor
    = Returns (frames, SoftVideoCompositor.mk [S3.input_with [400]; S3.input_with [450]]
                                              AvatarManager.create)).
  { eexists. by vm_compute. }
  destruct Hpass as [frames Hpass]. exists frames. split; [exact Hpass|].
  destruct (pass_keeps_inputs true S3.no_files S3.canvas S3.layout S3.compositor frames _ Hpass)
    as (Hlen & _ & _ & Hkeep).
  split; [exact Hlen|]. apply (Hkeep 0%nat). reflexivity.
Defined.

(** ** The composition pass: hold mode *)

Lemma get_sync_frame_hold s : (get_sync_frame (-1) s).2 = s.
Proof.
  unfold get_sync_frame. destruct (negb (m_active s)); [done|].
  by destruct (m_frame_queue s).
Qed.

(** In hold mode a hook leaves every sync-enabled input as it is. *)
Lemma hook_hold_keeps fs index c frame c' k i :
  SyncTarget.hook fs SyncTarget.Hold index c = Returns (frame, c') ->
  SoftVideoCompositor.m_inputs c !! k = Some i ->
  isSyncEnabled i = true ->
  SoftVideoCompositor.m_inputs c' !! k = Some i.
Proof.
  simpl. unfold SoftVideoCompositor.getSyncInputFrame, SoftVideoCompositor.getInput.
  destruct (SoftVideoCompositor.m_inputs c !! index) as [ij|] eqn:Hij; simpl; [|done].
  intros Hret Hk Hsync.
  destruct (negb (isActive ij)).
  { apply avatar_frame_inputs in Hret. by rewrite Hret. }
  destruct (decide (k = index)) as [->|Hne].
  - assert (ij = i) as -> by congruence. rewrite Hsync in Hret. simpl in Hret.
    pose proof (get_sync_frame_hold i) as Hhold.
    destruct (get_sync_frame (-1) i) as [input_frame input']. simpl in Hhold. subst input'.
    injection Hret as _ <-. simpl. by rewrite list_insert_id.
  - destruct (negb (isSyncEnabled ij)).
    + destruct (popInput ij) as [src input']. injection Hret as _ <-. simpl.
      by rewrite list_lookup_insert_ne.
    + destruct (get_sync_frame (-1) ij) as [input_frame input']. injection Hret as _ <-.
      simpl. by rewrite list_lookup_insert_ne.
Qed.

(** X13. A pass that runs in hold mode (some input is sync-capable
    but min_sync exceeds max_sync) takes no frame from any input for
    which [isSyncEnabled] is true: after the pass each of them is
    exactly as before. *)
Theorem hold_mode_keeps_synced_inputs m_crop fs compositeBuffer regions c min_sync max_sync
    frames c' :
  SoftFrameGenerator.sync_range regions (-1, -1) c = Returns (min_sync, max_sync) ->
  SyncTarget.mode_of min_sync max_sync = SyncTarget.Hold ->
  SoftFrameGenerator.layout_regions m_crop fs compositeBuffer regions c = Returns (frames, c') ->
  forall k i,
    SoftVideoCompositor.m_inputs c !! k = Some i ->
    isSyncEnabled i = true ->
    SoftVideoCompositor.m_inputs c' !! k = Some i.
Proof.
  intros Hrange Hmode Hpass k i Hk Hsync.
  destruct (layout_regions_as_place _ _ _ _ _ _ _ Hpass) as (mn & mx & Hrange' & Hplace).
  rewrite Hrange in Hrange'. injection Hrange' as <- <-. rewrite Hmode in Hplace.
  clear Hpass Hrange Hmode. revert c frames Hplace Hk.
  induction regions as [|it regions IH]; intros c frames.
  - simpl. by intros [= <- <-].
  - intros Hplace Hk.
    apply place_cons_inv in Hplace as (frame & c1 & painted & frames1 & Hhook & _ & Hplace & ->).
    apply (IH c1 frames1 Hplace).
    by apply (hook_hold_keeps fs (SoftFrameGenerator.input it) c frame c1 k i).
Qed.

Lemma hold_mode_keeps_synced_inputs_witness :
  exists frames c',
    SoftFrameGenerator.layout_regions true S3.no_files S3.canvas S3.layout
      (SoftVideoCompositor.mk [S3.input_with [100; 200]; S3.input_with [250; 350]]
                              AvatarManager.create)
    = Returns (frames, c') /\
    SoftFrameGenerator.pictures frames
    = [Some (mkVideoFrame (S3.image 100)); Some (mkVideoFrame (S3.image 250))] /\
    SoftVideoCompositor.m_inputs c' !! 0%nat = Some (S3.input_with [100; 200]).
Proof.
  eexists _, _. split; [by vm_compute|]. split; [by vm_compute|].
  eapply (hold_mode_keeps_synced_inputs true S3.no_files S3.canvas S3.layout
            (SoftVideoCompositor.mk [S3.input_with [100; 200]; S3.input_with [250; 350]]
                                    AvatarManager.create) 250 200).
  - reflexivity.
  - reflexivity.
  - by vm_compute.
  - reflexivity.
  - reflexivity.
Defined.

(** ** The composition pass: the sync window against the queues *)

Lemma foldl_min_le a l :
  foldl Z.min a l <= a /\ forall x, x ∈ l -> foldl Z.min a l <= x.
Proof.
  revert a. induction l as [|y l IH]; intros a; simpl.
  - split; [lia|]. intros x Hx. by apply list_elem_of_In in Hx.
  - destruct (IH (Z.min a y)) as [Ha Hl]. split; [lia|].
    intros x Hx. apply elem_of_cons in Hx as [->|Hx]; [lia | by apply Hl].
Qed.

Lemma foldl_max_ge a l :
  a <= foldl Z.max a l /\ forall x, x ∈ l -> x <= foldl Z.max a l.
Proof.
  revert a. induction l as [|y l IH]; intros a; simpl.
  - split; [lia|]. intros x Hx. by apply list_elem_of_In in Hx.
  - destruct (IH (Z.max a y)) as [Ha Hl]. split; [lia|].
    intros x Hx. apply elem_of_cons in Hx as [->|Hx]; [lia | by apply Hl].
Qed.

Lemma least_le l x : x ∈ l -> SyncTarget.least l <= x.
Proof.
  destruct l as [|y l]; [intros Hx; by apply list_elem_of_In in Hx|]. simpl.
  destruct (foldl_min_le y l) as [Hy Hl].
  intros Hx. apply elem_of_cons in Hx as [->|Hx]; [done | by apply Hl].
Qed.

Lemma greatest_ge l x : x ∈ l -> x <= SyncTarget.greatest l.
Proof.
  destruct l as [|y l]; [intros Hx; by apply list_elem_of_In in Hx|]. simpl.
  destruct (foldl_max_ge y l) as [Hy Hl].
  intros Hx. apply elem_of_cons in Hx as [->|Hx]; [done | by apply Hl].
Qed.

(** What the first loop observes of a sync-capable input. *)
Lemma observed_capable c it i f rest :
  SoftVideoCompositor.m_inputs c !! SoftFrameGenerator.input it = Some i ->
  isSyncEnabled i = true ->
  m_frame_queue i = f :: rest ->
  SyncTarget.observed c it = Some (sync_timeStamp f, sync_timeStamp (List.last rest f)).
Proof. intros Hi Hsync Hq. unfold SyncTarget.observed. by rewrite Hi, Hsync, Hq. Qed.

(** X14. When no observed sync timestamp is -1, the window the first
    loop computes lies inside the span of every queue it looked at:
    for each region whose input is sync-enabled with a frame queued,
    the front of that queue is stamped at or below min_sync and its
    back at or above max_sync. *)
Theorem sync_window_within_every_queue regions c it i f rest :
  SyncTarget.in_range c regions ->
  Forall SoftInput.wf (SoftVideoCompositor.m_inputs c) ->
  Forall (fun o : Z * Z => o.1 <> -1 /\ o.2 <> -1) (SyncTarget.observations c regions) ->
  it ∈ regions ->
  SoftVideoCompositor.m_inputs c !! SoftFrameGenerator.input it = Some i ->
  isSyncEnabled i = true ->
  m_frame_queue i = f :: rest ->
  exists min_sync max_sync,
    SoftFrameGenerator.sync_range regions (-1, -1) c = Returns (min_sync, max_sync) /\
    sync_timeStamp f <= min_sync /\
    max_sync <= sync_timeStamp (List.last rest f).
Proof.
  intros Hrange Hwf Hne Hit Hi Hsync Hq.
  pose proof (sync_range_fold c regions (-1, -1) Hrange Hwf) as Hfold. simpl in Hfold.
  eexists _, _. split; [exact Hfold|].
  assert (Hobs : (sync_timeStamp f, sync_timeStamp (List.last rest f))
                 ∈ SyncTarget.observations c regions).
  { unfold SyncTarget.observations. apply list_elem_of_omap. exists it. split; [done|].
    by apply observed_capable with i. }
  rewrite unset_or_greatest, unset_or_least.
  - split.
    + apply greatest_ge. apply list_elem_of_fmap.
      by exists (sync_timeStamp f, sync_timeStamp (List.last rest f)).
    + apply least_le. apply list_elem_of_fmap.
      by exists (sync_timeStamp f, sync_timeStamp (List.last rest f)).
  - apply Forall_fmap. eapply Forall_impl; [exact Hne|]. by intros o [? ?].
  - apply Forall_fmap. eapply Forall_impl; [exact Hne|]. by intros o [? ?].
Qed.

Lemma sync_window_within_every_queue_witness :
  exists min_sync max_sync,
    SoftFrameGenerator.sync_range S3.layout (-1, -1) S3.compositor
    = Returns (min_sync, max_sync) /\
    sync_timeStamp (S3.frame_at 100) <= min_sync /\
    max_sync <= sync_timeStamp
                  (List.last [S3.frame_at 200; S3.frame_at 300; S3.frame_at 400] (S3.frame_at 100)).
Proof.
  apply (sync_window_within_every_queue S3.layout S3.compositor
           (SoftFrameGenerator.mkLayoutEntry 0 S3.full) (S3.input_with [100; 200; 300; 400])).
  - repeat constructor.
  - repeat constructor; discriminate.
  - repeat constructor; discriminate.
  - apply list_elem_of_here.
  - reflexivity.
  - reflexivity.
  - reflexivity.
Defined.

(** ** The composition pass: sync mode without the exception *)

Lemma suffix_single_last {A} (x y : A) (l : list A) :
  [x] `suffix_of` y :: l -> List.last l y = x.
Proof.
  intros [k Hk]. assert (Hlast : last (y :: l) = Some x) by (rewrite Hk; apply last_snoc).
  rewrite last_as_List_last in Hlast. congruence.
Qed.

(** X15. In a pass that runs in sync mode and returns, if none of
    the observed back timestamps is the sentinel -1, every region whose
    input is sync-capable when the pass starts shows a frame of that
    input's queue whose sync timestamp is at least max_sync; the
    still-image exception never applies, because max_sync is at most
    the timestamp of the last frame of every such queue. *)
Theorem sync_mode_frame_reaches_target m_crop fs compositeBuffer c pre it post i frames c' :
  SyncTarget.in_range c (pre ++ it :: post) ->
  Forall SoftInput.wf (SoftVideoCompositor.m_inputs c) ->
  Forall (fun o : Z * Z => o.2 <> -1) (SyncTarget.observations c (pre ++ it :: post)) ->
  SyncTarget.mode_of (SyncTarget.min_sync c (pre ++ it :: post))
                     (SyncTarget.max_sync c (pre ++ it :: post))
  = SyncTarget.Sync (SyncTarget.max_sync c (pre ++ it :: post)) ->
  SoftVideoCompositor.m_inputs c !! SoftFrameGenerator.input it = Some i ->
  SyncTarget.capable i ->
  SoftFrameGenerator.layout_regions m_crop fs compositeBuffer (pre ++ it :: post) c
  = Returns (frames, c') ->
  exists f,
    SoftFrameGenerator.pictures frames !! length pre = Some (Some (mkVideoFrame (buffer f))) /\
    f ∈ m_frame_queue i /\
    SyncTarget.max_sync c (pre ++ it :: post) <= sync_timeStamp f.
Proof.
  intros Hrange Hwf Hne Hmode Hi Hcap Hpass.
  pose proof (sync_range_fold c (pre ++ it :: post) (-1, -1) Hrange Hwf) as Hfold.
  change (SoftFrameGenerator.sync_range (pre ++ it :: post) (-1, -1) c
          = Returns (SyncTarget.min_sync c (pre ++ it :: post),
                     SyncTarget.max_sync c (pre ++ it :: post))) in Hfold.
  assert (Hleast : SyncTarget.max_sync c (pre ++ it :: post)
                   = SyncTarget.least (SyncTarget.observations c (pre ++ it :: post)).*2).
  { unfold SyncTarget.max_sync. apply unset_or_least. by apply Forall_fmap. }
  destruct (layout_regions_as_place _ _ _ _ _ _ _ Hpass) as (mn & mx & Hrange' & Hplace).
  rewrite Hfold in Hrange'. injection Hrange' as <- <-. rewrite Hmode in Hplace.
  set (mn := SyncTarget.min_sync c (pre ++ it :: post)) in *.
  set (mx := SyncTarget.max_sync c (pre ++ it :: post)) in *.
  assert (Hmx : mx <> -1).
  { unfold SyncTarget.mode_of in Hmode. by destruct (Z.eqb_spec mx (-1)). }
  destruct (sync_region_served _ _ _ _ _ _ _ _ _ _ _ _ Hmx Hi Hcap Hplace)
    as (shown & c1 & i1 & f & rest & _ & _ & _ & _ & Hshown & Hsufi & Hstop).
  exists f. split; [done|]. split.
  - destruct Hsufi as [k ->]. apply elem_of_app. right. apply list_elem_of_here.
  - destruct Hstop as [Hreached | ->]; [done|].
    destruct Hcap as (Hact & Hsynced & Hq).
    destruct (m_frame_queue i) as [|f0 rest0] eqn:Hqi; [done|].
    rewrite Hleast. apply least_le. apply list_elem_of_fmap.
    exists (sync_timeStamp f0, sync_timeStamp f). split; [done|].
    unfold SyncTarget.observations. apply list_elem_of_omap. exists it. split.
    + apply elem_of_app. right. apply list_elem_of_here.
    + rewrite (observed_capable c it i f0 rest0 Hi Hsynced Hqi).
      by rewrite (suffix_single_last f f0 rest0 Hsufi).
Qed.

Lemma sync_mode_frame_reaches_target_witness :
  exists frames c',
    SoftFrameGenerator.layout_regions true S3.no_files S3.canvas S3.layout S3.compositor
    = Returns (frames, c') /\
    exists f,
      SoftFrameGenerator.pictures frames !! 1%nat = Some (Some (mkVideoFrame (buffer f))) /\
      f ∈ m_frame_queue (S3.input_with [250; 350; 450]) /\
      400 <= sync_timeStamp f.
Proof.
  eexists _, _. split; [by vm_compute|].
  eapply (sync_mode_frame_reaches_target true S3.no_files S3.canvas S3.compositor
            [SoftFrameGenerator.mkLayoutEntry 0 S3.full]
            (SoftFrameGenerator.mkLayoutEntry 1 S3.full) []
            (S3.input_with [250; 350; 450])).
  - repeat constructor.
  - repeat constructor; discriminate.
  - repeat constructor; discriminate.
  - reflexivity.
  - reflexivity.
  - repeat split; discriminate.
  - by vm_compute.
Defined.

(* ================================================================== *)
(** ** SoftFrameGenerator: registering and removing outputs *)

Lemma erase_dest_none dst bucket :
  SoftFrameGenerator.erase_dest dst bucket = None <->
  Forall (fun o => SoftFrameGenerator.dest o <> dst) bucket.
Proof.
  induction bucket as [|o bucket IH]; simpl; [done|].
  destruct (Nat.eqb_spec (SoftFrameGenerator.dest o) dst) as [Heq|Hne].
  - split; [done|]. intros Hall. by apply Forall_inv in Hall.
  - destruct (SoftFrameGenerator.erase_dest dst bucket) as [rest|]; simpl.
    + split; [done|]. intros Hall. apply Forall_inv_tail in Hall. by apply IH in Hall.
    + split; [|done]. intros _. constructor; [done|]. by apply IH.
Qed.

Lemma erase_dest_some dst bucket bucket' :
  SoftFrameGenerator.erase_dest dst bucket = Some bucket' ->
  exists pre o post,
    bucket = pre ++ o :: post /\ SoftFrameGenerator.dest o = dst /\
    Forall (fun o' => SoftFrameGenerator.dest o' <> dst) pre /\
    bucket' = pre ++ post.
Proof.
  revert bucket'. induction bucket as [|o bucket IH]; intros bucket'; simpl; [done|].
  destruct (Nat.eqb_spec (SoftFrameGenerator.dest o) dst) as [Heq|Hne].
  - intros [= <-]. by exists [], o, bucket.
  - destruct (SoftFrameGenerator.erase_dest dst bucket) as [rest|]; simpl; [|done].
    intros [= <-]. destruct (IH rest eq_refl) as (pre & o' & post & -> & Hd & Hpre & ->).
    exists (o :: pre), o', post. repeat split; try done. by constructor.
Qed.

Lemma remove_first_none dst outputs :
  SoftFrameGenerator.remove_first dst outputs = None <->
  Forall (Forall (fun o => SoftFrameGenerator.dest o <> dst)) outputs.
Proof.
  induction outputs as [|bucket outputs IH]; simpl; [done|].
  destruct (SoftFrameGenerator.erase_dest dst bucket) as [bucket'|] eqn:Herase.
  - split; [done|]. intros Hall. apply Forall_inv in Hall.
    apply erase_dest_none in Hall. congruence.
  - apply erase_dest_none in Herase.
    destruct (SoftFrameGenerator.remove_first dst outputs) as [rest|]; simpl.
    + split; [done|]. intros Hall. apply Forall_inv_tail in Hall. by apply IH in Hall.
    + split; [|done]. intros _. constructor; [done|]. by apply IH.
Qed.

Lemma remove_first_some dst outputs outputs' :
  SoftFrameGenerator.remove_first dst outputs = Some outputs' ->
  exists (i : nat) pre o post,
    outputs !! i = Some (pre ++ o :: post) /\ SoftFrameGenerator.dest o = dst /\
    Forall (fun o' => SoftFrameGenerator.dest o' <> dst) pre /\
    (forall (j : nat) bucket,
       (j < i)%nat -> outputs !! j = Some bucket ->
       Forall (fun o' => SoftFrameGenerator.dest o' <> dst) bucket) /\
    outputs' = <[i := pre ++ post]> outputs.
Proof.
  revert outputs'. induction outputs as [|bucket outputs IH]; intros outputs'; simpl; [done|].
  destruct (SoftFrameGenerator.erase_dest dst bucket) as [bucket'|] eqn:Herase.
  - intros [= <-]. destruct (erase_dest_some _ _ _ Herase) as (pre & o & post & -> & Hd & Hpre & ->).
    exists O, pre, o, post. repeat split; try done. intros j bucket Hj. lia.
  - apply erase_dest_none in Herase.
    destruct (SoftFrameGenerator.remove_first dst outputs) as [rest|]; simpl; [|done].
    intros [= <-].
    destruct (IH rest eq_refl) as (i & pre & o & post & Hi & Hd & Hpre & Hbefore & ->).
    exists (S i), pre, o, post. repeat split; try done.
    intros [|j] b Hj; simpl.
    + by intros [= <-].
    + apply Hbefore. lia.
Qed.

Lemma not_registered dst g :
  ~ Outputs.registered dst g <->
  Forall (Forall (fun o => SoftFrameGenerator.dest o <> dst)) (SoftFrameGenerator.m_outputs g).
Proof.
  unfold Outputs.registered. split.
  - intros Hno. apply Forall_forall. intros bucket Hb. apply Forall_forall. intros o Ho Hd.
    apply Hno. by exists bucket, o.
  - intros Hall (bucket & o & Hb & Ho & Hd).
    rewrite Forall_forall in Hall. specialize (Hall bucket Hb).
    rewrite Forall_forall in Hall. by apply (Hall o Ho).
Qed.

Lemma set_outputs_same g : SoftFrameGenerator.set_outputs (SoftFrameGenerator.m_outputs g) g = g.
Proof. by destruct g. Qed.

(** X16. [removeOutput] answers false and changes nothing exactly when
    no bucket holds an output with the destination.  Otherwise it
    answers true and takes away one output only: the first one with
    that destination in the first bucket that has one; a destination
    registered more than once stays registered. *)
Theorem removeOutput_takes_first_registration dst g :
  (~ Outputs.registered dst g <-> SoftFrameGenerator.removeOutput dst g = (false, g)) /\
  (Outputs.registered dst g ->
   exists (i : nat) pre o post,
     SoftFrameGenerator.m_outputs g !! i = Some (pre ++ o :: post) /\
     SoftFrameGenerator.dest o = dst /\
     Forall (fun o' => SoftFrameGenerator.dest o' <> dst) pre /\
     (forall (j : nat) bucket,
        (j < i)%nat -> SoftFrameGenerator.m_outputs g !! j = Some bucket ->
        Forall (fun o' => SoftFrameGenerator.dest o' <> dst) bucket) /\
     SoftFrameGenerator.removeOutput dst g
     = (true, SoftFrameGenerator.set_outputs
                (<[i := pre ++ post]> (SoftFrameGenerator.m_outputs g)) g)).
Proof.
  unfold SoftFrameGenerator.removeOutput. split.
  - rewrite not_registered, <- remove_first_none.
    destruct (SoftFrameGenerator.remove_first dst _); split; done.
  - intros Hreg.
    destruct (SoftFrameGenerator.remove_first dst _) as [outputs'|] eqn:Hrm.
    + destruct (remove_first_some _ _ _ Hrm) as (i & pre & o & post & Hi & Hd & Hpre & Hb & ->).
      by exists i, pre, o, post.
    + exfalso. apply remove_first_none in Hrm. by apply not_registered in Hrm.
Qed.

Lemma removeOutput_takes_first_registration_witness :
  exists (i : nat) pre o post,
    SoftFrameGenerator.m_outputs
      (SoftFrameGenerator.mk 60 15 0 4 [[]; [Band60.output30; Band60.output30]; []; []]) !! i
    = Some (pre ++ o :: post) /\
    SoftFrameGenerator.dest o = 7%nat /\
    Forall (fun o' => SoftFrameGenerator.dest o' <> 7%nat) pre /\
    (forall (j : nat) bucket,
       (j < i)%nat ->
       SoftFrameGenerator.m_outputs
         (SoftFrameGenerator.mk 60 15 0 4 [[]; [Band60.output30; Band60.output30]; []; []]) !! j
       = Some bucket ->
       Forall (fun o' => SoftFrameGenerator.dest o' <> 7%nat) bucket) /\
    SoftFrameGenerator.removeOutput 7
      (SoftFrameGenerator.mk 60 15 0 4 [[]; [Band60.output30; Band60.output30]; []; []])
    = (true, SoftFrameGenerator.set_outputs
               (<[i := pre ++ post]>
                  (SoftFrameGenerator.m_outputs
                     (SoftFrameGenerator.mk 60 15 0 4
                        [[]; [Band60.output30; Band60.output30]; []; []])))
               (SoftFrameGenerator.mk 60 15 0 4 [[]; [Band60.output30; Band60.output30]; []; []])).
Proof.
  apply (removeOutput_takes_first_registration 7
           (SoftFrameGenerator.mk 60 15 0 4 [[]; [Band60.output30; Band60.output30]; []; []])).
  exists [Band60.output30; Band60.output30], Band60.output30.
  split; [|split; [|reflexivity]].
  - apply list_elem_of_further, list_elem_of_here.
  - apply list_elem_of_here.
Defined.

Lemma erase_dest_snoc dst bucket o :
  Forall (fun o' => SoftFrameGenerator.dest o' <> dst) bucket ->
  SoftFrameGenerator.dest o = dst ->
  SoftFrameGenerator.erase_dest dst (bucket ++ [o]) = Some bucket.
Proof.
  intros Hall Hd. induction Hall as [|o' bucket Ho' Hall IH]; simpl.
  - by rewrite Hd, Nat.eqb_refl.
  - destruct (Nat.eqb_spec (SoftFrameGenerator.dest o') dst); [done|]. by rewrite IH.
Qed.

Lemma remove_first_added dst outputs (i : nat) bucket o :
  Forall (Forall (fun o' => SoftFrameGenerator.dest o' <> dst)) outputs ->
  outputs !! i = Some bucket ->
  SoftFrameGenerator.dest o = dst ->
  SoftFrameGenerator.remove_first dst (alter (fun b => b ++ [o]) i outputs) = Some outputs.
Proof.
  intros Hall. revert i. induction Hall as [|b outputs Hb Hall IH]; intros i Hi Hd; [done|].
  destruct i as [|i]; simpl in *.
  - injection Hi as ->. by rewrite erase_dest_snoc.
  - apply erase_dest_none in Hb. rewrite Hb.
    pose proof (IH i Hi Hd) as IH'. unfold alter in IH'. by rewrite IH'.
Qed.

(** What [addOutput] returns for a rate of the band. *)
Lemma addOutput_returns NDEBUG fuel w h f dst g :
  FpsBand.valid g -> (33 <= fuel)%nat ->
  FpsBand.member (SoftFrameGenerator.m_maxSupportedFps g)
                 (SoftFrameGenerator.m_minSupportedFps g) f ->
  is_Some (SoftFrameGenerator.m_outputs g
             !! Z.to_nat (SoftFrameGenerator.m_maxSupportedFps g / f - 1)) /\
  SoftFrameGenerator.addOutput NDEBUG fuel w h f dst g
  = Returns (true,
             SoftFrameGenerator.set_outputs
               (alter (fun b => b ++ [Outputs.made w h f dst])
                      (Z.to_nat (SoftFrameGenerator.m_maxSupportedFps g / f - 1))
                      (SoftFrameGenerator.m_outputs g)) g).
Proof.
  intros Hv Hfuel Hmember.
  pose proof Hv as [Hmin Hmax Hband HcMeq Hc Hsize Hbuckets].
  destruct (band_period _ _ _ Hmin Hband Hmember) as (Hf & Hp & _).
  destruct (valid_counterMax_bounds g Hv) as [HcM _].
  assert (Hidx : (Z.to_nat (SoftFrameGenerator.m_maxSupportedFps g / f - 1)
                  < length (SoftFrameGenerator.m_outputs g))%nat).
  { rewrite Hsize, HcMeq. lia. }
  split; [by apply lookup_lt_is_Some_2|].
  assert (Hassert :
    (if NDEBUG then Returns tt
     else ok ← SoftFrameGenerator.isSupported fuel w h f g; c_assert NDEBUG ok) = Returns tt).
  { destruct NDEBUG; [done|].
    destruct (isSupported_exact fuel w h f g Hfuel Hmin Hmax) as (b & -> & Hb).
    simpl. by rewrite (proj2 Hb Hmember). }
  unfold SoftFrameGenerator.addOutput. rewrite Hassert. simpl.
  destruct (Z.eqb_spec f 0); [lia|].
  unfold SoftFrameGenerator.bucket_index.
  destruct (Z.ltb_spec (SoftFrameGenerator.m_maxSupportedFps g / f - 1) 0); [lia|].
  destruct (Z.leb_spec (Z.of_nat (length (SoftFrameGenerator.m_outputs g)))
                       (SoftFrameGenerator.m_maxSupportedFps g / f - 1)); [lia|].
  done.
Qed.

(** An output just made is registered, and is the one [removeOutput]
    takes away. *)
Lemma registered_added w h f dst g (i : nat) bucket :
  SoftFrameGenerator.m_outputs g !! i = Some bucket ->
  Outputs.registered dst
    (SoftFrameGenerator.set_outputs
       (alter (fun b => b ++ [Outputs.made w h f dst]) i (SoftFrameGenerator.m_outputs g)) g).
Proof.
  intros Hb. exists (bucket ++ [Outputs.made w h f dst]), (Outputs.made w h f dst).
  split; [|split; [|done]].
  - apply (list_elem_of_lookup_2 _ i). simpl. by rewrite list_lookup_alter_eq, Hb.
  - apply elem_of_app. right. apply list_elem_of_here.
Qed.

Lemma removeOutput_added w h f dst g (i : nat) bucket :
  ~ Outputs.registered dst g ->
  SoftFrameGenerator.m_outputs g !! i = Some bucket ->
  SoftFrameGenerator.removeOutput dst
    (SoftFrameGenerator.set_outputs
       (alter (fun b => b ++ [Outputs.made w h f dst]) i (SoftFrameGenerator.m_outputs g)) g)
  = (true, g).
Proof.
  intros Hno Hb. apply not_registered in Hno.
  unfold SoftFrameGenerator.removeOutput. simpl.
  rewrite (remove_first_added dst _ _ bucket (Outputs.made w h f dst) Hno Hb eq_refl).
  by destruct g.
Qed.

(** X17. Registering a destination that no bucket holds, at a rate of
    the band, and removing it again gives back the generator as it
    was: [removeOutput] finds the output [addOutput] made and nothing
    else. *)
Theorem addOutput_then_removeOutput NDEBUG fuel w h f dst g :
  FpsBand.valid g -> (33 <= fuel)%nat ->
  FpsBand.member (SoftFrameGenerator.m_maxSupportedFps g)
                 (SoftFrameGenerator.m_minSupportedFps g) f ->
  ~ Outputs.registered dst g ->
  exists g1,
    SoftFrameGenerator.addOutput NDEBUG fuel w h f dst g = Returns (true, g1) /\
    Outputs.registered dst g1 /\
    SoftFrameGenerator.removeOutput dst g1 = (true, g).
Proof.
  intros Hv Hfuel Hmember Hno.
  destruct (addOutput_returns NDEBUG fuel w h f dst g Hv Hfuel Hmember) as [[bucket Hb] Hadd].
  eexists. split; [exact Hadd|]. split.
  - by apply (registered_added w h f dst g _ bucket).
  - by apply (removeOutput_added w h f dst g _ bucket).
Qed.

Lemma addOutput_then_removeOutput_witness :
  exists g1,
    SoftFrameGenerator.addOutput false 33 640 480 30 7 Band60.generator = Returns (true, g1) /\
    Outputs.registered 7 g1 /\
    SoftFrameGenerator.removeOutput 7 g1 = (true, Band60.generator).
Proof.
  apply (addOutput_then_removeOutput false 33 640 480 30 7 Band60.generator).
  - apply Band60_generator_valid.
  - lia.
  - by exists 1%nat.
  - apply not_registered. repeat constructor.
Defined.

(* ================================================================== *)
(** ** SoftFrameGenerator: how often an output is served *)

(** The multiples of [p] from [c] up to [c + n], not counting
    [c + n], are [(c + n + p - 1) / p - (c + p - 1) / p] in number;
    one more tick adds one when the counter is a multiple. *)
Lemma multiples_step p x :
  0 < p ->
  (x + 1 + p - 1) / p - (x + p - 1) / p = if x mod p =? 0 then 1 else 0.
Proof.
  intros Hp. pose proof (Z.div_mod x p ltac:(lia)) as Hx.
  pose proof (Z.mod_pos_bound x p Hp) as Hr.
  assert (H1 : (x + 1 + p - 1) / p = x / p + 1).
  { symmetry. apply Z.div_unique with (x mod p); [lia | lia]. }
  rewrite H1. destruct (Z.eqb_spec (x mod p) 0) as [Hz|Hnz].
  - assert (H2 : (x + p - 1) / p = x / p).
    { symmetry. apply Z.div_unique with (p - 1); [lia | lia]. }
    lia.
  - assert (H2 : (x + p - 1) / p = x / p + 1).
    { symmetry. apply Z.div_unique with (x mod p - 1); [lia | lia]. }
    lia.
Qed.

Lemma multiples_shift p q x :
  0 < p -> (p * q + x + p - 1) / p = q + (x + p - 1) / p.
Proof.
  intros Hp. replace (p * q + x + p - 1) with (x + p - 1 + q * p) by lia.
  rewrite Z.div_add by lia. lia.
Qed.

(** A rate of the band divides [maxFps]. *)
Lemma band_rate_divides maxFps minFps fps :
  0 < minFps ->
  FpsBand.exact_power_of_two maxFps minFps ->
  FpsBand.member maxFps minFps fps ->
  fps * (maxFps / fps) = maxFps.
Proof.
  intros Hmin (k & Hk) (j & Hj & Hle).
  pose proof (pow2_pos k) as Hpk. pose proof (pow2_pos j) as Hpj.
  assert (Hjk : (j <= k)%nat).
  { destruct (Nat.le_gt_cases j k) as [|Hlt]; [done|].
    assert (2 ^ Z.of_nat k < 2 ^ Z.of_nat j) by (apply Z.pow_lt_mono_r; lia). nia. }
  assert (Hsplit : 2 ^ Z.of_nat k = 2 ^ Z.of_nat (k - j) * 2 ^ Z.of_nat j).
  { rewrite <- Z.pow_add_r by lia. f_equal. lia. }
  assert (Hdiv : maxFps / fps = 2 ^ Z.of_nat (k - j)).
  { rewrite Hk, Hj, Hsplit.
    replace (minFps * (2 ^ Z.of_nat (k - j) * 2 ^ Z.of_nat j))
      with (2 ^ Z.of_nat (k - j) * (minFps * 2 ^ Z.of_nat j)) by lia.
    apply Z.div_mul. nia. }
  rewrite Hdiv, Hk, Hj, Hsplit. lia.
Qed.

(** Over a run of ticks that all compose a frame, the ticks that serve
    an output are the multiples of its period the counter goes
    through. *)
Lemma run_ticks_served g frames log g' (i : nat) bucket o :
  FpsBand.valid g ->
  SoftFrameGenerator.m_outputs g !! i = Some bucket -> o ∈ bucket ->
  Forall is_Some frames ->
  SoftFrameGenerator.run frames g = Returns (log, g') ->
  Z.of_nat (Outputs.ticks_served log o)
  = (SoftFrameGenerator.m_counter g + Z.of_nat (length frames)
     + SoftFrameGenerator.m_maxSupportedFps g / SoftFrameGenerator.fps o - 1)
      / (SoftFrameGenerator.m_maxSupportedFps g / SoftFrameGenerator.fps o)
    - (SoftFrameGenerator.m_counter g
       + SoftFrameGenerator.m_maxSupportedFps g / SoftFrameGenerator.fps o - 1)
        / (SoftFrameGenerator.m_maxSupportedFps g / SoftFrameGenerator.fps o).
Proof.
  revert g log. induction frames as [|frame frames IH]; intros g log Hv Hi Ho Hall Hrun.
  - injection Hrun as <- <-. simpl. rewrite Z.add_0_r. unfold Outputs.ticks_served. simpl. lia.
  - destruct (onTimeout_valid g frame Hv)
      as (delivered & g1 & Htick & Hv1 & Hout & Hmax & Hmin & Hcounter & _ & Hserved).
    simpl in Hrun. rewrite Htick in Hrun. simpl in Hrun.
    destruct (SoftFrameGenerator.run frames g1) as [[log1 g2]| | |] eqn:Hrun1; try done.
    simpl in Hrun. injection Hrun as <- <-.
    apply Forall_cons in Hall as [Hframe Hall].
    rewrite <- Hout in Hi.
    pose proof (IH g1 log1 Hv1 Hi Ho Hall Hrun1) as Hlater.
    rewrite Hout in Hi. specialize (Hserved Hframe i bucket o Hi Ho).
    rewrite Hmax, Hcounter in Hlater.
    destruct (FpsBand.valid_buckets g Hv i bucket o Hi Ho) as [Hmember _].
    destruct (band_period _ _ _ (FpsBand.valid_min g Hv) (FpsBand.valid_band g Hv) Hmember)
      as (_ & Hp & [q Hq]).
    pose proof (FpsBand.valid_counter g Hv) as Hc.
    rewrite (FpsBand.valid_counterMax g Hv) in Hc.
    set (p := SoftFrameGenerator.m_maxSupportedFps g / SoftFrameGenerator.fps o) in *.
    set (c := SoftFrameGenerator.m_counter g) in *.
    set (cm := SoftFrameGenerator.m_maxSupportedFps g / SoftFrameGenerator.m_minSupportedFps g) in *.
    assert (Hfirst : Z.of_nat (Outputs.ticks_served (delivered :: log1) o)
                     = (if c mod p =? 0 then 1 else 0) + Z.of_nat (Outputs.ticks_served log1 o)).
    { unfold Outputs.ticks_served. rewrite filter_cons.
      destruct (decide (o ∈ delivered.*1)) as [Hin|Hnot].
      - apply Hserved in Hin. rewrite Hin. simpl. lia.
      - destruct (Z.eqb_spec (c mod p) 0) as [Hz|Hnz]; [|lia].
        exfalso. by apply Hnot, Hserved. }
    rewrite Hfirst, Hlater, <- (multiples_step p c) by lia.
    replace (Z.of_nat (length (frame :: frames))) with (1 + Z.of_nat (length frames))
      by (simpl; lia).
    destruct (Z.eq_dec (c + 1) cm) as [Hwrap|Hnowrap].
    + rewrite Hwrap, Z_mod_same_full.
      replace (c + (1 + Z.of_nat (length frames)) + p - 1)
        with (p * q + Z.of_nat (length frames) + p - 1) by lia.
      replace (cm + p - 1) with (p * q + 0 + p - 1) by lia.
      rewrite !multiples_shift by lia.
      replace (0 + Z.of_nat (length frames) + p - 1)
        with (Z.of_nat (length frames) + p - 1) by lia.
      lia.
    + rewrite (Z.mod_small (c + 1) cm) by lia.
      replace (c + (1 + Z.of_nat (length frames)) + p - 1)
        with (c + 1 + Z.of_nat (length frames) + p - 1) by lia.
      lia.
Qed.

(** X18. An output in a bucket of a valid generator gets its rate:
    its rate f divides maxFps, and over any run of n * (maxFps / f)
    ticks that all compose a frame, from whatever counter the run
    starts, it is handed a frame on exactly n of the ticks; so over
    maxFps ticks, one second of the timer, on exactly f of them. *)
Theorem output_gets_its_rate g (i : nat) bucket o n frames :
  FpsBand.valid g ->
  SoftFrameGenerator.m_outputs g !! i = Some bucket -> o ∈ bucket ->
  Forall is_Some frames ->
  0 <= n ->
  Z.of_nat (length frames)
  = n * (SoftFrameGenerator.m_maxSupportedFps g / SoftFrameGenerator.fps o) ->
  SoftFrameGenerator.fps o
    * (SoftFrameGenerator.m_maxSupportedFps g / SoftFrameGenerator.fps o)
  = SoftFrameGenerator.m_maxSupportedFps g /\
  exists log g',
    SoftFrameGenerator.run frames g = Returns (log, g') /\
    Z.of_nat (Outputs.ticks_served log o) = n.
Proof.
  intros Hv Hi Ho Hall Hn Hlen.
  destruct (FpsBand.valid_buckets g Hv i bucket o Hi Ho) as [Hmember _].
  pose proof (FpsBand.valid_min g Hv) as Hmin. pose proof (FpsBand.valid_band g Hv) as Hband.
  split; [by apply (band_rate_divides _ _ _ Hmin Hband Hmember)|].
  destruct (run_served g frames Hv) as (log & g' & Hrun & _).
  exists log, g'. split; [done|].
  rewrite (run_ticks_served g frames log g' i bucket o Hv Hi Ho Hall Hrun), Hlen.
  destruct (band_period _ _ _ Hmin Hband Hmember) as (_ & Hp & _).
  set (p := SoftFrameGenerator.m_maxSupportedFps g / SoftFrameGenerator.fps o) in *.
  replace (SoftFrameGenerator.m_counter g + n * p + p - 1)
    with (p * n + SoftFrameGenerator.m_counter g + p - 1) by lia.
  rewrite multiples_shift by lia. lia.
Qed.

Lemma output_gets_its_rate_witness :
  30 * (60 / 30) = 60 /\
  exists log g',
    SoftFrameGenerator.run (replicate 60 (Some Band60.canvas))
      (SoftFrameGenerator.mk 60 15 3 4 [[]; [Band60.output30]; []; []])
    = Returns (log, g') /\
    Z.of_nat (Outputs.ticks_served log Band60.output30) = 30.
Proof.
  apply (output_gets_its_rate
           (SoftFrameGenerator.mk 60 15 3 4 [[]; [Band60.output30]; []; []])
           1 [Band60.output30] Band60.output30 30 (replicate 60 (Some Band60.canvas))).
  - constructor; simpl; [lia | lia | by exists 2%nat | reflexivity | lia | reflexivity |].
    intros [|[|[|[|i]]]] bucket o; simpl; intros [= <-] Ho;
      try (by apply list_elem_of_In in Ho).
    apply list_elem_of_singleton in Ho as ->. split; [by exists 1%nat | reflexivity].
  - reflexivity.
  - apply list_elem_of_here.
  - apply Forall_replicate. by eexists.
  - lia.
  - reflexivity.
Defined.

(* ================================================================== *)
(** ** SoftVideoCompositor: the rates an output can ask for *)

Lemma member_60_15 fps : FpsBand.member 60 15 fps <-> fps = 15 \/ fps = 30 \/ fps = 60.
Proof.
  split.
  - intros (k & -> & Hle). destruct k as [|[|[|k]]]; [by left | by right; left | by right; right |].
    rewrite !pow2_succ in Hle. pose proof (pow2_pos k). lia.
  - intros [-> | [-> | ->]]; [by exists 0%nat | by exists 1%nat | by exists 2%nat].
Qed.

Lemma member_48_6 fps :
  FpsBand.member 48 6 fps <-> fps = 6 \/ fps = 12 \/ fps = 24 \/ fps = 48.
Proof.
  split.
  - intros (k & -> & Hle).
    destruct k as [|[|[|[|k]]]];
      [by left | by right; left | by right; right; left | by right; right; right |].
    rewrite !pow2_succ in Hle. pose proof (pow2_pos k). lia.
  - intros [-> | [-> | [-> | ->]]];
      [by exists 0%nat | by exists 1%nat | by exists 2%nat | by exists 3%nat].
Qed.

(** A generator just constructed has no output. *)
Lemma create_no_outputs fuel maxFps minFps g dst :
  SoftFrameGenerator.create fuel maxFps minFps = Returns g -> ~ Outputs.registered dst g.
Proof.
  unfold SoftFrameGenerator.create.
  destruct (SoftFrameGenerator.quantize fuel minFps maxFps) as [q| | |]; simpl; try done.
  destruct (minFps =? 0); [done|]. intros [= <-] (bucket & o & Hb & Ho & _). simpl in Hb.
  apply elem_of_replicate in Hb as [-> _]. by apply list_elem_of_In in Ho.
Qed.

Lemma removeOutput_unregistered dst g :
  ~ Outputs.registered dst g -> SoftFrameGenerator.removeOutput dst g = (false, g).
Proof.
  intros Hno. apply not_registered, remove_first_none in Hno.
  unfold SoftFrameGenerator.removeOutput. by rewrite Hno.
Qed.

(** X19. A compositor serves seven rates.  Its constructor makes the
    generators 60/15 and 48/6, both without outputs; [addOutput] puts
    an output at 15, 30 or 60 frames a second into the first and one
    at 6, 12, 24 or 48 into the second, and answers true; it refuses
    every other rate and then changes nothing.  After a successful
    [addOutput], [removeOutput] of the destination answers true and
    gives back the generators as constructed. *)
Theorem compositor_output_rates NDEBUG fuel w h fps dst :
  (33 <= fuel)%nat ->
  exists g60 g48,
    Generators.create fuel = Returns [g60; g48] /\
    (fps = 15 \/ fps = 30 \/ fps = 60 ->
     exists g',
       Generators.addOutput NDEBUG fuel w h fps dst [g60; g48] = Returns (true, [g'; g48]) /\
       Outputs.registered dst g' /\
       Generators.removeOutput dst [g'; g48] = (true, [g60; g48])) /\
    (fps = 6 \/ fps = 12 \/ fps = 24 \/ fps = 48 ->
     exists g',
       Generators.addOutput NDEBUG fuel w h fps dst [g60; g48] = Returns (true, [g60; g']) /\
       Outputs.registered dst g' /\
       Generators.removeOutput dst [g60; g'] = (true, [g60; g48])) /\
    (~ (fps = 15 \/ fps = 30 \/ fps = 60) ->
     ~ (fps = 6 \/ fps = 12 \/ fps = 24 \/ fps = 48) ->
     Generators.addOutput NDEBUG fuel w h fps dst [g60; g48] = Returns (false, [g60; g48])).
Proof.
  intros Hfuel.
  destruct (create_valid fuel 60 15) as (g60 & Hc60 & Hv60 & Hmax60 & Hmin60 & _);
    [lia | lia | done | by exists 2%nat |].
  destruct (create_valid fuel 48 6) as (g48 & Hc48 & Hv48 & Hmax48 & Hmin48 & _);
    [lia | lia | done | by exists 3%nat |].
  pose proof (create_no_outputs _ _ _ _ dst Hc60) as Hno60.
  pose proof (create_no_outputs _ _ _ _ dst Hc48) as Hno48.
  destruct (isSupported_exact fuel w h fps g60 Hfuel) as (b60 & Hs60 & Hb60);
    [rewrite Hmin60; lia | rewrite Hmax60; lia |].
  destruct (isSupported_exact fuel w h fps g48 Hfuel) as (b48 & Hs48 & Hb48);
    [rewrite Hmin48; lia | rewrite Hmax48; lia |].
  rewrite Hmax60, Hmin60, member_60_15 in Hb60.
  rewrite Hmax48, Hmin48, member_48_6 in Hb48.
  exists g60, g48. split; [|split; [|split]].
  - unfold Generators.create. rewrite Hc60. simpl. by rewrite Hc48.
  - intros Hfps.
    destruct (addOutput_returns NDEBUG fuel w h fps dst g60 Hv60 Hfuel)
      as [[bucket Hbucket] Hadd]; [by rewrite Hmax60, Hmin60, member_60_15|].
    pose proof (registered_added w h fps dst g60 _ bucket Hbucket) as Hreg.
    pose proof (removeOutput_added w h fps dst g60 _ bucket Hno60 Hbucket) as Hrm.
    eexists. simpl. rewrite Hs60, (proj2 Hb60 Hfps). simpl. rewrite Hadd. simpl.
    by rewrite Hrm.
  - intros Hfps.
    destruct (addOutput_returns NDEBUG fuel w h fps dst g48 Hv48 Hfuel)
      as [[bucket Hbucket] Hadd]; [by rewrite Hmax48, Hmin48, member_48_6|].
    pose proof (registered_added w h fps dst g48 _ bucket Hbucket) as Hreg.
    pose proof (removeOutput_added w h fps dst g48 _ bucket Hno48 Hbucket) as Hrm.
    assert (Hb : b60 = false).
    { destruct b60; [|done]. destruct (proj1 Hb60 eq_refl) as [-> | [-> | ->]]; lia. }
    eexists. simpl. rewrite Hs60, Hb. simpl. rewrite Hs48, (proj2 Hb48 Hfps). simpl.
    rewrite Hadd. simpl. by rewrite (removeOutput_unregistered dst g60 Hno60), Hrm.
  - intros Hn60 Hn48.
    assert (Hb : b60 = false) by (destruct b60; [by destruct Hn60; apply Hb60|done]).
    assert (Hb' : b48 = false) by (destruct b48; [by destruct Hn48; apply Hb48|done]).
    simpl. rewrite Hs60, Hb. simpl. by rewrite Hs48, Hb'.
Qed.

Lemma compositor_output_rates_witness :
  exists g60 g48,
    Generators.create 33 = Returns [g60; g48] /\
    (24 = 15 \/ 24 = 30 \/ 24 = 60 ->
     exists g',
       Generators.addOutput false 33 640 480 24 7 [g60; g48] = Returns (true, [g'; g48]) /\
       Outputs.registered 7 g' /\
       Generators.removeOutput 7 [g'; g48] = (true, [g60; g48])) /\
    (24 = 6 \/ 24 = 12 \/ 24 = 24 \/ 24 = 48 ->
     exists g',
       Generators.addOutput false 33 640 480 24 7 [g60; g48] = Returns (true, [g60; g']) /\
       Outputs.registered 7 g' /\
       Generators.removeOutput 7 [g60; g'] = (true, [g60; g48])) /\
    (~ (24 = 15 \/ 24 = 30 \/ 24 = 60) ->
     ~ (24 = 6 \/ 24 = 12 \/ 24 = 24 \/ 24 = 48) ->
     Generators.addOutput false 33 640 480 24 7 [g60; g48] = Returns (false, [g60; g48])).
Proof. apply (compositor_output_rates false 33 640 480 24 7). lia. Defined.

(* ================================================================== *)
(** ** SoftFrameGenerator: ticks, the layout and the inputs *)

Lemma hasValidOutput_no_outputs g :
  Forall (eq []) (SoftFrameGenerator.m_outputs g) -> SoftFrameGenerator.hasValidOutput g = false.
Proof.
  intros Hall. unfold SoftFrameGenerator.hasValidOutput.
  apply not_true_is_false. intros Hex. apply existsb_exists in Hex as (b & Hb & Hid).
  unfold id in Hid. subst b.
  apply list_elem_of_In, elem_of_lookup_imap in Hb as (i & bucket & Heq & Hi).
  rewrite Forall_lookup in Hall. rewrite <- (Hall i bucket Hi) in Heq.
  simpl in Heq. by rewrite andb_false_r in Heq.
Qed.

Lemma reconfigureIfNeeded_generator s :
  Composer.generator (Composer.reconfigureIfNeeded s) = Composer.generator s.
Proof. unfold Composer.reconfigureIfNeeded. by destruct (Composer.m_configureChanged s). Qed.

(** A tick on which no due bucket has an output, or for which no
    buffer is free. *)
Lemma onTimeout_idle env s c :
  SoftFrameGenerator.m_counterMax (Composer.generator s) <> 0 ->
  SoftFrameGenerator.hasValidOutput (Composer.generator s) = false \/
  Composer.free_buffer env = None ->
  exists s',
    Composer.onTimeout env s c = Returns ([], s', c) /\
    SoftFrameGenerator.m_counterMax (Composer.generator s')
    = SoftFrameGenerator.m_counterMax (Composer.generator s) /\
    SoftFrameGenerator.m_outputs (Composer.generator s')
    = SoftFrameGenerator.m_outputs (Composer.generator s) /\
    (SoftFrameGenerator.hasValidOutput (Composer.generator s) = false ->
     Composer.m_layout s' = Composer.m_layout s /\
     Composer.m_newLayout s' = Composer.m_newLayout s /\
     Composer.m_configureChanged s' = Composer.m_configureChanged s).
Proof.
  intros HcM Hidle. unfold Composer.onTimeout.
  destruct (SoftFrameGenerator.hasValidOutput (Composer.generator s)) eqn:Hvalid.
  - destruct Hidle as [|Hfree]; [done|].
    unfold Composer.generateFrame, Composer.layout. rewrite Hfree. simpl.
    unfold SoftFrameGenerator.onTimeout, SoftFrameGenerator.tick_counter.
    rewrite reconfigureIfNeeded_generator, Hvalid.
    destruct (Z.eqb_spec (SoftFrameGenerator.m_counterMax (Composer.generator s)) 0); [done|].
    simpl. eexists. split; [reflexivity|]. by simpl.
  - simpl. unfold SoftFrameGenerator.onTimeout, SoftFrameGenerator.tick_counter.
    rewrite Hvalid.
    destruct (Z.eqb_spec (SoftFrameGenerator.m_counterMax (Composer.generator s)) 0); [done|].
    simpl. eexists. split; [reflexivity|]. by simpl.
Qed.

(** X20. A generator none of whose buckets holds an output takes
    nothing from the inputs: over any run of ticks and layout updates
    it delivers nothing, leaves the compositor exactly as it was and
    never takes up a layout handed in.  The same holds for the
    compositor, whatever the outputs, over a run on every tick of
    which the buffer manager has no free buffer. *)
Theorem idle_ticks_leave_inputs calls s c :
  SoftFrameGenerator.m_counterMax (Composer.generator s) <> 0 ->
  Forall (eq []) (SoftFrameGenerator.m_outputs (Composer.generator s)) \/
  Forall Composer.no_buffer calls ->
  exists log s',
    Composer.steps calls s c = Returns (log, s', c) /\
    Forall (eq []) log /\
    SoftFrameGenerator.m_outputs (Composer.generator s')
    = SoftFrameGenerator.m_outputs (Composer.generator s) /\
    (Forall (eq []) (SoftFrameGenerator.m_outputs (Composer.generator s)) ->
     Composer.m_layout s' = Composer.m_layout s).
Proof.
  revert s. induction calls as [|call calls IH]; intros s HcM Hidle.
  - exists [], s. by repeat split.
  - assert (Hrest : Forall (eq []) (SoftFrameGenerator.m_outputs (Composer.generator s)) \/
                    Forall Composer.no_buffer calls).
    { destruct Hidle as [|Hall]; [by left|]. right. by apply Forall_inv_tail in Hall. }
    destruct call as [solution|env]; simpl.
    + destruct (IH (Composer.updateLayoutSolution solution s) HcM Hrest)
        as (log & s' & Hsteps & Hlog & Hout & Hlay).
      by exists log, s'.
    + destruct (onTimeout_idle env s c HcM) as (s1 & Htick & HcM1 & Hout1 & Hlay1).
      { destruct Hidle as [Hnone|Hall]; [left; by apply hasValidOutput_no_outputs|].
        right. by apply Forall_inv in Hall. }
      rewrite Htick. simpl.
      destruct (IH s1) as (log & s' & Hsteps & Hlog & Hout & Hlay);
        [by rewrite HcM1 | by rewrite Hout1 |].
      rewrite Hsteps. simpl. exists ([] :: log), s'.
      split; [done|]. split; [by constructor|]. split; [by rewrite Hout, Hout1|].
      intros Hnone. rewrite Hlay by by rewrite Hout1.
      by apply Hlay1, hasValidOutput_no_outputs.
Qed.

Lemma idle_ticks_leave_inputs_witness :
  exists log s',
    Composer.steps Ticks.calls Ticks.idle S3.compositor = Returns (log, s', S3.compositor) /\
    Forall (eq []) log /\
    SoftFrameGenerator.m_outputs (Composer.generator s')
    = SoftFrameGenerator.m_outputs (Composer.generator Ticks.idle) /\
    (Forall (eq []) (SoftFrameGenerator.m_outputs (Composer.generator Ticks.idle)) ->
     Composer.m_layout s' = Composer.m_layout Ticks.idle).
Proof.
  apply (idle_ticks_leave_inputs Ticks.calls Ticks.idle S3.compositor).
  - simpl. lia.
  - left. repeat constructor.
Defined.

Lemma onTimeout_settled env s c delivered s' c' :
  Composer.settled s ->
  Composer.onTimeout env s c = Returns (delivered, s', c') ->
  Composer.settled s' /\ Composer.m_newLayout s' = Composer.m_newLayout s.
Proof.
  intros Hset. unfold Composer.onTimeout.
  destruct (SoftFrameGenerator.hasValidOutput (Composer.generator s)).
  - unfold Composer.generateFrame.
    destruct (Composer.layout env _ c) as [[frame c1]| | |]; simpl; try done.
    destruct (SoftFrameGenerator.onTimeout frame _) as [[d g']| | |]; simpl; try done.
    intros [= <- <- <-]. unfold Composer.settled, Composer.reconfigureIfNeeded in *.
    destruct (Composer.m_configureChanged s); simpl; [done|]. split; [|done].
    intros _. by apply Hset.
  - simpl. destruct (SoftFrameGenerator.onTimeout None _) as [[d g']| | |]; simpl; try done.
    by intros [= <- <- <-].
Qed.

Lemma steps_latest calls s0 c0 log s c :
  Composer.settled s0 ->
  Composer.steps calls s0 c0 = Returns (log, s, c) ->
  Composer.settled s /\
  Composer.m_newLayout s = Composer.latest (Composer.m_newLayout s0) calls.
Proof.
  revert s0 c0 log. induction calls as [|call calls IH]; intros s0 c0 log Hset; simpl.
  - by intros [= <- <- <-].
  - destruct call as [solution|env].
    + intros Hsteps.
      by apply (IH (Composer.updateLayoutSolution solution s0) c0 log).
    + destruct (Composer.onTimeout env s0 c0) as [[[d s1] c1]| | |] eqn:Htick; simpl; try done.
      destruct (onTimeout_settled _ _ _ _ _ _ Hset Htick) as [Hset1 Hnew1].
      destruct (Composer.steps calls s1 c1) as [[[log1 s2] c2]| | |] eqn:Hsteps; simpl; try done.
      intros [= <- <- <-]. rewrite <- Hnew1. by apply (IH _ _ _ Hset1 Hsteps).
Qed.

(** X21. The layout a tick composes is the one handed in last.
    After any run of layout updates and ticks, a tick on which some
    due bucket has an output and a buffer is free lays out the regions
    of the solution given by the last [updateLayoutSolution] of the
    run (that of the start if there was none), hands the frame composed
    of them to the due outputs, and leaves that solution as the layout
    in use. *)
Theorem composing_tick_uses_latest_layout calls s0 c0 log s c env compositeBuffer frames c' :
  Composer.settled s0 ->
  Composer.steps calls s0 c0 = Returns (log, s, c) ->
  SoftFrameGenerator.hasValidOutput (Composer.generator s) = true ->
  SoftFrameGenerator.m_counterMax (Composer.generator s) <> 0 ->
  Composer.free_buffer env = Some compositeBuffer ->
  SoftFrameGenerator.layout_regions (Composer.m_crop s) (Composer.files env) compositeBuffer
    (Composer.latest (Composer.m_newLayout s0) calls) c = Returns (frames, c') ->
  exists s',
    Composer.onTimeout env s c
    = Returns (SoftFrameGenerator.deliveries (Composer.generator s)
                 (Composer.composite env compositeBuffer frames),
               s', c') /\
    Composer.m_layout s' = Composer.latest (Composer.m_newLayout s0) calls /\
    Composer.m_configureChanged s' = false.
Proof.
  intros Hset0 Hsteps Hvalid HcM Hfree Hpass.
  destruct (steps_latest _ _ _ _ _ _ Hset0 Hsteps) as [Hset Hnew].
  assert (Hlay : Composer.m_layout (Composer.reconfigureIfNeeded s)
                 = Composer.latest (Composer.m_newLayout s0) calls /\
                 Composer.m_configureChanged (Composer.reconfigureIfNeeded s) = false).
  { unfold Composer.reconfigureIfNeeded, Composer.settled in *.
    destruct (Composer.m_configureChanged s) eqn:Hch; simpl; [done|].
    by rewrite Hset. }
  destruct Hlay as [Hlay Hch].
  assert (Hcrop : Composer.m_crop (Composer.reconfigureIfNeeded s) = Composer.m_crop s).
  { unfold Composer.reconfigureIfNeeded. by destruct (Composer.m_configureChanged s). }
  unfold Composer.onTimeout, Composer.generateFrame, Composer.layout.
  rewrite Hvalid, Hfree, Hlay, Hcrop, Hpass. simpl.
  unfold SoftFrameGenerator.onTimeout, SoftFrameGenerator.tick_counter.
  rewrite reconfigureIfNeeded_generator, Hvalid.
  destruct (Z.eqb_spec (SoftFrameGenerator.m_counterMax (Composer.generator s)) 0); [done|].
  simpl. eexists. split; [reflexivity|]. by simpl.
Qed.

Lemma composing_tick_uses_latest_layout_witness :
  exists frames c',
    SoftFrameGenerator.layout_regions true S3.no_files S3.canvas S3.layout S3.compositor
    = Returns (frames, c') /\
    exists s',
      Composer.onTimeout Ticks.env (Composer.updateLayoutSolution S3.layout Ticks.serving)
        S3.compositor
      = Returns (SoftFrameGenerator.deliveries
                   (Composer.generator (Composer.updateLayoutSolution S3.layout Ticks.serving))
                   (Composer.composite Ticks.env S3.canvas frames),
                 s', c') /\
      Composer.m_layout s' = S3.layout /\
      Composer.m_configureChanged s' = false.
Proof.
  eexists _, _. split; [vm_compute; reflexivity|].
  apply (composing_tick_uses_latest_layout
           [Composer.UpdateLayoutSolution S3.layout] Ticks.serving S3.compositor []
           (Composer.updateLayoutSolution S3.layout Ticks.serving) S3.compositor Ticks.env
           S3.canvas).
  - done.
  - reflexivity.
  - reflexivity.
  - simpl. lia.
  - reflexivity.
  - vm_compute. reflexivity.
Defined.

(* ================================================================== *)
(** ** layout_regions: the rectangles handed to the scaler *)

Lemma even_down_spec x : 0 <= x < 2 ^ 32 -> Placement.even_down x = 2 * (x / 2).
Proof.
  intros Hx. unfold Placement.even_down.
  change (wrap32 (Z.lnot 1)) with (Z.ldiff (Z.ones 32) (Z.ones 1)).
  rewrite Z.ldiff_land, Z.land_assoc, Z.land_ones by lia.
  rewrite Z.mod_small by lia. rewrite <- Z.ldiff_land, Z.ldiff_ones_r by lia.
  rewrite Z.shiftr_div_pow2, Z.shiftl_mul_pow2 by lia. change (2 ^ 1) with 2. lia.
Qed.

Lemma scaled_proper extent r :
  0 <= extent < 2 ^ 31 -> Placement.proper r ->
  exists v, Placement.scaled extent r = Returns v /\ 0 <= v <= extent.
Proof.
  intros He [Hn Hd]. unfold Placement.scaled.
  destruct (Z.eqb_spec (SoftFrameGenerator.denominator r) 0); [lia|].
  assert (Hprod : 0 <= extent * SoftFrameGenerator.numerator r < 2 ^ 64) by nia.
  unfold Placement.wrap64. rewrite (Z.mod_small _ _ Hprod).
  assert (Hq : 0 <= extent * SoftFrameGenerator.numerator r / SoftFrameGenerator.denominator r
               <= extent).
  { split; [apply Z.div_pos; lia|]. apply Z.div_le_upper_bound; [lia | nia]. }
  eexists. split; [by rewrite wrap32_small by lia | done].
Qed.

(** The clipped rectangle of a region given by fractions lies in the
    canvas. *)
Lemma clipped_inside cw ch region :
  0 <= cw < 2 ^ 31 -> 0 <= ch < 2 ^ 31 -> Placement.fractions region ->
  exists x y w h,
    Placement.clipped cw ch region = Returns (x, y, w, h) /\
    0 <= x /\ 0 <= y /\ 0 <= w /\ 0 <= h /\ x + w <= cw /\ y + h <= ch.
Proof.
  intros Hcw Hch (Hl & Ht & Hw & Hh).
  destruct (scaled_proper cw _ Hcw Hl) as (x & Hx & Hxb).
  destruct (scaled_proper ch _ Hch Ht) as (y & Hy & Hyb).
  destruct (scaled_proper cw _ Hcw Hw) as (w & Hw' & Hwb).
  destruct (scaled_proper ch _ Hch Hh) as (h & Hh' & Hhb).
  unfold Placement.clipped. rewrite Hx. simpl. rewrite Hy. simpl. rewrite Hw'. simpl.
  rewrite Hh'. simpl.
  rewrite (wrap32_small (x + w)), (wrap32_small (y + h)) by lia.
  rewrite (wrap32_small (cw - x)), (wrap32_small (ch - y)) by lia.
  eexists _, _, _, _. split; [reflexivity|].
  destruct (Z.gtb_spec (x + w) cw), (Z.gtb_spec (y + h) ch); lia.
Qed.

(** One direction of the last steps of the computation: centring the
    picture in the region and rounding down to even numbers. *)
Lemma centred_even x w cdw sx sw iw :
  0 <= x -> 0 <= cdw <= w -> x + w < 2 ^ 31 ->
  0 <= sx -> 0 <= sw -> sx + sw <= iw -> iw < 2 ^ 31 ->
  Placement.even_down x
  <= Placement.even_down (wrap32 (x + wrap32 (w - cdw) / 2)) /\
  Placement.even_down (wrap32 (x + wrap32 (w - cdw) / 2)) + Placement.even_down cdw <= x + w /\
  0 <= Placement.even_down cdw /\
  0 <= Placement.even_down sx /\
  0 <= Placement.even_down sw /\
  Placement.even_down sx + Placement.even_down sw <= iw /\
  Placement.even_down (wrap32 (x + wrap32 (w - cdw) / 2)) mod 2 = 0 /\
  Placement.even_down cdw mod 2 = 0 /\
  Placement.even_down sx mod 2 = 0 /\
  Placement.even_down sw mod 2 = 0.
Proof.
  intros Hx Hcdw Hxw Hsx Hsw Hs Hiw.
  rewrite (wrap32_small (w - cdw)) by lia.
  assert (Hhalf : 0 <= (w - cdw) / 2 <= w - cdw)
    by (Z.to_euclidean_division_equations; lia).
  rewrite (wrap32_small (x + (w - cdw) / 2)) by lia.
  rewrite !even_down_spec by lia.
  Z.to_euclidean_division_equations; lia.
Qed.

(** X22. For a region given by four fractions between zero and one,
    a canvas and an input narrower and lower than 2^31, the rectangle
    of the region in pixels lies in the canvas.  In crop mode the
    computation divides by the width and height of that rectangle:
    when either is zero it is undefined.  Otherwise it returns, and
    what it hands to the scaler is safe: the destination lies inside
    the rectangle of the region, from its left and top rounded down
    to even, the source lies inside the input frame, and all eight
    numbers are even. *)
Theorem placement_within_region m_crop cw ch region iw ih :
  0 <= cw < 2 ^ 31 -> 0 <= ch < 2 ^ 31 -> 0 < iw < 2 ^ 31 -> 0 < ih < 2 ^ 31 ->
  Placement.fractions region ->
  exists x y w h,
    Placement.clipped cw ch region = Returns (x, y, w, h) /\
    0 <= x /\ 0 <= y /\ 0 <= w /\ 0 <= h /\ x + w <= cw /\ y + h <= ch /\
    (m_crop = true -> w = 0 \/ h = 0 ->
     Placement.geometry m_crop cw ch region iw ih = Undefined) /\
    ((m_crop = true -> 0 < w /\ 0 < h) ->
     exists p,
       Placement.geometry m_crop cw ch region iw ih = Returns p /\
       Placement.even_down x <= Placement.dst_x p /\
       Placement.dst_x p + Placement.cropped_dst_width p <= x + w /\
       Placement.even_down y <= Placement.dst_y p /\
       Placement.dst_y p + Placement.cropped_dst_height p <= y + h /\
       0 <= Placement.cropped_dst_width p /\ 0 <= Placement.cropped_dst_height p /\
       0 <= Placement.src_x p /\ 0 <= Placement.src_width p /\
       Placement.src_x p + Placement.src_width p <= iw /\
       0 <= Placement.src_y p /\ 0 <= Placement.src_height p /\
       Placement.src_y p + Placement.src_height p <= ih /\
       Forall (fun v => v mod 2 = 0)
              [Placement.src_x p; Placement.src_y p; Placement.src_width p;
               Placement.src_height p; Placement.dst_x p; Placement.dst_y p;
               Placement.cropped_dst_width p; Placement.cropped_dst_height p]).
Proof.
  intros Hcw Hch Hiw Hih Hfr.
  destruct (clipped_inside cw ch region Hcw Hch Hfr)
    as (x & y & w & h & Hclip & Hx & Hy & Hw & Hh & Hxw & Hyh).
  exists x, y, w, h. repeat (split; [done|]). split.
  - intros -> Hzero. unfold Placement.geometry, Placement.udiv. rewrite Hclip. simpl.
    destruct (Z.eqb_spec h 0); [done|]. simpl.
    destruct (Z.eqb_spec w 0); [done|]. lia.
  - intros Hpos. unfold Placement.geometry, Placement.udiv. rewrite Hclip. simpl.
    destruct m_crop.
    + destruct (Hpos eq_refl) as [Hwpos Hhpos].
      destruct (Z.eqb_spec h 0); [lia|]. simpl. destruct (Z.eqb_spec w 0); [lia|]. simpl.
      set (across := wrap32 (w * ih) / h). set (down := wrap32 (h * iw) / w).
      assert (Hac : 0 <= across).
      { apply Z.div_pos; [|lia]. unfold wrap32. apply Z.mod_pos_bound. lia. }
      assert (Hdn : 0 <= down).
      { apply Z.div_pos; [|lia]. unfold wrap32. apply Z.mod_pos_bound. lia. }
      rewrite (wrap32_small (iw - Z.min iw across)) by lia.
      rewrite (wrap32_small (ih - Z.min ih down)) by lia.
      assert (Hsx : 0 <= (iw - Z.min iw across) / 2 <= iw - Z.min iw across)
        by (Z.to_euclidean_division_equations; lia).
      assert (Hsy : 0 <= (ih - Z.min ih down) / 2 <= ih - Z.min ih down)
        by (Z.to_euclidean_division_equations; lia).
      destruct (centred_even x w w ((iw - Z.min iw across) / 2) (Z.min iw across) iw)
        as (H1 & H2 & H3 & H4 & H5 & H6 & H7 & H8 & H9 & H10); [lia..|].
      destruct (centred_even y h h ((ih - Z.min ih down) / 2) (Z.min ih down) ih)
        as (G1 & G2 & G3 & G4 & G5 & G6 & G7 & G8 & G9 & G10); [lia..|].
      eexists. split; [reflexivity|]. simpl.
      repeat (split; [assumption|]). by repeat constructor.
    + destruct (Z.eqb_spec ih 0); [lia|]. simpl. destruct (Z.eqb_spec iw 0); [lia|]. simpl.
      set (across := wrap32 (iw * h) / ih). set (down := wrap32 (ih * w) / iw).
      assert (Hac : 0 <= across).
      { apply Z.div_pos; [|lia]. unfold wrap32. apply Z.mod_pos_bound. lia. }
      assert (Hdn : 0 <= down).
      { apply Z.div_pos; [|lia]. unfold wrap32. apply Z.mod_pos_bound. lia. }
      destruct (centred_even x w (Z.min w across) 0 iw iw)
        as (H1 & H2 & H3 & H4 & H5 & H6 & H7 & H8 & H9 & H10); [lia..|].
      destruct (centred_even y h (Z.min h down) 0 ih ih)
        as (G1 & G2 & G3 & G4 & G5 & G6 & G7 & G8 & G9 & G10); [lia..|].
      eexists. split; [reflexivity|]. simpl.
      repeat (split; [assumption|]). by repeat constructor.
Qed.

Lemma placement_within_region_witness :
  exists x y w h,
    Placement.clipped 1280 720 Placement.right_half = Returns (x, y, w, h) /\
    0 <= x /\ 0 <= y /\ 0 <= w /\ 0 <= h /\ x + w <= 1280 /\ y + h <= 720 /\
    (true = true -> w = 0 \/ h = 0 ->
     Placement.geometry true 1280 720 Placement.right_half 640 480 = Undefined) /\
    ((true = true -> 0 < w /\ 0 < h) ->
     exists p,
       Placement.geometry true 1280 720 Placement.right_half 640 480 = Returns p /\
       Placement.even_down x <= Placement.dst_x p /\
       Placement.dst_x p + Placement.cropped_dst_width p <= x + w /\
       Placement.even_down y <= Placement.dst_y p /\
       Placement.dst_y p + Placement.cropped_dst_height p <= y + h /\
       0 <= Placement.cropped_dst_width p /\ 0 <= Placement.cropped_dst_height p /\
       0 <= Placement.src_x p /\ 0 <= Placement.src_width p /\
       Placement.src_x p + Placement.src_width p <= 640 /\
       0 <= Placement.src_y p /\ 0 <= Placement.src_height p /\
       Placement.src_y p + Placement.src_height p <= 480 /\
       Forall (fun v => v mod 2 = 0)
              [Placement.src_x p; Placement.src_y p; Placement.src_width p;
               Placement.src_height p; Placement.dst_x p; Placement.dst_y p;
               Placement.cropped_dst_width p; Placement.cropped_dst_height p]).
Proof.
  apply (placement_within_region true 1280 720 Placement.right_half 640 480); try lia.
  unfold Placement.fractions, Placement.proper. simpl. lia.
Defined.

(** Which of two quotients reaches its bound. *)
Lemma one_quotient_reaches a b c d :
  0 < a -> 0 < b -> 0 <= c -> 0 <= d ->
  c <= a * d / b \/ d <= b * c / a.
Proof.
  intros Ha Hb Hc Hd. destruct (Z.le_gt_cases c (a * d / b)) as [|Hlt]; [by left|].
  right. apply Z.div_le_lower_bound; [lia|].
  destruct (Z.le_gt_cases (c * b) (a * d)) as [Hle|Hgt]; [|lia].
  exfalso. assert (c <= a * d / b); [|lia]. apply Z.div_le_lower_bound; lia.
Qed.

(** X23. With canvas and input below 2^16 pixels each way, so that no
    product wraps, the picture is fitted in one direction.  Without
    crop the whole input is taken and the picture fills the rectangle
    of the region across or down, both rounded down to even; with crop
    the whole rectangle is painted and the input is taken whole across
    or down. *)
Theorem placement_fits_one_direction m_crop cw ch region iw ih x y w h p :
  0 <= cw < 2 ^ 16 -> 0 <= ch < 2 ^ 16 -> 0 < iw < 2 ^ 16 -> 0 < ih < 2 ^ 16 ->
  Placement.fractions region ->
  Placement.clipped cw ch region = Returns (x, y, w, h) ->
  Placement.geometry m_crop cw ch region iw ih = Returns p ->
  if m_crop then
    Placement.cropped_dst_width p = Placement.even_down w /\
    Placement.cropped_dst_height p = Placement.even_down h /\
    (Placement.src_width p = Placement.even_down iw \/
     Placement.src_height p = Placement.even_down ih)
  else
    Placement.src_x p = 0 /\ Placement.src_y p = 0 /\
    Placement.src_width p = Placement.even_down iw /\
    Placement.src_height p = Placement.even_down ih /\
    (Placement.cropped_dst_width p = Placement.even_down w \/
     Placement.cropped_dst_height p = Placement.even_down h).
Proof.
  intros Hcw Hch Hiw Hih Hfr Hclip.
  destruct (clipped_inside cw ch region ltac:(lia) ltac:(lia) Hfr)
    as (x' & y' & w' & h' & Hclip' & Hx & Hy & Hw & Hh & Hxw & Hyh).
  rewrite Hclip in Hclip'. injection Hclip' as <- <- <- <-.
  unfold Placement.geometry, Placement.udiv. rewrite Hclip. simpl.
  destruct m_crop.
  - destruct (Z.eqb_spec h 0); [done|]. simpl. destruct (Z.eqb_spec w 0); [done|]. simpl.
    intros [= <-]. simpl. split; [done|]. split; [done|].
    rewrite (wrap32_small (w * ih)), (wrap32_small (h * iw)) by nia.
    destruct (one_quotient_reaches w h iw ih) as [Hle|Hle]; try lia.
    + left. f_equal. replace (w * ih) with (ih * w) in Hle |- * by lia. lia.
    + right. f_equal. lia.
  - destruct (Z.eqb_spec ih 0); [lia|]. simpl. destruct (Z.eqb_spec iw 0); [lia|]. simpl.
    intros [= <-]. simpl. repeat (split; [done|]).
    rewrite (wrap32_small (iw * h)), (wrap32_small (ih * w)) by nia.
    destruct (one_quotient_reaches iw ih w h) as [Hle|Hle]; try lia.
    + left. f_equal. lia.
    + right. f_equal. lia.
Qed.

Lemma placement_fits_one_direction_witness :
  Placement.src_x (Placement.mk 0 0 640 480 640 120 640 480) = 0 /\
  Placement.src_y (Placement.mk 0 0 640 480 640 120 640 480) = 0 /\
  Placement.src_width (Placement.mk 0 0 640 480 640 120 640 480) = Placement.even_down 640 /\
  Placement.src_height (Placement.mk 0 0 640 480 640 120 640 480) = Placement.even_down 480 /\
  (Placement.cropped_dst_width (Placement.mk 0 0 640 480 640 120 640 480)
   = Placement.even_down 640 \/
   Placement.cropped_dst_height (Placement.mk 0 0 640 480 640 120 640 480)
   = Placement.even_down 720).
Proof.
  apply (placement_fits_one_direction false 1280 720 Placement.right_half 640 480
           640 0 640 720 (Placement.mk 0 0 640 480 640 120 640 480)); try lia.
  - unfold Placement.fractions, Placement.proper. simpl. lia.
  - reflexivity.
  - reflexivity.
Defined.

(* ================================================================== *)
(** ** SoftVideoCompositor: from a pushed frame to the picture *)











(* ================================================================== *)
(** ** layout_regions: the rectangles of a pass *)



